(** * Style-and-layout resolution of the spreadsheet viewer

    A shallow embedding of the Excel viewer script (the file that parses
    the Open XML parts itself): the style tables, the colour resolver,
    the style cascade, the number formatter, the column-width formula,
    freeze panes, the merged-border aggregation, the text-overflow span
    and the row/column bounds of the rendered grid; then cell names and
    hyperlinks, the theme part and colour elements, the merged ranges
    cell by cell, the content and the borders of a cell, and the table
    as [renderSheet] fills it, with the exceptions a cell can raise.

    Conventions of the embedding.
    - A JavaScript Number that holds a measurement or a cell value is a
      binary64 float ([PrimFloat.float]); its arithmetic is the kernel's
      IEEE-754 arithmetic.  A Number that is the result of [parseInt]
      (row and column numbers, style indices, format ids) is an
      [option Z]: [None] is NaN, [Some z] the integer.  Below 2^53 in
      magnitude binary64 is exact on integers; where a counter or a
      printed number depends on that, the statement has the bound as a
      hypothesis ([Ref.safeInteger]).
    - [getAttribute] returns [option string]: [None] is JavaScript's
      [null].  A string is the byte string of its UTF-8 encoding.  The
      characters the code tells apart are ASCII (digits, capitals, the
      sign, the characters [escapeHtml] replaces), except white space:
      [parseInt], [parseFloat] and the URL pattern of
      [buildHyperlinkHtml] tell the white-space characters beyond ASCII
      by their encodings.
    - The module-level tables of the script ([themeColors], [fonts],
      [cellXfs], [numFmts], [currentMaxCol], ...) are passed explicitly.
    - What the browser supplies (canvas text measurement, the local time
      zone, the CSS parser behind [td.style]) is a field of [Host]. *)

From Stdlib Require Import ZArith QArith Qround Qabs Floats List String Ascii Bool Lia.
From stdpp Require Import gmap strings list fin_maps.
Import ListNotations.

Set Warnings "-inexact-float,-register-all".
#[local] Open Scope string_scope.
#[local] Open Scope Z_scope.

(** ** Characters and strings, as the script's string methods use them *)

Module Js.

Definition ascii_code (c : ascii) : Z := Z.of_nat (nat_of_ascii c).

Definition is_digit (c : ascii) : bool :=
  (48 <=? ascii_code c) && (ascii_code c <=? 57).

Definition digit_val (c : ascii) : Z := ascii_code c - 48.

(** A hexadecimal digit's value, [None] for any other character. *)
Definition hex_val (c : ascii) : option Z :=
  let n := ascii_code c in
  if (48 <=? n) && (n <=? 57) then Some (n - 48)
  else if (65 <=? n) && (n <=? 70) then Some (n - 55)
  else if (97 <=? n) && (n <=? 102) then Some (n - 87)
  else None.

(** White space that [parseInt] and [parseFloat] skip: StrWhiteSpaceChar.
    [is_space] is its ASCII part (TAB, LF, VT, FF, CR, SP); the other
    characters are told by their UTF-8 encodings, of two bytes (U+00A0)
    and of three (U+1680, U+2000 to U+200A, U+2028, U+2029, U+202F,
    U+205F, U+3000 and U+FEFF). *)
Definition is_space (c : ascii) : bool :=
  let n := ascii_code c in
  ((9 <=? n) && (n <=? 13)) || (n =? 32).

Definition is_space2 (a b : ascii) : bool :=
  (ascii_code a =? 194) && (ascii_code b =? 160).

Definition is_space3 (a b c : ascii) : bool :=
  let a := ascii_code a in
  let b := ascii_code b in
  let c := ascii_code c in
  ((a =? 225) && (b =? 154) && (c =? 128))
  || ((a =? 226) && (b =? 128)
      && (((128 <=? c) && (c <=? 138)) || (c =? 168) || (c =? 169) || (c =? 175)))
  || ((a =? 226) && (b =? 129) && (c =? 159))
  || ((a =? 227) && (b =? 128) && (c =? 128))
  || ((a =? 239) && (b =? 187) && (c =? 191)).

(** The text without its leading white space. *)
Fixpoint trim_start (s : string) : string :=
  match s with
  | String a r =>
      if is_space a then trim_start r
      else
        match r with
        | String b r' =>
            if is_space2 a b then trim_start r'
            else
              match r' with
              | String c r'' => if is_space3 a b c then trim_start r'' else s
              | EmptyString => s
              end
        | EmptyString => s
        end
  | EmptyString => s
  end.

(** [s.includes(c)] for a one-character needle. *)
Fixpoint includes_char (c : ascii) (s : string) : bool :=
  match s with
  | EmptyString => false
  | String d r => if Ascii.eqb c d then true else includes_char c r
  end.

(** [(s.match(/c/g) || []).length]. *)
Fixpoint count_char (c : ascii) (s : string) : Z :=
  match s with
  | EmptyString => 0
  | String d r => (if Ascii.eqb c d then 1 else 0) + count_char c r
  end.

Definition strlen (s : string) : Z := Z.of_nat (String.length s).

(** [s.substring(a, b)] and [s.substring(a)] for non-negative bounds. *)
Definition substring (a b : Z) (s : string) : string :=
  String.substring (Z.to_nat a) (Z.to_nat (b - a)) s.

Definition substring_from (a : Z) (s : string) : string :=
  String.substring (Z.to_nat a) (String.length s - Z.to_nat a)%nat s.

Fixpoint repeat_char (c : ascii) (n : nat) : string :=
  match n with
  | O => ""
  | S k => String c (repeat_char c k)
  end.

(** [s.padStart(n, '0')]. *)
Definition padStart0 (n : nat) (s : string) : string :=
  repeat_char "0" (n - String.length s) ++ s.

(** *** Integers to and from decimal text *)

Definition digit_char (d : Z) : ascii := ascii_of_nat (Z.to_nat (48 + d)).

Fixpoint digits_go (fuel : nat) (n : Z) (acc : string) : string :=
  match fuel with
  | O => acc
  | S f =>
      let acc' := String (digit_char (n mod 10)) acc in
      if n <? 10 then acc' else digits_go f (n / 10) acc'
  end.

(** The decimal digits of a non-negative integer. *)
Definition digits (n : Z) : string :=
  digits_go (S (Z.to_nat (Z.log2 n))) n "".

(** [String(n)] for an integer-valued Number below 2^53. *)
Definition int_to_string (n : Z) : string :=
  if n <? 0 then String "-" (digits (- n)) else digits n.

(** The value of the longest prefix of radix digits; [None] when that
    prefix is empty. *)
Fixpoint digits_prefix (radix : Z) (s : string) (acc : option Z) : option Z :=
  match s with
  | EmptyString => acc
  | String c r =>
      match hex_val c with
      | Some d =>
          if d <? radix
          then digits_prefix radix r (Some (radix * default 0 acc + d))
          else acc
      | None => acc
      end
  end.

(** A leading sign: whether it is a minus, and the text after it. *)
Definition strip_sign (s : string) : bool * string :=
  match s with
  | String c r =>
      if Ascii.eqb c "-" then (true, r)
      else if Ascii.eqb c "+" then (false, r)
      else (false, s)
  | EmptyString => (false, s)
  end.

(** A leading [0x] or [0X] selects radix 16. *)
Definition strip_hex_prefix (radix : Z) (s : string) : Z * string :=
  match s with
  | String c (String x r) =>
      if Ascii.eqb c "0" && (Ascii.eqb x "x" || Ascii.eqb x "X")
      then (16, r) else (radix, s)
  | _ => (radix, s)
  end.

(** [parseInt(s, radix)]: leading white space, a sign, an optional [0x]
    prefix, then the longest digit prefix; [None] is NaN.  [radix] is
    10 when the call gives none. *)
Definition parseInt_radix (radix : Z) (s : string) : option Z :=
  let '(neg, s) := strip_sign (trim_start s) in
  let '(radix, s) := strip_hex_prefix radix s in
  match digits_prefix radix s None with
  | Some n => Some (if neg then - n else n)
  | None => None
  end.

Definition parseInt (s : string) : option Z := parseInt_radix 10 s.

(** [parseInt(a)] of an attribute that may be absent: [parseInt(null)]
    reads the text "null" and is NaN. *)
Definition parseInt_attr (a : option string) : option Z :=
  match a with
  | Some s => parseInt s
  | None => None
  end.

(** [n || 0] for a [parseInt] result: NaN and 0 are both falsy. *)
Definition or_zero (n : option Z) : Z := default 0 n.

(** [n > k] for a [parseInt] result: false at NaN. *)
Definition gt (n : option Z) (k : Z) : bool :=
  match n with
  | Some z => k <? z
  | None => false
  end.

(** Indexing an array with a Number: [undefined] off the ends and at NaN. *)
Definition arr_get {A} (l : list A) (i : option Z) : option A :=
  match i with
  | Some z => if z <? 0 then None else l !! Z.to_nat z
  | None => None
  end.

End Js.

(** ** JavaScript Numbers: binary64 values and the built-ins the script calls *)

(** What a call returns, or the exception it raises ([toFixed] and
    [toLocaleString] raise a RangeError on a digit count above 100). *)
Inductive outcome (A : Type) : Type :=
  | Returns (a : A)
  | Throws (error : string).
Arguments Returns {A} a.
Arguments Throws {A} error.

Module Num.

(** The binary64 value nearest to an integer and to a rational (ties to
    even, overflow to infinity): the correctly rounded conversions of
    the IEEE-754 specification in [SpecFloat]. *)
Definition of_Z (z : Z) : float :=
  SF2Prim (binary_normalize prec emax z 0 false).

Definition of_Q (q : Q) : float :=
  match Qnum q with
  | Z0 => PrimFloat.zero
  | Zpos m =>
      SF2Prim (SFdiv prec emax (S754_finite false m 0)
                 (S754_finite false (Qden q) 0))
  | Zneg m =>
      SF2Prim (SFdiv prec emax (S754_finite true m 0)
                 (S754_finite false (Qden q) 0))
  end.

(** The exact value of a finite float; [None] for NaN and the infinities. *)
Definition to_Q (x : float) : option Q :=
  match Prim2SF x with
  | S754_zero _ => Some 0%Q
  | S754_finite s m e =>
      let v := if 0 <=? e then inject_Z (Zpos m * 2 ^ e)
               else (Zpos m # Pos.shiftl 1 (Z.to_N (- e)))%Q in
      Some (if s then Qopp v else v)
  | _ => None
  end.

Definition isNaN (x : float) : bool := PrimFloat.is_nan x.

(** [Number.isFinite(x)]. *)
Definition isFinite (x : float) : bool := PrimFloat.is_finite x.

(** A Number in a condition: 0, -0 and NaN are falsy. *)
Definition truthy (x : float) : bool :=
  negb (PrimFloat.is_zero x || PrimFloat.is_nan x).

(** [x || d]. *)
Definition or_else (x d : float) : float := if truthy x then x else d.

Definition is_neg_zero (x : float) : bool :=
  match Prim2SF x with
  | S754_zero true => true
  | _ => false
  end.

(** [Math.floor]. A float whose exponent is non-negative is an integer
    already; otherwise the floor has fewer than 53 bits and is exact. *)
Definition floor (x : float) : float :=
  match Prim2SF x with
  | S754_finite s m e =>
      if 0 <=? e then x
      else of_Z (Z.shiftr (if s then Zneg m else Zpos m) (- e))
  | _ => x
  end.

(** [Math.round]: the nearest integer, a tie going up. *)
Definition round (x : float) : float :=
  match Prim2SF x with
  | S754_finite s m e =>
      if 0 <=? e then x
      else
        let r := Z.shiftr (2 * (if s then Zneg m else Zpos m) + 2 ^ (- e))
                          (- e + 1) in
        if (r =? 0) && s then PrimFloat.neg_zero else of_Z r
  | _ => x
  end.

(** [Math.max] and [Math.min] of two Numbers: NaN if either is NaN. *)
Definition max (x y : float) : float :=
  if isNaN x || isNaN y then PrimFloat.nan
  else if PrimFloat.ltb x y then y
  else if PrimFloat.ltb y x then x
  else if is_neg_zero x then y else x.

Definition min (x y : float) : float :=
  if isNaN x || isNaN y then PrimFloat.nan
  else if PrimFloat.ltb x y then x
  else if PrimFloat.ltb y x then y
  else if is_neg_zero x then x else y.

(** [Number.isInteger(x)]. *)
Definition isInteger (x : float) : bool :=
  isFinite x && PrimFloat.eqb (floor x) x.

(** *** Decimal text of a Number *)

Definition pow10 (k : Z) : Q :=
  if 0 <=? k then inject_Z (10 ^ k) else (1 # Z.to_pos (10 ^ (- k)))%Q.

Definition Qltb (a b : Q) : bool := negb (Qle_bool b a).

Fixpoint ilog_down (fuel : nat) (n : Z) (v : Q) : Z :=
  match fuel with
  | O => n
  | S f => if Qltb v (pow10 (n - 1)) then ilog_down f (n - 1) v else n
  end.

Fixpoint ilog_up (fuel : nat) (n : Z) (v : Q) : Z :=
  match fuel with
  | O => n
  | S f => if Qle_bool (pow10 n) v then ilog_up f (n + 1) v else n
  end.

(** For [v > 0], the [n] with [10^(n-1) <= v < 10^n]: a first guess from
    the binary logarithms of numerator and denominator, then corrected. *)
Definition magnitude (v : Q) : Z :=
  let guess := (Z.log2 (Qnum v) - Z.log2 (Zpos (Qden v))) * 30103 / 100000 in
  ilog_up 8 (ilog_down 8 (guess + 1) v) v.

Fixpoint strip_zeros_rev (s : list ascii) : list ascii :=
  match s with
  | "0"%char :: r => strip_zeros_rev r
  | _ => s
  end.

Definition strip_trailing_zeros (s : string) : string :=
  string_of_list_ascii
    (rev (strip_zeros_rev (rev (list_ascii_of_string s)))).

(** The shortest digit string that reads back as [x] (exact value
    [v > 0]), with its decimal exponent: [x] is the float nearest to
    [s * 10^e10]; of two candidates of one length the one nearer to [v],
    the even one on a tie. *)
Fixpoint shortest_go (fuel : nat) (k : Z) (x : float) (v : Q) (n0 : Z)
  : Z * Z :=
  let e10 := n0 - k in
  let t := (v / pow10 e10)%Q in
  let lo := Qfloor t in
  let hi := lo + 1 in
  let reads c := PrimFloat.eqb (of_Q (inject_Z c * pow10 e10)%Q) x in
  match fuel with
  | O => (lo, e10)
  | S f =>
      match reads lo, reads hi with
      | true, true =>
          match (t - inject_Z lo ?= inject_Z hi - t)%Q with
          | Lt => (lo, e10)
          | Gt => (hi, e10)
          | Eq => (if Z.even lo then lo else hi, e10)
          end
      | true, false => (lo, e10)
      | false, true => (hi, e10)
      | false, false => shortest_go f (k + 1) x v n0
      end
  end.

(** Number::toString for the digits [ds] (no trailing zero) of a value
    [0.ds * 10^n]. *)
Definition layout_digits (ds : string) (n : Z) : string :=
  let k := Js.strlen ds in
  if (k <=? n) && (n <=? 21) then
    ds ++ Js.repeat_char "0" (Z.to_nat (n - k))
  else if (0 <? n) && (n <=? 21) then
    Js.substring 0 n ds ++ "." ++ Js.substring_from n ds
  else if (-6 <? n) && (n <=? 0) then
    "0." ++ Js.repeat_char "0" (Z.to_nat (- n)) ++ ds
  else
    let e := n - 1 in
    let mant :=
      if k =? 1 then ds
      else Js.substring 0 1 ds ++ "." ++ Js.substring_from 1 ds in
    mant ++ "e" ++ (if e <? 0 then "-" else "+") ++ Js.digits (Z.abs e).

(** [String(x)], [x.toString()]. *)
Definition toString (x : float) : string :=
  match to_Q x with
  | None =>
      if isNaN x then "NaN"
      else if PrimFloat.ltb x 0 then "-Infinity" else "Infinity"
  | Some v =>
      if Qeq_bool v 0 then "0"
      else
        let a := Qabs v in
        let '(s, e10) := shortest_go 17 1 (PrimFloat.abs x) a (magnitude a) in
        let ds := Js.digits s in
        let body := layout_digits (strip_trailing_zeros ds)
                                  (Js.strlen ds + e10) in
        if Qltb v 0 then "-" ++ body else body
  end.

(** Digits [m] with a decimal point before the last [f] of them. *)
Definition point_before_last (f : Z) (m : string) : string :=
  if f =? 0 then m
  else
    let m := Js.padStart0 (Z.to_nat (f + 1)) m in
    let k := Js.strlen m - f in
    Js.substring 0 k m ++ "." ++ Js.substring_from k m.

(** [x.toFixed(f)]: the integer [n] with [n / 10^f] nearest to the exact
    value of [x], the larger on a tie. *)
Definition toFixed (x : float) (f : Z) : outcome string :=
  if (f <? 0) || (100 <? f) then
    Throws "RangeError: toFixed() digits argument must be between 0 and 100"
  else
    match to_Q x with
    | None => Returns (toString x)
    | Some v =>
        let a := Qabs v in
        if Qle_bool (pow10 21) a then Returns (toString x)
        else
          let n := Qfloor (a * pow10 f + (1 # 2))%Q in
          let m := point_before_last f (Js.digits n) in
          Returns (if Qltb v 0 then "-" ++ m else m)
    end.

(** [x.toPrecision(p)] for [1 <= p <= 100]. *)
Definition toPrecision (x : float) (p : Z) : string :=
  match to_Q x with
  | None => toString x
  | Some v =>
      if Qeq_bool v 0 then
        if p =? 1 then "0" else "0." ++ Js.repeat_char "0" (Z.to_nat (p - 1))
      else
        let a := Qabs v in
        let e0 := magnitude a - 1 in
        let n0 := Qfloor (a / pow10 (e0 - p + 1) + (1 # 2))%Q in
        let '(n, e) := if 10 ^ p <=? n0 then (n0 / 10, e0 + 1) else (n0, e0) in
        let m := Js.digits n in
        let body :=
          if (e <? -6) || (p <=? e) then
            (if p =? 1 then m
             else Js.substring 0 1 m ++ "." ++ Js.substring_from 1 m)
            ++ "e" ++ (if e <? 0 then "-" else "+") ++ Js.digits (Z.abs e)
          else if e =? p - 1 then m
          else if 0 <=? e then
            Js.substring 0 (e + 1) m ++ "." ++ Js.substring_from (e + 1) m
          else "0." ++ Js.repeat_char "0" (Z.to_nat (- (e + 1))) ++ m in
        if Qltb v 0 then "-" ++ body else body
  end.

(** *** Reading a Number from text *)

Fixpoint take_digits (s : string) : string * string :=
  match s with
  | String c r =>
      if Js.is_digit c then
        let '(d, rest) := take_digits r in (String c d, rest)
      else ("", s)
  | EmptyString => ("", "")
  end.

(** The value of a digit string, 0 for the empty one. *)
Definition digits_value (d : string) : Z :=
  default 0 (Js.digits_prefix 10 d None).

(** The exponent part [e], [e+] or [e-] followed by digits, if the text
    starts with one. *)
Definition exponent_part (s : string) : Z :=
  match s with
  | String c r =>
      if Ascii.eqb c "e" || Ascii.eqb c "E" then
        match r with
        | String "-" r' =>
            match take_digits r' with
            | ("", _) => 0
            | (d, _) => - digits_value d
            end
        | String "+" r' => digits_value (fst (take_digits r'))
        | _ => digits_value (fst (take_digits r))
        end
      else 0
  | EmptyString => 0
  end.

Definition starts_with (p s : string) : bool :=
  String.eqb (String.substring 0 (String.length p) s) p.

(** [parseFloat(s)]: leading white space, a sign, then [Infinity] or the
    longest decimal literal; NaN when there is none. *)
Definition parseFloat (s : string) : float :=
  let '(neg, s) := Js.strip_sign (Js.trim_start s) in
  let sign (x : float) := if neg then PrimFloat.opp x else x in
  if starts_with "Infinity" s then sign PrimFloat.infinity
  else
    let '(ip, r1) := take_digits s in
    let '(fp, r2) :=
      match r1 with
      | String "." r => take_digits r
      | _ => ("", r1)
      end in
    if String.eqb ip "" && String.eqb fp "" then PrimFloat.nan
    else
      let e := exponent_part r2 - Js.strlen fp in
      sign (of_Q (inject_Z (digits_value (ip ++ fp)) * pow10 e)%Q).

(** [parseFloat(a)] of an attribute that may be absent. *)
Definition parseFloat_attr (a : option string) : float :=
  match a with
  | Some s => parseFloat s
  | None => PrimFloat.nan
  end.

End Num.

(** ** Column width in pixels ([calcColumnWidthPx])

    The function only adds, multiplies, divides, floors and compares.
    It is written over an arithmetic [Arith num] and read at the
    script's own binary64 arithmetic ([float_arith]). *)

Module ColumnWidth.

Class Arith (num : Type) : Type := {
  lit : Z -> num;                      (* an integer literal of the source *)
  add : num -> num -> num;
  mul : num -> num -> num;
  div : num -> num -> num;
  floor : num -> num;                  (* Math.floor *)
  leb : num -> num -> bool;            (* <=, false when an operand is NaN *)
  isFinite : num -> bool;              (* Number.isFinite *)
  truthy : num -> bool                 (* neither 0 nor NaN *)
}.

Declare Scope num_scope.
Delimit Scope num_scope with num.
#[local] Infix "+" := add : num_scope.
#[local] Infix "*" := mul : num_scope.
#[local] Infix "/" := div : num_scope.
#[local] Infix "<=?" := leb : num_scope.

Section Generic.
Context {num : Type} `{Arith num}.

(** [currentMDW || 7]. *)
Definition effective_mdw (currentMDW : num) : num :=
  if truthy currentMDW then currentMDW else lit 7.

(** [calcColumnWidthPx(excelWidth)], reading the module variable
    [currentMDW]. *)
Definition calcColumnWidthPx (currentMDW excelWidth : num) : num :=
  let w := excelWidth in
  if negb (isFinite w) then lit 64
  else
    let mdw := effective_mdw currentMDW in
    if (w <=? lit 0)%num then lit 0
    else
      let pixels :=
        (floor (((lit 256 * w + floor (lit 128 / mdw)) / lit 256) * mdw)
         + lit 5)%num in
      pixels.

(** The conversion as the specification words it:
    [floor(((256*w + floor(128/mdw))/256)*mdw) + 5], and 0 for
    [w <= 0]. *)
Definition spec_width_px (mdw w : num) : num :=
  if (w <=? lit 0)%num then lit 0
  else (floor (((lit 256 * w + floor (lit 128 / mdw)) / lit 256) * mdw)
        + lit 5)%num.

Definition le (a b : num) : Prop := (a <=? b)%num = true.
Definition nonneg (a : num) : Prop := le (lit 0) a.
(** Finite and greater than zero. *)
Definition positive (a : num) : Prop :=
  isFinite a = true /\ (a <=? lit 0)%num = false.
(** Two numbers in order, the smaller one not negative. *)
Definition ordered (a b : num) : Prop := nonneg a /\ le a b.
End Generic.

(** The script's arithmetic. *)
#[global] Instance float_arith : Arith float := {|
  lit := Num.of_Z;
  add := PrimFloat.add;
  mul := PrimFloat.mul;
  div := PrimFloat.div;
  floor := Num.floor;
  leb := PrimFloat.leb;
  isFinite := Num.isFinite;
  truthy := Num.truthy
|}.

End ColumnWidth.

(** ** Correctly rounded binary64 results *)

Module Rounding.

(** The scale of the fractions below: a fraction [n / b] stands for
    the number [n / b * 2^(-4096)], fine enough for every product, sum
    and quotient of two binary64 values. *)
Definition scale : Z := 4096.

(** The place of [n / b] between two integers: exact, or below, at or
    above the middle. *)
Definition locf (n b : Z) : location :=
  if n mod b =? 0 then loc_Exact
  else loc_Inexact (2 * (n mod b) ?= b).

(** The four places in their order. *)
Definition place (l : location) : Z :=
  match l with
  | loc_Exact => 0
  | loc_Inexact Lt => 1
  | loc_Inexact Eq => 2
  | loc_Inexact Gt => 3
  end.

(** The integer part of [n / b] with its place, as the record that the
    shifts of [SpecFloat] work on. *)
Definition recf (n b : Z) : shr_record :=
  shr_record_of_loc (n / b) (locf n b).

(** A mantissa and an exponent as a value: zero, a finite number or,
    above the largest exponent, infinity. *)
Definition pack (m e : Z) : spec_float :=
  match m with
  | Z0 => S754_zero false
  | Zpos p =>
      if e <=? emax - prec then S754_finite false p e
      else S754_infinity false
  | Zneg _ => S754_nan
  end.

(** Rounding a truncated mantissa to nearest, ties to even, and
    renormalising when it reaches [2^prec]. *)
Definition finish (m e : Z) (l : location) : spec_float :=
  let m' := round_nearest_even m l in
  if m' =? 2 ^ prec then pack (2 ^ (prec - 1)) (e + 1) else pack m' e.

(** The exponent of the binary64 value nearest to [n / b * 2^(-scale)]
    and the number of bits to drop for it. *)
Definition expOf (n b : Z) : Z :=
  fexp prec emax (Zdigits2 (n / b) - scale).

(** The binary64 value nearest to [n / b * 2^(-scale)], ties to even. *)
Definition nearest (n b : Z) : spec_float :=
  binary_round_aux prec emax false (n / b) (- scale) (locf n b).

(** The value of a finite binary64 number in units of [2^(-1074)]. *)
Definition units (m : positive) (e : Z) : Z := Zpos m * 2 ^ (e + 1074).

(** Zero of either sign, a positive number or positive infinity. *)
Definition nonnegative (x : spec_float) : bool :=
  match x with
  | S754_zero _ | S754_finite false _ _ | S754_infinity false => true
  | _ => false
  end.

(** [Math.floor] of such a value. *)
Definition SFfloor (x : spec_float) : spec_float :=
  match x with
  | S754_finite false m e => nearest (units m e / 2 ^ 1074 * 2 ^ scale) 1
  | _ => x
  end.

End Rounding.

(** ** What the browser supplies *)

(** The font a canvas measurement is made in: [getFontSpec] builds its
    CSS font string from exactly these four values. *)
Record fontKey : Type := {
  fk_name : string;
  fk_bold : bool;
  fk_italic : bool;
  fk_sizePt : float
}.

Record Host : Type := {
  (** [ctx.font = getFontSpec(..); ctx.measureText(text).width] *)
  canvasWidth : fontKey -> string -> float;
  (** offset of local time from UTC, in milliseconds, at a UTC instant *)
  localOffsetMs : Z -> Z;
  (** whether the CSS parser accepts a value assigned to a border
      property of [td.style]; a rejected assignment changes nothing *)
  cssAccepts : string -> bool
}.

(** ** Style tables ([parseStyles]) *)

Module Style.

(** A colour reference as [parseColor] builds it. *)
Inductive colorObj : Type :=
  | Argb (argb : string)
  | Theme (theme : option Z) (tint : float)
  | Indexed (indexed : option Z).

Record font : Type := {
  f_name : option string;
  f_size : option float;
  f_bold : bool;
  f_italic : bool;
  f_underline : bool;
  f_strike : bool;
  f_color : option colorObj
}.

Record fill : Type := {
  fill_pattern : option string;   (* [None]: no patternFill element *)
  fill_fgColor : option colorObj;
  fill_bgColor : option colorObj
}.

Record borderSide : Type := {
  bs_style : string;
  bs_color : option colorObj
}.

Record border : Type := {
  b_left : option borderSide;
  b_right : option borderSide;
  b_top : option borderSide;
  b_bottom : option borderSide
}.

Record alignment : Type := {
  horizontal : option string;
  vertical : option string;
  wrapText : bool;
  shrinkToFit : bool;
  textRotation : Z;
  indent : Z
}.

(** An entry of [cellXfs].  [xfId] is [None] when the attribute is
    absent and [Some None] when it does not parse. *)
Record cellXf : Type := {
  fontId : Z;
  fillId : Z;
  borderId : Z;
  numFmtId : Z;
  xfId : option (option Z);
  applyAlignment : option string;
  xf_alignment : option alignment
}.

(** An entry of [baseCellXfs]: only the alignment is read. *)
Record baseXf : Type := { base_alignment : option alignment }.

(** The [alignment] and [xf] elements of the styles part, attributes as
    [getAttribute] returns them. *)
Record alignmentElem : Type := {
  ae_horizontal : option string;
  ae_vertical : option string;
  ae_wrapText : option string;
  ae_shrinkToFit : option string;
  ae_textRotation : option string;
  ae_indent : option string
}.

Record xfElem : Type := {
  xe_fontId : option string;
  xe_fillId : option string;
  xe_borderId : option string;
  xe_numFmtId : option string;
  xe_xfId : option string;
  xe_applyAlignment : option string;
  xe_alignment : option alignmentElem    (* [xf.querySelector('alignment')] *)
}.

(** [a === 'true' || a === '1']. *)
Definition attr_flag (a : option string) : bool :=
  match a with
  | Some s => String.eqb s "true" || String.eqb s "1"
  | None => false
  end.

Definition parseAlignment (e : alignmentElem) : alignment := {|
  horizontal := ae_horizontal e;
  vertical := ae_vertical e;
  wrapText := attr_flag (ae_wrapText e);
  shrinkToFit := attr_flag (ae_shrinkToFit e);
  textRotation := Js.or_zero (Js.parseInt_attr (ae_textRotation e));
  indent := Js.or_zero (Js.parseInt_attr (ae_indent e))
|}.

(** The loop over [cellStyleXfs > xf]. *)
Definition parseBaseXf (e : xfElem) : baseXf :=
  {| base_alignment := parseAlignment <$> xe_alignment e |}.

(** The loop over [cellXfs > xf], before the inheritance pass. *)
Definition parseCellXf (e : xfElem) : cellXf := {|
  fontId := Js.or_zero (Js.parseInt_attr (xe_fontId e));
  fillId := Js.or_zero (Js.parseInt_attr (xe_fillId e));
  borderId := Js.or_zero (Js.parseInt_attr (xe_borderId e));
  numFmtId := Js.or_zero (Js.parseInt_attr (xe_numFmtId e));
  xfId := Js.parseInt <$> xe_xfId e;
  applyAlignment := xe_applyAlignment e;
  xf_alignment := parseAlignment <$> xe_alignment e
|}.

Definition set_alignment (a : option alignment) (s : cellXf) : cellXf := {|
  fontId := fontId s;
  fillId := fillId s;
  borderId := borderId s;
  numFmtId := numFmtId s;
  xfId := xfId s;
  applyAlignment := applyAlignment s;
  xf_alignment := a
|}.

(** The body of the final [cellXfs.forEach]: alignment switched off by
    [applyAlignment = "0"], else taken from the base style when the
    format has none of its own. *)
Definition inheritAlignment (baseCellXfs : list baseXf) (style : cellXf)
  : cellXf :=
  if bool_decide (applyAlignment style = Some "0") then
    set_alignment None style
  else
    match xf_alignment style, xfId style with
    | None, Some id =>
        match Js.arr_get baseCellXfs id with
        | Some base => set_alignment (base_alignment base) style
        | None => style
        end
    | _, _ => style
    end.

(** The [cellXfs] table that [parseStyles] leaves behind. *)
Definition parseCellXfs (baseElems cellElems : list xfElem) : list cellXf :=
  let baseCellXfs := parseBaseXf <$> baseElems in
  inheritAlignment baseCellXfs <$> (parseCellXf <$> cellElems).

(** The tables the resolvers read. *)
Record tables : Type := {
  themeColors : gmap Z (option string);
  fonts : list font;
  fills : list fill;
  borders : list border;
  cellXfs : list cellXf;
  sharedStrings : list string;
  numFmts : gmap string string
}.

End Style.

(** ** Colour resolution ([resolveColor], [applyTint]) *)

Module Color.
Import Style.

Definition DEFAULT_THEME : gmap Z string :=
  list_to_map
    [ (0, "FFFFFF"); (1, "000000"); (2, "E7E6E6"); (3, "44546A");
      (4, "4472C4"); (5, "ED7D31"); (6, "A5A5A5"); (7, "FFC000");
      (8, "5B9BD5"); (9, "70AD47"); (10, "0563C1"); (11, "954F72") ].

(** The legacy indexed palette of [resolveColor]. *)
Definition indexedColors : list string :=
  [ "#000000"; "#FFFFFF"; "#FF0000"; "#00FF00"; "#0000FF"; "#FFFF00"; "#FF00FF"; "#00FFFF";
    "#000000"; "#FFFFFF"; "#FF0000"; "#00FF00"; "#0000FF"; "#FFFF00"; "#FF00FF"; "#00FFFF";
    "#800000"; "#008000"; "#000080"; "#808000"; "#800080"; "#008080"; "#C0C0C0"; "#808080";
    "#9999FF"; "#993366"; "#FFFFCC"; "#CCFFFF"; "#660066"; "#FF8080"; "#0066CC"; "#CCCCFF";
    "#000080"; "#FF00FF"; "#FFFF00"; "#00FFFF"; "#800080"; "#800000"; "#008080"; "#0000FF";
    "#00CCFF"; "#CCFFFF"; "#CCFFCC"; "#FFFF99"; "#99CCFF"; "#FF99CC"; "#CC99FF"; "#FFCC99";
    "#3366FF"; "#33CCCC"; "#99CC00"; "#FFCC00"; "#FF9900"; "#FF6600"; "#666699"; "#969696";
    "#003366"; "#339966"; "#003300"; "#333300"; "#993300"; "#993366"; "#333399"; "#333333" ].

(** [hexColor.replace('#', '')]: the first ['#'] removed. *)
Fixpoint remove_first_hash (s : string) : string :=
  match s with
  | EmptyString => ""
  | String c r => if Ascii.eqb c "#" then r else String c (remove_first_hash r)
  end.

(** A [parseInt] result used in arithmetic. *)
Definition number_of (n : option Z) : float :=
  match n with
  | Some z => Num.of_Z z
  | None => PrimFloat.nan
  end.

Definition hex_digit_char (d : Z) : ascii :=
  if d <? 10 then Js.digit_char d else ascii_of_nat (Z.to_nat (87 + d)).

Fixpoint hex_go (fuel : nat) (n : Z) (acc : string) : string :=
  match fuel with
  | O => acc
  | S f =>
      let acc' := String (hex_digit_char (n mod 16)) acc in
      if n <? 16 then acc' else hex_go f (n / 16) acc'
  end.

(** [x.toString(16)] for the result of [Math.round]. *)
Definition toString16 (x : float) : string :=
  match Num.to_Q x with
  | None => Num.toString x
  | Some v =>
      let n := Qfloor v in
      let body := hex_go (S (Z.to_nat (Z.log2 (Z.abs n)))) (Z.abs n) "" in
      if n <? 0 then "-" ++ body else body
  end.

(** [toHex] of [applyTint]. *)
Definition toHex (n : float) : string :=
  Js.padStart0 2 (toString16 (Num.round (n * 255)%float)).

Definition hue2rgb (p q t : float) : float :=
  let t := if (t <? 0)%float then (t + 1)%float else t in
  let t := if (1 <? t)%float then (t - 1)%float else t in
  if (t <? 1 / 6)%float then (p + (q - p) * 6 * t)%float
  else if (t <? 1 / 2)%float then q
  else if (t <? 2 / 3)%float then (p + (q - p) * (2 / 3 - t) * 6)%float
  else p.

(** [applyTint(hexColor, tint)]: to HSL, the lightness moved by the
    tint and clamped to [0,1], and back. *)
Definition applyTint (hexColor : string) (tint : float) : string :=
  let hex := remove_first_hash hexColor in
  let r := number_of (Js.parseInt_radix 16 (Js.substring 0 2 hex)) in
  let g := number_of (Js.parseInt_radix 16 (Js.substring 2 4 hex)) in
  let b := number_of (Js.parseInt_radix 16 (Js.substring 4 6 hex)) in
  let rn := (r / 255)%float in
  let gn := (g / 255)%float in
  let bn := (b / 255)%float in
  let max := Num.max (Num.max rn gn) bn in
  let min := Num.min (Num.min rn gn) bn in
  let l := ((max + min) / 2)%float in
  let '(h, s) :=
    if (max =? min)%float then (0%float, 0%float)
    else
      let d := (max - min)%float in
      let s := if (0.5 <? l)%float then (d / (2 - max - min))%float
               else (d / (max + min))%float in
      let h :=
        if (max =? rn)%float then
          (((gn - bn) / d + (if (gn <? bn)%float then 6 else 0)) / 6)%float
        else if (max =? gn)%float then (((bn - rn) / d + 2) / 6)%float
        else if (max =? bn)%float then (((rn - gn) / d + 4) / 6)%float
        else PrimFloat.nan in
      (h, s) in
  let l := if (tint <? 0)%float then (l * (1 + tint))%float
           else (l * (1 - tint) + tint)%float in
  let l := Num.max 0 (Num.min 1 l) in
  let '(r2, g2, b2) :=
    if (s =? 0)%float then (l, l, l)
    else
      let q := if (l <? 0.5)%float then (l * (1 + s))%float
               else (l + s - l * s)%float in
      let p := (2 * l - q)%float in
      (hue2rgb p q (h + 1 / 3)%float,
       hue2rgb p q h,
       hue2rgb p q (h - 1 / 3)%float) in
  "#" ++ toHex r2 ++ toHex g2 ++ toHex b2.

(** A string in a condition: [null] and the empty string are falsy. *)
Definition truthy_string (s : option string) : option string :=
  match s with
  | Some "" => None
  | _ => s
  end.

(** [themeColors[i] || DEFAULT_THEME[i]]. *)
Definition themeBase (themeColors : gmap Z (option string)) (i : option Z)
  : option string :=
  match i with
  | None => None
  | Some i =>
      match truthy_string (mjoin (themeColors !! i)) with
      | Some c => Some c
      | None => DEFAULT_THEME !! i
      end
  end.

(** [resolveColor(colorObj)]; [None] is [null]. *)
Definition resolveColor (themeColors : gmap Z (option string))
    (colorObj : option colorObj) : option string :=
  match colorObj with
  | None => None
  | Some (Argb argb) =>
      if String.eqb argb "" then None
      else if Js.strlen argb =? 8 then Some ("#" ++ Js.substring_from 2 argb)
      else Some ("#" ++ argb)
  | Some (Theme theme tint) =>
      match themeBase themeColors theme with
      | Some baseColor =>
          let color := "#" ++ baseColor in
          if Num.truthy tint && negb (tint =? 0)%float
          then Some (applyTint color tint)
          else Some color
      | None => None
      end
  | Some (Indexed indexed) => Js.arr_get indexedColors indexed
  end.

End Color.

(** ** Number formatting ([formatNumber]) *)

Module Format.

(** The [builtIn] table of [formatNumber]. *)
Definition builtIn : gmap Z string :=
  list_to_map
    [ (0, "General"); (1, "0"); (2, "0.00"); (3, "#,##0"); (4, "#,##0.00");
      (9, "0%"); (10, "0.00%"); (14, "yyyy/m/d"); (22, "yyyy/m/d h:mm") ].

(** The property name a format id selects in [numFmts]: the decimal text
    of the number, ["null"] for the [null] that [getCellDisplayText]
    passes when the cell has no style. *)
Definition fmtKey (fmtId : option Z) : string :=
  match fmtId with
  | Some z => Js.int_to_string z
  | None => "null"
  end.

(** [numFmts[fmtId] || builtIn[fmtId] || 'General']. *)
Definition formatCode (numFmts : gmap string string) (fmtId : option Z)
  : string :=
  match Color.truthy_string (numFmts !! fmtKey fmtId) with
  | Some code => code
  | None =>
      match fmtId ≫= (fun z => builtIn !! z) with
      | Some code => code
      | None => "General"
      end
  end.

(** [/[ymd]/i.test(fmt)]. *)
Fixpoint has_ymd (fmt : string) : bool :=
  match fmt with
  | EmptyString => false
  | String c r =>
      if Js.includes_char c "ymdYMD" then true else has_ymd r
  end.

(** The length of the run of ['0'] that starts a string. *)
Fixpoint zero_run (s : string) : Z :=
  match s with
  | String "0" r => 1 + zero_run r
  | _ => 0
  end.

(** [fmt.match(/\.0+/)]: the length of the first match, a ['.'] and the
    zeros after it; [None] when no ['.'] is followed by a ['0']. *)
Fixpoint dot_zeros (fmt : string) : option Z :=
  match fmt with
  | EmptyString => None
  | String c r =>
      if Ascii.eqb c "." && (0 <? zero_run r) then Some (1 + zero_run r)
      else dot_zeros r
  end.

(** *** Dates *)

(** The integral part of a finite float, towards zero. *)
Definition truncate (x : float) : option Z :=
  match Num.to_Q x with
  | Some v => Some (if Num.Qltb v 0 then - Qfloor (- v) else Qfloor v)
  | None => None
  end.

(** The time value of [new Date(t)]: [None] is an Invalid Date, which
    is what [t] is when it is not finite or beyond 8.64e15 ms. *)
Definition timeClip (t : float) : option Z :=
  match truncate t with
  | Some ms => if 8640000000000000 <? Z.abs ms then None else Some ms
  | None => None
  end.

(** Year, month and day of a day number counted from 1970-01-01 in the
    proleptic Gregorian calendar. *)
Definition civil_from_days (z : Z) : Z * Z * Z :=
  let z := z + 719468 in
  let era := z / 146097 in
  let doe := z - era * 146097 in
  let yoe := (doe - doe / 1460 + doe / 36524 - doe / 146096) / 365 in
  let doy := doe - (365 * yoe + yoe / 4 - yoe / 100) in
  let mp := (5 * doy + 2) / 153 in
  let d := doy - (153 * mp + 2) / 5 + 1 in
  let m := if mp <? 10 then mp + 3 else mp - 9 in
  let y := yoe + era * 400 + (if m <=? 2 then 1 else 0) in
  (y, m, d).

(** The local calendar date of a time value. *)
Definition localDate (host : Host) (ms : Z) : Z * Z * Z :=
  civil_from_days ((ms + localOffsetMs host ms) / 86400000).

(** [date.toLocaleDateString('zh-CN')]: year/month/day of the local
    date, not padded. *)
Definition toLocaleDateString (host : Host) (ms : Z) : string :=
  let '(y, m, d) := localDate host ms in
  Js.int_to_string y ++ "/" ++ Js.int_to_string m ++ "/" ++ Js.int_to_string d.

(** *** Grouped decimals *)

Fixpoint group_rev (ds : list ascii) (n : nat) : list ascii :=
  match ds with
  | [] => []
  | c :: r =>
      match n with
      | O => ","%char :: c :: group_rev r 2
      | S k => c :: group_rev r k
      end
  end.

(** A comma before every group of three digits, counted from the right. *)
Definition group3 (ds : string) : string :=
  string_of_list_ascii (rev (group_rev (rev (list_ascii_of_string ds)) 3)).

(** [x.toLocaleString('zh-CN', { minimumFractionDigits: d,
    maximumFractionDigits: d })] after ECMA-402: the exact value rounded
    to [d] decimals, a tie away from zero, digits grouped by three. *)
Definition toLocaleString (x : float) (d : Z) : outcome string :=
  if (d <? 0) || (100 <? d) then
    Throws "RangeError: maximumFractionDigits value is out of range"
  else
    match Num.to_Q x with
    | None =>
        Returns (if Num.isNaN x then "NaN"
                 else if (x <? 0)%float then "-∞" else "∞")
    | Some v =>
        let n := Qfloor (Qabs v * Num.pow10 d + (1 # 2))%Q in
        let m := Js.padStart0 (Z.to_nat (d + 1)) (Js.digits n) in
        let k := Js.strlen m - d in
        let body :=
          group3 (Js.substring 0 k m)
          ++ (if d =? 0 then "" else "." ++ Js.substring_from k m) in
        Returns (if Num.Qltb v 0 || Num.is_neg_zero x
                 then "-" ++ body else body)
    end.

(** *** The rules, in the order of the source.  A rule that does not
    return leaves [None], and the next one is tried. *)

Definition append_percent (r : outcome string) : outcome string :=
  match r with
  | Returns s => Returns (s ++ "%")
  | Throws e => Throws e
  end.

(** [if (/[ymd]/i.test(fmt) && value > 0) { const date = ...;
    if (!isNaN(date)) return date.toLocaleDateString('zh-CN'); }] *)
Definition dateRule (host : Host) (fmt : string) (value : float)
  : option (outcome string) :=
  if has_ymd fmt && (0 <? value)%float then
    match timeClip ((value - 25569) * 86400 * 1000)%float with
    | Some ms => Some (Returns (toLocaleDateString host ms))
    | None => None
    end
  else None.

Definition percentRule (fmt : string) (value : float)
  : option (outcome string) :=
  if Js.includes_char "%" fmt then
    let dec := Js.count_char "0" fmt - 1 in
    Some (append_percent (Num.toFixed (value * 100)%float (Z.max 0 dec)))
  else None.

Definition thousandsRule (fmt : string) (value : float)
  : option (outcome string) :=
  if Js.includes_char "," fmt then
    let dec := default 0 (dot_zeros fmt) - 1 in
    Some (toLocaleString value (Z.max 0 dec))
  else None.

Definition fixedRule (fmt : string) (value : float)
  : option (outcome string) :=
  match dot_zeros fmt with
  | Some len => Some (Num.toFixed value (len - 1))
  | None => None
  end.

Definition generalRule (value : float) : outcome string :=
  if Num.isInteger value then Returns (Num.toString value)
  else Returns (Num.toString (Num.parseFloat (Num.toPrecision value 10))).

Definition formatWith (host : Host) (fmt : string) (value : float)
  : outcome string :=
  match dateRule host fmt value with
  | Some r => r
  | None =>
  match percentRule fmt value with
  | Some r => r
  | None =>
  match thousandsRule fmt value with
  | Some r => r
  | None =>
  match fixedRule fmt value with
  | Some r => r
  | None => generalRule value
  end end end end.

(** The ladder as the specification words it: which rule renders a
    value under a format code.  The date rule is taken when the code
    holds one of y, m, d, the value is positive and its serial number
    converts to a valid date. *)
Inductive rule : Type :=
  | DateRule | PercentRule | ThousandsRule | FixedRule | GeneralRule.

(** The time value of the serial [value] in the 1900 date system, as
    the script computes it. *)
Definition serialTime (value : float) : option Z :=
  timeClip ((value - 25569) * 86400 * 1000)%float.

Definition selectedRule (fmt : string) (value : float) : rule :=
  if has_ymd fmt && (0 <? value)%float && bool_decide (is_Some (serialTime value))
  then DateRule
  else if Js.includes_char "%" fmt then PercentRule
  else if Js.includes_char "," fmt then ThousandsRule
  else if bool_decide (is_Some (dot_zeros fmt)) then FixedRule
  else GeneralRule.

(** The ladder without the validity guard of the date rule: what a
    reading of the rule as "code holds y, m or d and the value is
    positive" selects. *)
Definition unguardedRule (fmt : string) (value : float) : rule :=
  if has_ymd fmt && (0 <? value)%float then DateRule
  else if Js.includes_char "%" fmt then PercentRule
  else if Js.includes_char "," fmt then ThousandsRule
  else if bool_decide (is_Some (dot_zeros fmt)) then FixedRule
  else GeneralRule.

(** What each rule renders. *)
Definition render (host : Host) (fmt : string) (value : float) (r : rule)
  : outcome string :=
  match r with
  | DateRule =>
      match serialTime value with
      | Some ms => Returns (toLocaleDateString host ms)
      | None => Returns "Invalid Date"
      end
  | PercentRule =>
      append_percent
        (Num.toFixed (value * 100)%float
           (Z.max 0 (Js.count_char "0" fmt - 1)))
  | ThousandsRule =>
      toLocaleString value (Z.max 0 (default 0 (dot_zeros fmt) - 1))
  | FixedRule => Num.toFixed value (default 0 (dot_zeros fmt) - 1)
  | GeneralRule => generalRule value
  end.

(** [formatNumber(value, fmtId)]. *)
Definition formatNumber (host : Host) (numFmts : gmap string string)
    (value : float) (fmtId : option Z) : outcome string :=
  formatWith host (formatCode numFmts fmtId) value.

End Format.

(** ** The worksheet part and its layout ([renderSheet] and helpers) *)

Module Sheet.
Import Style.

(** *** The elements of the worksheet document that the script reads *)

(** A node below an inline-string [is] element. *)
Inductive node : Type :=
  | TextNode (text : string)
  | Element (localName : string) (childNodes : list node).

Record cellElem : Type := {
  c_r : option string;            (* the reference, "B7" *)
  c_t : option string;            (* the type tag *)
  c_s : option string;            (* the style index *)
  c_v : option string;            (* text of the [v] child, if any *)
  c_is : option (list node)       (* children of the [is] child, if any *)
}.

Record rowElem : Type := {
  row_r : option string;
  row_s : option string;
  row_ht : option string;
  row_customHeight : option string;
  row_cells : list cellElem       (* [rowElem.querySelectorAll('c')] *)
}.

Record colElem : Type := {
  col_min : option string;
  col_max : option string;
  col_width : option string;
  col_style : option string;
  col_s : option string
}.

Record paneElem : Type := {
  pane_state : option string;
  pane_ySplit : option string;
  pane_xSplit : option string
}.

Record sheetDoc : Type := {
  doc_pane : option paneElem;     (* [doc.querySelector('sheetView pane')] *)
  doc_cols : list colElem;        (* [doc.querySelectorAll('col')] *)
  doc_merges : list (option string);  (* [ref] of each [mergeCell] *)
  doc_rows : list rowElem         (* [doc.querySelectorAll('row')] *)
}.

(** *** Freeze panes ([parseFreezePanes]) *)

Record freezeInfo : Type := {
  frozenRows : Z;
  frozenCols : Z;
  isFrozen : bool
}.

(** [if (a) n = parseInt(a) || 0], starting from 0. *)
Definition splitCount (a : option string) : Z :=
  match Color.truthy_string a with
  | Some s => Js.or_zero (Js.parseInt s)
  | None => 0
  end.

Definition parseFreezePanes (doc : sheetDoc) : freezeInfo :=
  let result := {| frozenRows := 0; frozenCols := 0; isFrozen := false |} in
  match doc_pane doc with
  | None => result
  | Some pane =>
      if negb (bool_decide (pane_state pane = Some "frozen"))
         && negb (bool_decide (pane_state pane = Some "frozenSplit"))
      then result
      else {| frozenRows := splitCount (pane_ySplit pane);
              frozenCols := splitCount (pane_xSplit pane);
              isFrozen := true |}
  end.

(** A pane whose state declares it frozen. *)
Definition frozenState (pane : paneElem) : Prop :=
  pane_state pane = Some "frozen" \/ pane_state pane = Some "frozenSplit".

(** *** Cell references ([cellRef]) *)

Definition is_upper (ch : ascii) : bool :=
  (65 <=? Js.ascii_code ch) && (Js.ascii_code ch <=? 90).

(** The loop of [cellRef]: capitals feed the column, every other
    character is appended to the row text. *)
Fixpoint cellRef_go (ref : string) (col : Z) (row : string) : Z * string :=
  match ref with
  | EmptyString => (col, row)
  | String ch rest =>
      if is_upper ch
      then cellRef_go rest (col * 26 + (Js.ascii_code ch - 64)) row
      else cellRef_go rest col (row ++ String ch "")
  end.

(** [cellRef(ref)] as the pair [(r, c)]. *)
Definition cellRef (ref : option string) : Z * Z :=
  match Color.truthy_string ref with
  | None => (1, 1)
  | Some ref =>
      let '(col, row) := cellRef_go ref 0 "" in
      let r := Js.or_zero (Js.parseInt row) in
      ((if r =? 0 then 1 else r), (if col =? 0 then 1 else col))
  end.

(** *** Columns: widths and styles *)

(** [for (let i = min; i <= max; i++)] over [parseInt] results: no
    iteration when a bound is NaN. *)
Definition colRange (min max : option Z) : list Z :=
  match min, max with
  | Some a, Some b => seqZ a (b - a + 1)
  | _, _ => []
  end.

(** [col.getAttribute('style') || col.getAttribute('s')], parsed. *)
Definition colStyleIndex (col : colElem) : option Z :=
  let styleAttr :=
    match Color.truthy_string (col_style col) with
    | Some s => Some s
    | None => col_s col
    end in
  styleAttr ≫= Js.parseInt.

Definition colWidth (col : colElem) : float :=
  Num.or_else (Num.parseFloat_attr (col_width col)) 8.43.

Definition addCol (acc : gmap Z float * gmap Z Z) (col : colElem)
  : gmap Z float * gmap Z Z :=
  foldl
    (fun '(colWidths, colStyles) i =>
       (<[i := colWidth col]> colWidths,
        match colStyleIndex col with
        | Some styleIndex => <[i := styleIndex]> colStyles
        | None => colStyles
        end))
    acc
    (colRange (Js.parseInt_attr (col_min col)) (Js.parseInt_attr (col_max col))).

(** [colWidths] and [colStyles] after the loop over the [col] elements. *)
Definition parseCols (cols : list colElem) : gmap Z float * gmap Z Z :=
  foldl addCol (∅, ∅) cols.

(** *** Merged ranges *)

Inductive mergeInfo : Type :=
  | Master (rowspan colspan : Z)
  | Hidden.

Record span : Type := {
  startRow : Z;
  startCol : Z;
  endRow : Z;
  endCol : Z
}.

(** The text before the first [sep] and what follows it, if [sep] occurs. *)
Fixpoint cut (sep : ascii) (s : string) : string * option string :=
  match s with
  | EmptyString => ("", None)
  | String c r =>
      if Ascii.eqb c sep then ("", Some r)
      else let '(a, b) := cut sep r in (String c a, b)
  end.

(** [const [start, end] = ref.split(':')]; [end] is [undefined] when
    the reference has no colon. *)
Definition splitRange (ref : string) : option string * option string :=
  let '(start, rest) := cut ":" ref in
  (Some start, (fun r => fst (cut ":" r)) <$> rest).

(** The cells of a range, row by row. *)
Definition rangeCells (s e : Z * Z) : list (Z * Z) :=
  r ← seqZ s.1 (e.1 - s.1 + 1);
  c ← seqZ s.2 (e.2 - s.2 + 1);
  [(r, c)].

Definition addMerge (acc : gmap (Z * Z) mergeInfo * gmap (Z * Z) span)
    (ref : option string) : gmap (Z * Z) mergeInfo * gmap (Z * Z) span :=
  match Color.truthy_string ref with
  | None => acc
  | Some ref =>
      let '(start, end_) := splitRange ref in
      let s := cellRef start in
      let e := cellRef end_ in
      let '(merges, mergeSpanMap) := acc in
      let merges := <[s := Master (e.1 - s.1 + 1) (e.2 - s.2 + 1)]> merges in
      let mergeSpanMap :=
        foldl (fun m rc =>
                 <[rc := {| startRow := s.1; startCol := s.2;
                            endRow := e.1; endCol := e.2 |}]> m)
              mergeSpanMap (rangeCells s e) in
      let merges :=
        foldl (fun m rc =>
                 if bool_decide (rc = s) then m else <[rc := Hidden]> m)
              merges (rangeCells s e) in
      (merges, mergeSpanMap)
  end.

(** [merges] and [mergeSpanMap] after the loop over [mergeCell]. *)
Definition parseMerges (refs : list (option string))
  : gmap (Z * Z) mergeInfo * gmap (Z * Z) span :=
  foldl addMerge (∅, ∅) refs.

(** A map keyed by the text [`${r},${c}`], looked up with a row number
    that may be NaN: no key is written with NaN. *)
Definition at_rc {A} (m : gmap (Z * Z) A) (r : option Z) (c : Z) : option A :=
  r ≫= (fun r => m !! (r, c)).

(** *** The grid bound and the style maps *)

(** The first loop over the rows: the largest column among all cell
    references, at least 1. *)
Definition scanMaxCol (rows : list rowElem) : Z :=
  foldl (fun maxCol row =>
           foldl (fun maxCol c =>
                    let ref := cellRef (c_r c) in
                    if maxCol <? ref.2 then ref.2 else maxCol)
                 maxCol (row_cells row))
        1 rows.

(** [maxCol = Math.min(maxCol, 100)], which is also [currentMaxCol]. *)
Definition computeMaxCol (rows : list rowElem) : Z :=
  Z.min (scanMaxCol rows) 100.

Definition rowNumOf (row : rowElem) : option Z := Js.parseInt_attr (row_r row).

Record styleMaps : Type := {
  cellStyleMap : gmap (Z * Z) Z;
  rowStyleMap : gmap (option Z) Z;
  colStyles : gmap Z Z
}.

Definition addRowStyle (rowStyleMap : gmap (option Z) Z) (row : rowElem)
  : gmap (option Z) Z :=
  match row_s row ≫= Js.parseInt with
  | Some idx => <[rowNumOf row := idx]> rowStyleMap
  | None => rowStyleMap
  end.

Definition addCellStyle (cellStyleMap : gmap (Z * Z) Z) (c : cellElem)
  : gmap (Z * Z) Z :=
  match c_s c ≫= Js.parseInt with
  | Some sIdx => <[cellRef (c_r c) := sIdx]> cellStyleMap
  | None => cellStyleMap
  end.

(** [rowStyleMap], [cellStyleMap] and [colStyles] as [renderSheet]
    builds them before it defines [resolveStyleIndex]. *)
Definition buildStyleMaps (doc : sheetDoc) : styleMaps := {|
  cellStyleMap :=
    foldl (fun m row => foldl addCellStyle m (row_cells row)) ∅ (doc_rows doc);
  rowStyleMap := foldl addRowStyle ∅ (doc_rows doc);
  colStyles := (parseCols (doc_cols doc)).2
|}.

(** What the document declares, read off its elements: the style of a
    cell, of a row and of a column is that of the last element that
    declares a style index for it. *)
Definition declaredStyle (a : option string) : option Z := a ≫= Js.parseInt.

Definition cellLevelStyle (doc : sheetDoc) (r : option Z) (c : Z) : option Z :=
  r ≫= (fun r =>
    last (omap (fun ce =>
                  if bool_decide (cellRef (c_r ce) = (r, c))
                  then declaredStyle (c_s ce) else None)
               (doc_rows doc ≫= row_cells))).

Definition rowLevelStyle (doc : sheetDoc) (r : option Z) : option Z :=
  last (omap (fun row =>
                if bool_decide (rowNumOf row = r)
                then declaredStyle (row_s row) else None)
             (doc_rows doc)).

(** A column definition covers the columns from [min] to [max]. *)
Definition covers (col : colElem) (c : Z) : bool :=
  match Js.parseInt_attr (col_min col), Js.parseInt_attr (col_max col) with
  | Some a, Some b => (a <=? c) && (c <=? b)
  | _, _ => false
  end.

Definition colLevelStyle (doc : sheetDoc) (c : Z) : option Z :=
  last (omap (fun col => if covers col c then colStyleIndex col else None)
             (doc_cols doc)).

(** [resolveStyleIndex(r, c)]; [None] is [null]. *)
Definition resolveStyleIndex (maps : styleMaps) (r : option Z) (c : Z)
  : option Z :=
  match at_rc (cellStyleMap maps) r c with
  | Some idx => Some idx
  | None =>
      match rowStyleMap maps !! r with
      | Some idx => Some idx
      | None =>
          match colStyles maps !! c with
          | Some idx => Some idx
          | None => None
          end
      end
  end.

End Sheet.

(** [outcome] is threaded with stdpp's monad notation. *)
#[global] Instance outcome_ret : MRet outcome := fun _ a => Returns a.
#[global] Instance outcome_bind : MBind outcome := fun _ _ k m =>
  match m with
  | Returns a => k a
  | Throws e => Throws e
  end.

(** ** Display text and the overflow span ([getOverflowEndCol]) *)

Module Overflow.
Import Style Sheet.

(** The module variables [renderSheet] sets for the sheet on display. *)
Record layout : Type := {
  currentMaxCol : Z;
  currentColWidths : gmap Z float;
  currentMDW : float
}.

(** [node.textContent]. *)
Fixpoint textContent (n : node) : string :=
  match n with
  | TextNode s => s
  | Element _ cs =>
      (fix all (l : list node) : string :=
         match l with
         | [] => ""
         | c :: r => textContent c ++ all r
         end) cs
  end.

(** [node.querySelector('t')] below a list of children: the first
    element named [t] in document order. *)
Fixpoint first_t (n : node) : option node :=
  match n with
  | TextNode _ => None
  | Element tag cs =>
      if String.eqb tag "t" then Some n
      else
        (fix among (l : list node) : option node :=
           match l with
           | [] => None
           | c :: r =>
               match first_t c with
               | Some t => Some t
               | None => among r
               end
           end) cs
  end.

Definition first_t_among (cs : list node) : option node :=
  head (omap first_t cs).

(** The inner loop of [extractRichText], over the children of an [r]. *)
Definition runText (rn : node) : string :=
  match rn with
  | Element "t" _ => textContent rn
  | Element "br" _ => String "010" ""
  | _ => ""
  end.

(** The outer loop of [extractRichText]. *)
Definition childText (child : node) : string :=
  match child with
  | Element "t" _ => textContent child
  | Element "r" rns => String.concat "" (runText <$> rns)
  | Element "br" _ => String "010" ""
  | _ => ""
  end.

(** [extractRichText(node)] for an element with children [cs]. *)
Definition extractRichText (cs : list node) : string :=
  let text := String.concat "" (childText <$> cs) in
  if String.eqb text "" then
    match first_t_among cs with
    | Some t => textContent t
    | None => text
    end
  else text.

(** [styleIndex != null ? cellXfs[styleIndex] : null]. *)
Definition styleAt (T : tables) (styleIndex : option Z) : option cellXf :=
  styleIndex ≫= (fun i => Js.arr_get (cellXfs T) (Some i)).

(** [!type || type === 'n']. *)
Definition is_numeric_type (t : option string) : bool :=
  match Color.truthy_string t with
  | None => true
  | Some t => String.eqb t "n"
  end.

(** The first half of [getCellDisplayText]: the text of the [v] child,
    replaced by the shared string, the inline rich text or the boolean
    word according to the type tag. *)
Definition rawText (T : tables) (cellElem : cellElem) : string :=
  let type := c_t cellElem in
  let value := default "" (c_v cellElem) in
  if bool_decide (type = Some "s") && negb (String.eqb value "") then
    default "" (Color.truthy_string
                  (Js.arr_get (sharedStrings T) (Js.parseInt value)))
  else if bool_decide (type = Some "inlineStr") then
    match c_is cellElem with
    | Some cs => extractRichText cs
    | None => value
    end
  else if bool_decide (type = Some "b") then
    if String.eqb value "1" then "TRUE" else "FALSE"
  else value.

(** [getCellDisplayText(cellElem, styleIndex)] for a cell that exists.
    It raises what [formatNumber] raises. *)
Definition getCellDisplayText (host : Host) (T : tables) (cellElem : cellElem)
    (styleIndex : option Z) : outcome string :=
  let value := rawText T cellElem in
  if is_numeric_type (c_t cellElem) && negb (String.eqb value "") then
    let numVal := Num.parseFloat value in
    if negb (Num.isNaN numVal) then
      let fmtId := numFmtId <$> styleAt T styleIndex in
      Format.formatNumber host (numFmts T) numVal fmtId
    else Returns value
  else Returns value.

(** The font [getFontSpec(cellStyle)] names. *)
Definition fontKeyOf (T : tables) (cellStyle : option cellXf) : fontKey :=
  let fnt : option font :=
    cellStyle ≫= (fun s => Js.arr_get (fonts T) (Some (fontId s))) in
  let fnt0 : option font := fonts T !! 0%nat in
  let name (f : option font) : option string :=
    Color.truthy_string (f ≫= f_name) in
  let size (f : option font) : option float :=
    match f ≫= f_size with
    | Some x => if Num.truthy x then Some x else None
    | None => None
    end in
  {| fk_name := default (default "等线" (name fnt0)) (name fnt);
     fk_bold := default false (f_bold <$> fnt);
     fk_italic := default false (f_italic <$> fnt);
     fk_sizePt := default (default 11%float (size fnt0)) (size fnt) |}.

(** [measureTextWidth(text, cellStyle)]. *)
Definition measureTextWidth (host : Host) (T : tables) (text : string)
    (cellStyle : option cellXf) : float :=
  if String.eqb text "" then 0%float
  else canvasWidth host (fontKeyOf T cellStyle) text.

(** [measureMaxDigitWidth()]: the widest of the ten digits in the
    default font, 7 when that is 0. *)
Definition measureMaxDigitWidth (host : Host) (T : tables) : float :=
  let max :=
    foldl (fun max d =>
             let w := canvasWidth host (fontKeyOf T None) d in
             if (max <? w)%float then w else max)
          0%float ["0"; "1"; "2"; "3"; "4"; "5"; "6"; "7"; "8"; "9"] in
  Num.or_else max 7.

(** [calcColumnWidthPx(currentColWidths[c] || 8.43)]. *)
Definition columnPx (L : layout) (c : Z) : float :=
  ColumnWidth.calcColumnWidthPx (currentMDW L)
    (match currentColWidths L !! c with
     | Some w => Num.or_else w 8.43
     | None => 8.43%float
     end).

(** [cellType === 's' || cellType === 'str' || cellType === 'inlineStr']. *)
Definition isTextType (t : option string) : bool :=
  bool_decide (t = Some "s") || bool_decide (t = Some "str")
  || bool_decide (t = Some "inlineStr").

Definition blockedAlign (hAlign : option string) : bool :=
  bool_decide (hAlign = Some "center") || bool_decide (hAlign = Some "right")
  || bool_decide (hAlign = Some "justify")
  || bool_decide (hAlign = Some "distributed").

(** The preconditions of an overflow, for a cell of display text
    [text]: a text type tag, no wrapping, no blocking alignment, no
    shrinking, no rotation, some text, no merge, and a measured width
    that is not within the column width less the padding of 6. *)
Definition eligible (host : Host) (T : tables) (L : layout)
    (cellElem : cellElem) (styleIndex : option Z) (rowNum : option Z)
    (colNum : Z) (mergeSpanMap : gmap (Z * Z) span) (text : string) : bool :=
  let cellStyle := styleAt T styleIndex in
  let align := cellStyle ≫= xf_alignment in
  isTextType (c_t cellElem)
  && negb (default false (wrapText <$> align))
  && negb (blockedAlign (align ≫= horizontal))
  && negb (default false (shrinkToFit <$> align))
  && (default 0 (textRotation <$> align) =? 0)
  && negb (String.eqb text "")
  && negb (bool_decide (is_Some (at_rc mergeSpanMap rowNum colNum)))
  && negb (measureTextWidth host T text cellStyle
           <=? Num.max 0 (columnPx L colNum - 6))%float.

(** A column the span may run over: not merged, and without a cell or
    with a cell that shows no text. *)
Definition freeColumn (host : Host) (T : tables) (maps : styleMaps)
    (cellMap : gmap Z cellElem) (mergeSpanMap : gmap (Z * Z) span)
    (rowNum : option Z) (c : Z) : Prop :=
  at_rc mergeSpanMap rowNum c = None
  /\ forall neighbor,
       cellMap !! c = Some neighbor ->
       getCellDisplayText host T neighbor (resolveStyleIndex maps rowNum c)
       = Returns "".

(** A column that stops the span: merged, or holding a cell that shows
    text. *)
Definition blockedColumn (host : Host) (T : tables) (maps : styleMaps)
    (cellMap : gmap Z cellElem) (mergeSpanMap : gmap (Z * Z) span)
    (rowNum : option Z) (c : Z) : Prop :=
  is_Some (at_rc mergeSpanMap rowNum c)
  \/ exists neighbor text,
       cellMap !! c = Some neighbor
       /\ getCellDisplayText host T neighbor (resolveStyleIndex maps rowNum c)
          = Returns text
       /\ text <> "".

(** The [for] loop of [getOverflowEndCol] over the columns that follow
    the cell; it stops at a merged column and at a neighbour that shows
    text, and yields the last column it went past. *)
Fixpoint extendSpan (host : Host) (T : tables) (maps : styleMaps)
    (cellMap : gmap Z cellElem) (mergeSpanMap : gmap (Z * Z) span)
    (rowNum : option Z) (cols : list Z) (endCol : Z) : outcome Z :=
  match cols with
  | [] => Returns endCol
  | c :: rest =>
      if bool_decide (is_Some (at_rc mergeSpanMap rowNum c)) then Returns endCol
      else
        match cellMap !! c with
        | Some neighbor =>
            neighborText ← getCellDisplayText host T neighbor
                              (resolveStyleIndex maps rowNum c);
            if negb (String.eqb neighborText "") then Returns endCol
            else extendSpan host T maps cellMap mergeSpanMap rowNum rest c
        | None => extendSpan host T maps cellMap mergeSpanMap rowNum rest c
        end
  end.

(** [getOverflowEndCol(cellElem, styleIndex, rowNum, colNum, cellMap,
    mergeSpanMap, resolveStyleIndex)] for a cell that exists; [None] is
    [null].  The text of a cell of a text type never goes through
    [formatNumber], so the style handed to [getCellDisplayText] there is
    not read. *)
Definition getOverflowEndCol (host : Host) (T : tables) (L : layout)
    (maps : styleMaps) (cellElem : cellElem) (styleIndex : option Z)
    (rowNum : option Z) (colNum : Z) (cellMap : gmap Z Sheet.cellElem)
    (mergeSpanMap : gmap (Z * Z) span) : outcome (option Z) :=
  if negb (isTextType (c_t cellElem)) then Returns None
  else
    let cellStyle := styleAt T styleIndex in
    let align := cellStyle ≫= xf_alignment in
    if default false (wrapText <$> align) then Returns None
    else if blockedAlign (align ≫= horizontal) then Returns None
    else if default false (shrinkToFit <$> align) then Returns None
    else if negb (default 0 (textRotation <$> align) =? 0) then Returns None
    else
      text ← getCellDisplayText host T cellElem None;
      if String.eqb text "" then Returns None
      else if bool_decide (is_Some (at_rc mergeSpanMap rowNum colNum))
      then Returns None
      else
        let cellWidth := columnPx L colNum in
        let textWidth := measureTextWidth host T text cellStyle in
        let paddingX := 6%float in
        if (textWidth <=? Num.max 0 (cellWidth - paddingX))%float
        then Returns None
        else
          endCol ← extendSpan host T maps cellMap mergeSpanMap rowNum
                     (seqZ (colNum + 1) (currentMaxCol L - colNum)) colNum;
          Returns (if colNum <? endCol then Some endCol else None).

End Overflow.

(** ** The rendered grid: rows and columns of [renderSheet] *)

Module Grid.
Import Sheet.

Record tdOut : Type := {
  td_col : Z;                     (* [td.dataset.col] *)
  td_cell : option cellElem;      (* the cell element rendered in it *)
  td_span : option (Z * Z)        (* [rowSpan] and [colSpan] assigned to
                                     the anchor of a merged range *)
}.

Record trOut : Type := {
  tr_label : option Z;            (* the row header; [None] shows NaN *)
  tr_row : option rowElem;        (* the row element; [None]: a filler *)
  tr_cells : list tdOut
}.

Record grid : Type := {
  g_columns : list Z;             (* the header cells, [th.dataset.col] *)
  g_rows : list trOut
}.

(** The filler row that the [while] loop appends. *)
Definition emptyTr (lastRow maxCol : Z) : trOut := {|
  tr_label := Some lastRow;
  tr_row := None;
  tr_cells :=
    (fun c => {| td_col := c; td_cell := None; td_span := None |})
      <$> seqZ 1 maxCol
|}.

(** [while (lastRow < rowNum - 1 && lastRow < 1000) { lastRow++; ... }]:
    the rows appended and the final [lastRow].  Every turn raises
    [lastRow] towards 1000, which bounds the number of turns. *)
Fixpoint fillEmptyRows (turns : nat) (lastRow rowNum maxCol : Z)
  : list trOut * Z :=
  match turns with
  | O => ([], lastRow)
  | S n =>
      if (lastRow <? rowNum - 1) && (lastRow <? 1000) then
        let lastRow := lastRow + 1 in
        let '(trs, final) := fillEmptyRows n lastRow rowNum maxCol in
        (emptyTr lastRow maxCol :: trs, final)
      else ([], lastRow)
  end.

(** [cellMap] of one row: the cells by the column of their reference. *)
Definition cellMapOf (row : rowElem) : gmap Z cellElem :=
  foldl (fun m c => <[(cellRef (c_r c)).2 := c]> m) ∅ (row_cells row).

(** The cells of a rendered row: columns 1 to [maxCol], those hidden by
    a merge left out. *)
Definition renderCells (merges : gmap (Z * Z) mergeInfo) (maxCol : Z)
    (row : rowElem) (rowNum : option Z) : list tdOut :=
  omap (fun c =>
          match at_rc merges rowNum c with
          | Some Hidden => None
          | Some (Master rowspan colspan) =>
              Some {| td_col := c; td_cell := cellMapOf row !! c;
                      td_span := Some (rowspan, colspan) |}
          | None =>
              Some {| td_col := c; td_cell := cellMapOf row !! c;
                      td_span := None |}
          end)
       (seqZ 1 maxCol).

(** One turn of [rows.forEach] in the table body: the rows appended to
    [tbody] and the new [lastRow] ([None] is NaN). *)
Definition renderRow (merges : gmap (Z * Z) mergeInfo) (maxCol : Z)
    (lastRow : option Z) (row : rowElem) : list trOut * option Z :=
  let rowNum := rowNumOf row in
  let fillers :=
    match lastRow, rowNum with
    | Some l, Some n => (fillEmptyRows (Z.to_nat (1000 - l)) l n maxCol).1
    | _, _ => []
    end in
  let lastRow := rowNum in
  if Js.gt rowNum 1000 then (fillers, lastRow)
  else
    ((fillers ++ [ {| tr_label := rowNum; tr_row := Some row;
                      tr_cells := renderCells merges maxCol row rowNum |} ])%list,
     lastRow).

(** The rows that [rows.forEach] lays out in the table body, cell
    contents apart.  Filling a cell can raise ([formatNumber]), which
    ends [renderSheet] before the table is attached: [Table.renderTable]
    runs the same loop with the contents and the exceptions. *)
Definition renderRows (merges : gmap (Z * Z) mergeInfo) (maxCol : Z)
    (rows : list rowElem) : list trOut :=
  (foldl (fun '(trs, lastRow) row =>
            let '(more, lastRow) := renderRow merges maxCol lastRow row in
            ((trs ++ more)%list, lastRow))
         ([], Some 0) rows).1.

(** What holds of a row of the table body, given the sheet's rows and
    the column bound: a number up to 1000, cells in columns 1 to
    [maxCol], and, when it shows a row element, one of the sheet whose
    number is not above 1000, with cells of that element. *)
Definition bounded_tr (rows : list rowElem) (maxCol : Z) (tr : trOut) : Prop :=
  (forall n, tr_label tr = Some n -> n <= 1000)
  /\ (length (tr_cells tr) <= Z.to_nat maxCol)%nat
  /\ (forall td, td ∈ tr_cells tr -> 1 <= td_col td <= maxCol)
  /\ (forall row,
        tr_row tr = Some row ->
        row ∈ rows
        /\ tr_label tr = rowNumOf row
        /\ Js.gt (rowNumOf row) 1000 = false
        /\ forall td ce,
             td ∈ tr_cells tr -> td_cell td = Some ce ->
             ce ∈ row_cells row /\ (cellRef (c_r ce)).2 = td_col td)
  /\ (tr_row tr = None -> forall td, td ∈ tr_cells tr -> td_cell td = None).

(** The call of [getOverflowEndCol] that [renderSheet] makes for the
    cell of column [c] of a row element, with the module variables as
    [renderSheet] has set them; [null] when the row has no such cell. *)
Definition overflowEndColAt (host : Host) (T : Style.tables) (doc : sheetDoc)
    (row : rowElem) (c : Z) : outcome (option Z) :=
  let maps := buildStyleMaps doc in
  let L := {| Overflow.currentMaxCol := computeMaxCol (doc_rows doc);
              Overflow.currentColWidths := (parseCols (doc_cols doc)).1;
              Overflow.currentMDW := Overflow.measureMaxDigitWidth host T |} in
  let rowNum := rowNumOf row in
  let cellMap := cellMapOf row in
  match cellMap !! c with
  | Some cellElem =>
      Overflow.getOverflowEndCol host T L maps cellElem
        (resolveStyleIndex maps rowNum c) rowNum c cellMap
        (parseMerges (doc_merges doc)).2
  | None => Returns None
  end.

(** The layout of the table [renderSheet] builds, cell contents apart;
    [None] when the sheet has no row and the "empty sheet" notice is
    shown instead.  It is the table the script attaches when no cell
    raises and its loops end; [Table.renderTable] says when. *)
Definition renderSheet (doc : sheetDoc) : option grid :=
  match doc_rows doc with
  | [] => None
  | rows =>
      let maxCol := computeMaxCol rows in
      Some {| g_columns := seqZ 1 maxCol;
              g_rows := renderRows (parseMerges (doc_merges doc)).1 maxCol rows |}
  end.

End Grid.

(** ** Borders of a merged range ([applyMergedBorders]) *)

Module MergedBorders.
Import Style.

(** The four border properties of [td.style]; the empty string is an
    unset property.  A property holds the text assigned to it. *)
Record tdStyle : Type := {
  borderTop : string;
  borderRight : string;
  borderBottom : string;
  borderLeft : string
}.

Inductive side : Type := top | right | bottom | left.

#[global] Instance side_eq_dec : EqDecision side.
Proof. solve_decision. Defined.

Definition sideOf (sd : side) (b : border) : option borderSide :=
  match sd with
  | top => b_top b
  | right => b_right b
  | bottom => b_bottom b
  | left => b_left b
  end.

Definition getBorder (sd : side) (td : tdStyle) : string :=
  match sd with
  | top => borderTop td
  | right => borderRight td
  | bottom => borderBottom td
  | left => borderLeft td
  end.

Definition setBorder (sd : side) (v : string) (td : tdStyle) : tdStyle :=
  match sd with
  | top => {| borderTop := v; borderRight := borderRight td;
              borderBottom := borderBottom td; borderLeft := borderLeft td |}
  | right => {| borderTop := borderTop td; borderRight := v;
                borderBottom := borderBottom td; borderLeft := borderLeft td |}
  | bottom => {| borderTop := borderTop td; borderRight := borderRight td;
                 borderBottom := v; borderLeft := borderLeft td |}
  | left => {| borderTop := borderTop td; borderRight := borderRight td;
               borderBottom := borderBottom td; borderLeft := v |}
  end.

(** [td.style[prop] = value]: kept when the CSS parser accepts it. *)
Definition assignBorder (host : Host) (sd : side) (value : string)
    (td : tdStyle) : tdStyle :=
  if cssAccepts host value then setBorder sd value td else td.

(** Width and line style chosen by the [switch] on [bs.style]. *)
Definition lineOf (style : string) : string * string :=
  if String.eqb style "thin" then ("1px", "solid")
  else if String.eqb style "medium" then ("2px", "solid")
  else if String.eqb style "thick" then ("3px", "solid")
  else if String.eqb style "hair" then ("0.5px", "solid")
  else if String.eqb style "dotted" then ("1px", "dotted")
  else if String.eqb style "dashed" then ("1px", "dashed")
  else if String.eqb style "double" then ("3px", "double")
  else ("1px", "solid").

(** The text [`${w} ${s} ${c}`]; a colour that resolves to [null]
    prints as "null". *)
Definition borderCss (T : tables) (bs : borderSide) : string :=
  let '(w, s) := lineOf (bs_style bs) in
  let c :=
    match bs_color bs with
    | Some color => default "null" (Color.resolveColor (themeColors T) (Some color))
    | None => "#000"
    end in
  w ++ " " ++ s ++ " " ++ c.

(** The inner [applyBorderSide] of [applyMergedBorders]: nothing on the
    left of column 1 and on the right of the last column. *)
Definition applyBorderSide (host : Host) (T : tables) (currentMaxCol : Z)
    (startCol endCol : Z) (sd : side) (bs : borderSide) (td : tdStyle)
  : tdStyle :=
  if String.eqb (bs_style bs) "" then td
  else if bool_decide (sd = left) && (startCol =? 1) then td
  else if bool_decide (sd = right) && negb (currentMaxCol =? 0)
          && (endCol =? currentMaxCol) then td
  else assignBorder host sd (borderCss T bs) td.

(** [getBorderForCell(r, c)]. *)
Definition getBorderForCell (T : tables)
    (resolveStyleIndex : option Z -> Z -> option Z) (rc : Z * Z)
  : option border :=
  styleIdx ← resolveStyleIndex (Some rc.1) rc.2;
  style ← Js.arr_get (cellXfs T) (Some styleIdx);
  Js.arr_get (borders T) (Some (borderId style)).

(** A [for] loop along one side of the range: the side's border of the
    first cell that has one, at which the loop breaks. *)
Definition firstBorder (T : tables)
    (resolveStyleIndex : option Z -> Z -> option Z) (sd : side)
    (cells : list (Z * Z)) : option borderSide :=
  head (omap (fun rc => getBorderForCell T resolveStyleIndex rc ≫= sideOf sd)
             cells).

(** One of the four blocks [if (!td.style.borderX) { for ... }]. *)
Definition fillSide (host : Host) (T : tables) (currentMaxCol : Z)
    (resolveStyleIndex : option Z -> Z -> option Z) (startCol endCol : Z)
    (sd : side) (cells : list (Z * Z)) (td : tdStyle) : tdStyle :=
  if String.eqb (getBorder sd td) "" then
    match firstBorder T resolveStyleIndex sd cells with
    | Some bs => applyBorderSide host T currentMaxCol startCol endCol sd bs td
    | None => td
    end
  else td.

(** A cell with no border property set. *)
Definition noBorders : tdStyle :=
  {| borderTop := ""; borderRight := ""; borderBottom := ""; borderLeft := "" |}.

(** What one block leaves in its border property, given what the
    property held before. *)
Definition sideAfter (host : Host) (T : tables) (currentMaxCol : Z)
    (resolveStyleIndex : option Z -> Z -> option Z) (startCol endCol : Z)
    (sd : side) (cells : list (Z * Z)) (before : string) : string :=
  getBorder sd
    (fillSide host T currentMaxCol resolveStyleIndex startCol endCol sd cells
       (setBorder sd before noBorders)).

(** [applyMergedBorders(td, rowNum, colNum, merge, resolveStyleIndex)]
    for the anchor of a range of [rowspan] rows and [colspan] columns. *)
Definition applyMergedBorders (host : Host) (T : tables) (currentMaxCol : Z)
    (resolveStyleIndex : option Z -> Z -> option Z)
    (rowNum colNum rowspan colspan : Z) (td : tdStyle) : tdStyle :=
  let startRow := rowNum in
  let startCol := colNum in
  let endRow := rowNum + rowspan - 1 in
  let endCol := colNum + colspan - 1 in
  let cols := seqZ startCol (endCol - startCol + 1) in
  let rows := seqZ startRow (endRow - startRow + 1) in
  let fill := fillSide host T currentMaxCol resolveStyleIndex startCol endCol in
  let td := fill top ((fun c => (startRow, c)) <$> cols) td in
  let td := fill bottom ((fun c => (endRow, c)) <$> cols) td in
  let td := fill left ((fun r => (r, startCol)) <$> rows) td in
  let td := fill right ((fun r => (r, endCol)) <$> rows) td in
  td.

End MergedBorders.

(** ** Cell names and ranges ([colName], [expandRangeRefs]) *)

Module Ref.
Import Sheet.

(** Whether every character of a text passes a test. *)
Fixpoint allChars (p : ascii -> bool) (s : string) : bool :=
  match s with
  | EmptyString => true
  | String c r => p c && allChars p r
  end.

(** An integer below 2^53 = 9007199254740992 in magnitude.  On these
    the Number arithmetic of the script is exact ([n - 1], [col * 26 +
    k], [r++], [floor((n - 1) / 26)]) and a template literal prints all
    the decimal digits; beyond them a counter such as [r++] no longer
    advances and from 10^21 the text of a number has an exponent.  The
    functions of this module are the script's on such integers, and
    what is proved of them says so. *)
Definition safeInteger (z : Z) : bool :=
  (-9007199254740992 <? z) && (z <? 9007199254740992).

(** A cell whose row and column are both such integers. *)
Definition safeCell (rc : Z * Z) : bool :=
  safeInteger rc.1 && safeInteger rc.2.

(** The [while (n > 0)] loop of [colName]: a turn puts the letter of
    [(n - 1) % 26] before [s] and goes on with [floor((n - 1) / 26)],
    which is below [n]; [n] turns are enough. *)
Fixpoint colName_go (turns : nat) (n : Z) (s : string) : string :=
  match turns with
  | O => s
  | S k =>
      if 0 <? n then
        colName_go k ((n - 1) / 26)
          (String (ascii_of_nat (Z.to_nat (65 + (n - 1) mod 26))) s)
      else s
  end.

(** [colName(n)] for a safe integer [n] (beyond 2^53 the script's
    [n - 1] and the division are no longer exact). *)
Definition colName (n : Z) : string := colName_go (Z.to_nat n) n "".

(** The text [`${colName(c)}${r}`] for safe integers [r] and [c]: the
    row is printed with all its decimal digits. *)
Definition cellName (r c : Z) : string := colName c ++ Js.int_to_string r.

(** [expandRangeRefs(ref)]: nothing for no reference, the reference
    itself when it has no colon, else the names of the cells between
    the two corners, row by row.  The two loops of the script end when
    the corners are safe integers, and the array holds the names when
    they are fewer than 2^32 ([safeRange]). *)
Definition expandRangeRefs (ref : option string) : list string :=
  match Color.truthy_string ref with
  | None => []
  | Some ref =>
      if negb (Js.includes_char ":" ref) then [ref]
      else
        let '(start, end_) := splitRange ref in
        let s := cellRef start in
        let e := cellRef end_ in
        (fun rc => cellName rc.1 rc.2) <$> rangeCells s e
  end.

(** The number of cells between two corners. *)
Definition rangeSize (s e : Z * Z) : Z :=
  Z.max 0 (e.1 - s.1 + 1) * Z.max 0 (e.2 - s.2 + 1).

(** A reference that [expandRangeRefs] expands within the limits of the
    language: one without a colon, which is not expanded, or one with
    two safe corners and fewer than 2^32 = 4294967296 cells between
    them, the most an array holds ([refs.push] raises a RangeError
    beyond). *)
Definition safeRange (ref : option string) : bool :=
  match Color.truthy_string ref with
  | None => true
  | Some ref =>
      negb (Js.includes_char ":" ref)
      || (let s := cellRef (splitRange ref).1 in
          let e := cellRef (splitRange ref).2 in
          safeCell s && safeCell e && (rangeSize s e <? 4294967296))
  end.

(** Whether a cell lies in the rectangle between two corners. *)
Definition inRect (s e : Z * Z) (rc : Z * Z) : bool :=
  (s.1 <=? rc.1) && (rc.1 <=? e.1) && (s.2 <=? rc.2) && (rc.2 <=? e.2).

End Ref.

(** ** Hyperlinks ([parseHyperlinks], [escapeHtml], [buildHyperlinkHtml]) *)

Module Links.
Import Sheet Ref.

(** A [Relationship] element of the sheet's relationship part and a
    [hyperlink] element of the sheet, attributes as [getAttribute]
    returns them. *)
Record relElem : Type := {
  rel_Id : option string;
  rel_Target : option string
}.

Record linkElem : Type := {
  link_ref : option string;
  link_rid : option string;       (* the attribute [r:id] *)
  link_id : option string;
  link_location : option string
}.

(** [if (id && target) relMap.set(id, target)]. *)
Definition addRel (relMap : gmap string string) (rel : relElem)
  : gmap string string :=
  match Color.truthy_string (rel_Id rel), Color.truthy_string (rel_Target rel) with
  | Some id, Some target => <[id := target]> relMap
  | _, _ => relMap
  end.

(** [relMap] of [parseHyperlinks]; no relationship part, no entries. *)
Definition parseRels (relsDoc : option (list relElem)) : gmap string string :=
  match relsDoc with
  | Some rels => foldl addRel ∅ rels
  | None => ∅
  end.

(** [rId ? (relMap.get(rId) || '') : (link.getAttribute('location') || '')]
    with [rId = link.getAttribute('r:id') || link.getAttribute('id')]. *)
Definition linkTarget (relMap : gmap string string) (link : linkElem) : string :=
  let rId :=
    match Color.truthy_string (link_rid link) with
    | Some rid => Some rid
    | None => link_id link
    end in
  match Color.truthy_string rId with
  | Some rId => default "" (Color.truthy_string (relMap !! rId))
  | None => default "" (Color.truthy_string (link_location link))
  end.

(** One turn of the loop over the [hyperlink] elements. *)
Definition addLink (relMap : gmap string string) (map : gmap string string)
    (link : linkElem) : gmap string string :=
  let target := linkTarget relMap link in
  match Color.truthy_string (link_ref link) with
  | None => map
  | Some ref =>
      foldl (fun m cellRefStr => <[cellRefStr := target]> m) map
            (expandRangeRefs (Some ref))
  end.

(** [parseHyperlinks(sheetDoc, relsDoc)] for the [hyperlink] elements
    of a sheet: the target by cell name. *)
Definition parseHyperlinks (links : list linkElem)
    (relsDoc : option (list relElem)) : gmap string string :=
  foldl (addLink (parseRels relsDoc)) ∅ links.

(** The links that write a cell name, with the target each writes. *)
Definition targetsOf (relMap : gmap string string) (links : list linkElem)
    (name : string) : list string :=
  omap (fun link =>
          if bool_decide (name ∈ expandRangeRefs (link_ref link))
          then Some (linkTarget relMap link) else None)
       links.

(** [s.replace(/c/g, new)] for a one-character pattern. *)
Fixpoint replaceAll (c : ascii) (new : string) (s : string) : string :=
  match s with
  | EmptyString => ""
  | String d r =>
      (if Ascii.eqb d c then new else String d "") ++ replaceAll c new r
  end.

(** [escapeHtml(text)]: the five replacements, in the order of the
    source. *)
Definition escapeHtml (text : string) : string :=
  replaceAll "'" "&#39;"
    (replaceAll "034" "&quot;"
       (replaceAll ">" "&gt;"
          (replaceAll "<" "&lt;"
             (replaceAll "&" "&amp;" text)))).

(** What one character becomes in an escaped text. *)
Definition entityOf (c : ascii) : string :=
  if Ascii.eqb c "&" then "&amp;"
  else if Ascii.eqb c "<" then "&lt;"
  else if Ascii.eqb c ">" then "&gt;"
  else if Ascii.eqb c "034" then "&quot;"
  else if Ascii.eqb c "'" then "&#39;"
  else String c "".

(** An escaped text, character by character. *)
Fixpoint escapeChars (text : string) : string :=
  match text with
  | EmptyString => ""
  | String c r => entityOf c ++ escapeChars r
  end.

(** The number of bytes of the white-space character that starts a
    UTF-8 text, 0 when it starts with none.  White space is what [\s]
    matches: TAB, LF, VT, FF, CR, SP, U+00A0, U+1680, U+2000 to U+200A,
    U+2028, U+2029, U+202F, U+205F, U+3000 and U+FEFF. *)
Definition spaceWidth (s : string) : nat :=
  match s with
  | String a r =>
      let a := Js.ascii_code a in
      if ((9 <=? a) && (a <=? 13)) || (a =? 32) then 1%nat
      else
        match r with
        | String b r' =>
            let b := Js.ascii_code b in
            if (a =? 194) && (b =? 160) then 2%nat
            else
              match r' with
              | String c _ =>
                  let c := Js.ascii_code c in
                  if (a =? 225) && (b =? 154) && (c =? 128) then 3%nat
                  else if (a =? 226) && (b =? 128)
                          && (((128 <=? c) && (c <=? 138))
                              || (c =? 168) || (c =? 169) || (c =? 175))
                  then 3%nat
                  else if (a =? 226) && (b =? 129) && (c =? 159) then 3%nat
                  else if (a =? 227) && (b =? 128) && (c =? 128) then 3%nat
                  else if (a =? 239) && (b =? 187) && (c =? 191) then 3%nat
                  else 0%nat
              | EmptyString => 0%nat
              end
        | EmptyString => 0%nat
        end
  | EmptyString => 0%nat
  end.

(** The length of the longest prefix that [\S*] matches. *)
Fixpoint nonSpaceRun (s : string) : nat :=
  match s with
  | EmptyString => 0%nat
  | String a r =>
      if Nat.eqb (spaceWidth (String a r)) 0 then S (nonSpaceRun r) else 0%nat
  end.

Definition dropString (n : nat) (s : string) : string :=
  String.substring n (String.length s - n) s.

(** A match of [/https?:\/\/\S+/] at the head of a text: its length. *)
Definition urlHere (s : string) : option nat :=
  let after (p : string) : option nat :=
    if Num.starts_with p s then
      let n := nonSpaceRun (dropString (String.length p) s) in
      if Nat.ltb 0 n then Some (String.length p + n)%nat else None
    else None in
  match after "https://" with
  | Some n => Some n
  | None => after "http://"
  end.

(** [str.match(/https?:\/\/\S+/)]: the index and the length of the
    leftmost match. *)
Fixpoint findUrl (s : string) : option (nat * nat) :=
  match urlHere s with
  | Some n => Some (0%nat, n)
  | None =>
      match s with
      | EmptyString => None
      | String _ r => (fun '(i, n) => (S i, n)) <$> findUrl r
      end
  end.

Definition quote : string := String "034" "".

(** [buildHyperlinkHtml(text, target)] for a cell text and the target
    recorded for the cell: the escaped text, its first URL wrapped in
    an anchor. *)
Definition buildHyperlinkHtml (text target : string) : string :=
  let str := text in
  match findUrl str with
  | None => escapeHtml str
  | Some (index, len) =>
      let url := String.substring index len str in
      let href := if String.eqb target "" then url else target in
      let before := String.substring 0 index str in
      let after := dropString (index + len) str in
      escapeHtml before
      ++ "<a class=" ++ quote ++ "cell-hyperlink" ++ quote
      ++ " href=" ++ quote ++ escapeHtml href ++ quote
      ++ " target=" ++ quote ++ "_blank" ++ quote
      ++ " rel=" ++ quote ++ "noopener noreferrer" ++ quote ++ ">"
      ++ escapeHtml url ++ "</a>" ++ escapeHtml after
  end.

End Links.

(** ** Colour elements and the theme part ([parseColor], [parseTheme]) *)

Module Theme.
Import Style.

(** A [color], [fgColor] or [bgColor] element, attributes as
    [getAttribute] returns them. *)
Record colorElem : Type := {
  ce_rgb : option string;
  ce_theme : option string;
  ce_tint : option string;
  ce_indexed : option string
}.

(** [parseColor(colorElem)]; [None] is [null]. *)
Definition parseColor (colorElem : option colorElem) : option colorObj :=
  match colorElem with
  | None => None
  | Some colorElem =>
      match Color.truthy_string (ce_rgb colorElem) with
      | Some rgb => Some (Argb rgb)
      | None =>
          match ce_theme colorElem with
          | Some theme =>
              let tint := Num.or_else (Num.parseFloat_attr (ce_tint colorElem)) 0 in
              Some (Theme (Js.parseInt theme) tint)
          | None =>
              match ce_indexed colorElem with
              | Some indexed => Some (Indexed (Js.parseInt indexed))
              | None => None
              end
          end
      end
  end.

(** A colour of the theme's [clrScheme], as the script reads it: the
    [val] of its [srgbClr] child and the [lastClr] of its [sysClr]
    child, each [None] when there is no such child. *)
Record schemeColor : Type := {
  sc_srgbClr : option (option string);
  sc_sysClr : option (option string)
}.

(** [colorMap] of [parseTheme], in the order of [Object.entries]. *)
Definition colorMap : list (string * Z) :=
  [ ("dk1", 1); ("lt1", 0); ("dk2", 3); ("lt2", 2);
    ("accent1", 4); ("accent2", 5); ("accent3", 6);
    ("accent4", 7); ("accent5", 8); ("accent6", 9);
    ("hlink", 10); ("folHlink", 11) ].

(** What one turn of the loop stores under the index of a name, if it
    stores anything: [srgb.getAttribute('val')], or
    [sys.getAttribute('lastClr') || DEFAULT_THEME[index]]. *)
Definition schemeValue (colorScheme : string -> option schemeColor)
    (entry : string * Z) : option (option string) :=
  match colorScheme entry.1 with
  | Some elem =>
      match sc_srgbClr elem with
      | Some val => Some val
      | None =>
          match sc_sysClr elem with
          | Some lastClr =>
              Some (match Color.truthy_string lastClr with
                    | Some c => Some c
                    | None => Color.DEFAULT_THEME !! entry.2
                    end)
          | None => None
          end
      end
  | None => None
  end.

Definition setThemeColor (colorScheme : string -> option schemeColor)
    (themeColors : gmap Z (option string)) (entry : string * Z)
  : gmap Z (option string) :=
  match schemeValue colorScheme entry with
  | Some v => <[entry.2 := v]> themeColors
  | None => themeColors
  end.

(** [themeColors] after [parseTheme]; [colorScheme] is [None] when the
    workbook has no theme part or the part no [clrScheme], and else
    gives the element [colorScheme.querySelector(name)] finds. *)
Definition parseTheme (colorScheme : option (string -> option schemeColor))
  : gmap Z (option string) :=
  let themeColors : gmap Z (option string) := Some <$> Color.DEFAULT_THEME in
  match colorScheme with
  | None => themeColors
  | Some colorScheme => foldl (setThemeColor colorScheme) themeColors colorMap
  end.

(** *** Number format elements *)

Record numFmtElem : Type := {
  nf_numFmtId : option string;
  nf_formatCode : option string
}.

(** [if (id && code) numFmts[id] = code]. *)
Definition addNumFmt (numFmts : gmap string string) (nf : numFmtElem)
  : gmap string string :=
  match Color.truthy_string (nf_numFmtId nf),
        Color.truthy_string (nf_formatCode nf) with
  | Some id, Some code => <[id := code]> numFmts
  | _, _ => numFmts
  end.

(** [numFmts] after the loop over the [numFmt] elements. *)
Definition parseNumFmts (elems : list numFmtElem) : gmap string string :=
  foldl addNumFmt ∅ elems.

(** The code that the [numFmt] elements declare under the decimal text
    of a format id: that of the last element with that id and a code. *)
Definition declaredCode (elems : list numFmtElem) (fmtId : Z) : option string :=
  last (omap (fun nf =>
                if bool_decide (Color.truthy_string (nf_numFmtId nf)
                                = Some (Js.int_to_string fmtId))
                then Color.truthy_string (nf_formatCode nf) else None)
             elems).

End Theme.

(** ** Merged ranges, cell by cell *)

Module Merge.
Import Sheet Ref.

(** The two corners a [mergeCell] reference is read as. *)
Definition corners (ref : option string) : option ((Z * Z) * (Z * Z)) :=
  match Color.truthy_string ref with
  | None => None
  | Some ref =>
      let '(start, end_) := splitRange ref in
      Some (cellRef start, cellRef end_)
  end.

(** What one [mergeCell] makes of a cell: the anchor at its first
    corner, a hidden cell elsewhere in its rectangle, nothing outside. *)
Definition roleFrom (rc : Z * Z) (ref : option string) : option mergeInfo :=
  match corners ref with
  | None => None
  | Some (s, e) =>
      if bool_decide (rc = s)
      then Some (Master (e.1 - s.1 + 1) (e.2 - s.2 + 1))
      else if inRect s e rc then Some Hidden else None
  end.

(** The span one [mergeCell] records for a cell of its rectangle. *)
Definition spanFrom (rc : Z * Z) (ref : option string) : option span :=
  match corners ref with
  | None => None
  | Some (s, e) =>
      if inRect s e rc
      then Some {| startRow := s.1; startCol := s.2;
                   endRow := e.1; endCol := e.2 |}
      else None
  end.

(** Whether the merges hide the cell of a row and a column. *)
Definition hiddenAt (merges : gmap (Z * Z) mergeInfo) (rowNum : option Z)
    (c : Z) : bool :=
  match at_rc merges rowNum c with
  | Some Hidden => true
  | _ => false
  end.

(** The [rowSpan] and [colSpan] an anchor is given. *)
Definition spanAt (merges : gmap (Z * Z) mergeInfo) (rowNum : option Z)
    (c : Z) : option (Z * Z) :=
  match at_rc merges rowNum c with
  | Some (Master rowspan colspan) => Some (rowspan, colspan)
  | _ => None
  end.

End Merge.

(** ** The content of a cell ([renderCell], [applyOverflowOverlay]) *)

Module Render.
Import Style Sheet Ref Overflow.

(** The style index [renderCell] settles on: the one it is given, else
    the cell's own [s] attribute, else 0.  The index it is given is the
    result of [resolveStyleIndex], [null] or an integer: the style maps
    hold no NaN. *)
Definition resolvedStyleIndex (cellElem : option cellElem)
    (styleIndex : option Z) : Z :=
  match styleIndex with
  | Some i => i
  | None =>
      match cellElem ≫= c_s with
      | Some s => Js.or_zero (Js.parseInt s)
      | None => 0
      end
  end.

(** The text [renderCell] shows for a cell: the [value] it has built
    when it comes to the hyperlink. *)
Definition renderCellValue (host : Host) (T : tables) (cellElem : cellElem)
    (styleIndex : option Z) : outcome string :=
  let cellStyle :=
    Js.arr_get (cellXfs T)
      (Some (resolvedStyleIndex (Some cellElem) styleIndex)) in
  let type := c_t cellElem in
  let value := default "" (c_v cellElem) in
  let value :=
    if bool_decide (type = Some "s") && negb (String.eqb value "") then
      default "" (Color.truthy_string
                    (Js.arr_get (sharedStrings T) (Js.parseInt value)))
    else if bool_decide (type = Some "inlineStr") then
      match c_is cellElem with
      | Some cs => extractRichText cs
      | None => value
      end
    else value in
  let value :=
    if bool_decide (type = Some "b")
    then (if String.eqb value "1" then "TRUE" else "FALSE")
    else value in
  if is_numeric_type type then
    let numVal := Num.parseFloat value in
    match cellStyle with
    | Some cellStyle =>
        if negb (Num.isNaN numVal)
        then Format.formatNumber host (numFmts T) numVal (Some (numFmtId cellStyle))
        else Returns value
    | None => Returns value
    end
  else Returns value.

(** [`${rowNum}`] for a row number that may be NaN. *)
Definition rowText (rowNum : option Z) : string :=
  match rowNum with
  | Some r => Js.int_to_string r
  | None => "NaN"
  end.

(** [calcOverflowWidthPx(startCol, endCol)]. *)
Definition calcOverflowWidthPx (L : layout) (startCol endCol : Z) : float :=
  foldl (fun w c => (w + columnPx L c)%float) 0%float
        (seqZ startCol (endCol - startCol + 1)).

(** What a cell holds after [renderCell] has filled it: a text, markup
    assigned to [innerHTML], or the overlay span of an overflowing text
    with its width in pixels. *)
Inductive content : Type :=
  | Text (text : string)
  | Html (html : string)
  | Overlay (text : string) (width : float).

(** The first half of [renderCell], for a cell that exists: the value,
    then the hyperlink, then the overflow overlay, which replaces what
    the cell holds when the value is not empty. *)
Definition renderCellContent (host : Host) (T : tables) (L : layout)
    (hyperlinkMap : gmap string string) (cellElem : cellElem)
    (styleIndex : option Z) (rowNum : option Z) (colNum : Z)
    (overflowEndCol : option Z) : outcome content :=
  value ← renderCellValue host T cellElem styleIndex;
  let ref := colName colNum ++ rowText rowNum in
  let shown :=
    match hyperlinkMap !! ref with
    | Some target => Html (Links.buildHyperlinkHtml value target)
    | None => Text value
    end in
  match overflowEndCol with
  | Some endCol =>
      if negb (endCol =? 0) && (colNum <? endCol) && negb (String.eqb value "")
      then Returns (Overlay value (calcOverflowWidthPx L colNum endCol))
      else Returns shown
  | None => Returns shown
  end.

End Render.

(** ** Borders of a cell ([applyCellStyle]) *)

Module CellBorders.
Import Style MergedBorders.

(** The border side a neighbour passes on: the [from] side of the
    border of the style that the neighbour resolves to. *)
Definition neighbourSide (T : tables)
    (resolveStyleIndex : option Z -> Z -> option Z)
    (r : option Z) (c : Z) (from : side) : option borderSide :=
  match resolveStyleIndex r c with
  | Some styleIdx =>
      match Js.arr_get (cellXfs T) (Some styleIdx) with
      | Some style =>
          match Js.arr_get (borders T) (Some (borderId style)) with
          | Some b => sideOf from b
          | None => None
          end
      | None => None
      end
  | None => None
  end.

(** One of the four blocks that fill a side left unset from a
    neighbour, under the block's extra condition. *)
Definition inferSide (host : Host) (T : tables) (currentMaxCol : Z)
    (resolveStyleIndex : option Z -> Z -> option Z) (colNum : Z)
    (sd : side) (extra : bool) (r : option Z) (c : Z) (from : side)
    (td : tdStyle) : tdStyle :=
  if String.eqb (getBorder sd td) "" && extra then
    match neighbourSide T resolveStyleIndex r c from with
    | Some bs => applyBorderSide host T currentMaxCol colNum colNum sd bs td
    | None => td
    end
  else td.

(** A side that neither rule of the outer columns excludes: not the
    left side in column 1 and not the right side in the last column. *)
Definition inner (currentMaxCol startCol endCol : Z) (sd : side) : Prop :=
  ~ (sd = left /\ startCol = 1)
  /\ ~ (sd = right /\ currentMaxCol <> 0 /\ endCol = currentMaxCol).

(** The border part of [applyCellStyle(td, cellStyle, rowNum, colNum,
    resolveStyleIndex)]: the sides of the style's own border in the
    order top, right, bottom, left, then what the four neighbours pass
    on to the sides still unset. *)
Definition applyCellBorders (host : Host) (T : tables) (currentMaxCol : Z)
    (resolveStyleIndex : option Z -> Z -> option Z) (cellStyle : cellXf)
    (rowNum : option Z) (colNum : Z) (td : tdStyle) : tdStyle :=
  let own (td : tdStyle) (sd : side) (b : border) : tdStyle :=
    match sideOf sd b with
    | Some bs => applyBorderSide host T currentMaxCol colNum colNum sd bs td
    | None => td
    end in
  let td :=
    match Js.arr_get (borders T) (Some (borderId cellStyle)) with
    | Some b => foldl (fun td sd => own td sd b) td [top; right; bottom; left]
    | None => td
    end in
  let infer := inferSide host T currentMaxCol resolveStyleIndex colNum in
  let td := infer left (1 <? colNum) rowNum (colNum - 1) right td in
  let td := infer right true rowNum (colNum + 1) left td in
  let td := infer top (Js.gt rowNum 1) ((fun r => r - 1) <$> rowNum) colNum bottom td in
  let td := infer bottom true ((fun r => r + 1) <$> rowNum) colNum top td in
  td.

End CellBorders.

(** ** Columns and rows of the sheet, as the document declares them *)

Module Layout.
Import Sheet.

(** The width the [col] elements declare for a column: that of the
    last element that covers it. *)
Definition colLevelWidth (cols : list colElem) (c : Z) : option float :=
  last (omap (fun col => if covers col c then Some (colWidth col) else None)
             cols).

(** Row numbers that increase, the first one above [from]. *)
Fixpoint increasingFrom (from : Z) (nums : list Z) : bool :=
  match nums with
  | [] => true
  | n :: rest => (from <? n) && increasingFrom n rest
  end.

(** The cell of a row element that [cellMap] holds for a column: the
    last one whose reference names the column. *)
Definition cellOfColumn (row : rowElem) (c : Z) : option cellElem :=
  last (filter (fun ce => (cellRef (c_r ce)).2 = c) (row_cells row)).

End Layout.

(** ** The table of a sheet, with what its cells raise ([renderSheet]) *)

Module Table.
Import Style Sheet Ref Overflow Grid Render.

(** A call that can raise, made for the elements of a list in order:
    the results, or the first exception. *)
Fixpoint forEach {A B} (f : A -> outcome B) (l : list A) : outcome (list B) :=
  match l with
  | [] => Returns []
  | x :: l => y ← f x; ys ← forEach f l; Returns (y :: ys)
  end.

(** The loops of [renderSheet] count with Numbers and end when their
    bounds are safe integers, and the keys it builds from row and
    column numbers tell the cells apart when these are safe integers.
    A sheet is safe when
    - a [col] element has [min] and [max] read as safe integers (its
      loop does not run when one is NaN);
    - a [mergeCell] has two safe corners (its loops run whether or not
      the reference has a colon) and safe row and column counts;
    - a hyperlink has a safe range;
    - the number of frozen rows is a safe integer (the loop that sets
      [frozenRowTops] counts up to it);
    - a row has a safe number, or none, and cells with safe
      references. *)
Definition safeCol (col : colElem) : bool :=
  match Js.parseInt_attr (col_min col), Js.parseInt_attr (col_max col) with
  | Some a, Some b => safeInteger a && safeInteger b
  | _, _ => true
  end.

Definition safeMerge (ref : option string) : bool :=
  match Color.truthy_string ref with
  | None => true
  | Some ref =>
      let s := cellRef (splitRange ref).1 in
      let e := cellRef (splitRange ref).2 in
      safeCell s && safeCell e
      && safeInteger (e.1 - s.1 + 1) && safeInteger (e.2 - s.2 + 1)
  end.

Definition safeRow (row : rowElem) : bool :=
  match rowNumOf row with
  | Some n => safeInteger n
  | None => true
  end
  && forallb (fun c => safeCell (cellRef (c_r c))) (row_cells row).

Definition safeSheet (doc : sheetDoc) (links : list Links.linkElem) : bool :=
  forallb safeCol (doc_cols doc)
  && forallb safeMerge (doc_merges doc)
  && forallb (fun link => safeRange (Links.link_ref link)) links
  && safeInteger (frozenRows (parseFreezePanes doc))
  && forallb safeRow (doc_rows doc).

(** No format code of the workbook holds more than 100 characters
    ['0']. *)
Definition shortFormats (T : tables) : bool :=
  forallb (fun entry : string * string => Js.count_char "0" entry.2 <=? 100)
          (map_to_list (numFmts T)).

(** The module variables [currentMaxCol], [currentColWidths] and
    [currentMDW] as [renderSheet] sets them before the table body. *)
Definition layoutOf (host : Host) (T : tables) (doc : sheetDoc) : layout := {|
  currentMaxCol := computeMaxCol (doc_rows doc);
  currentColWidths := (parseCols (doc_cols doc)).1;
  currentMDW := measureMaxDigitWidth host T
|}.

(** What the row loop does for a [td] of a row element: for a cell
    element, [getOverflowEndCol] and then [renderCell], either of which
    can raise; what the cell holds after them.  A [td] without a cell
    element gets no content. *)
Definition fillCell (host : Host) (T : tables) (doc : sheetDoc)
    (hyperlinkMap : gmap string string) (row : rowElem) (td : tdOut)
  : outcome (option content) :=
  match td_cell td with
  | Some cellElem =>
      let maps := buildStyleMaps doc in
      let L := layoutOf host T doc in
      let rowNum := rowNumOf row in
      let c := td_col td in
      let resolvedStyleIndex := resolveStyleIndex maps rowNum c in
      overflowEndCol ←
        getOverflowEndCol host T L maps cellElem resolvedStyleIndex rowNum c
          (cellMapOf row) (parseMerges (doc_merges doc)).2;
      shown ←
        renderCellContent host T L hyperlinkMap cellElem resolvedStyleIndex
          rowNum c overflowEndCol;
      Returns (Some shown)
  | None => Returns None
  end.

(** A row of the table body with the content of its cells. *)
Record shownRow : Type := {
  sh_tr : trOut;
  sh_cells : list (option content)
}.

(** The table that [renderSheet] attaches. *)
Record shownTable : Type := {
  sh_columns : list Z;
  sh_rows : list shownRow
}.

(** A row of the body: the cells of a row element are filled from left
    to right; a filler row has empty cells. *)
Definition fillRow (host : Host) (T : tables) (doc : sheetDoc)
    (hyperlinkMap : gmap string string) (tr : trOut) : outcome shownRow :=
  match tr_row tr with
  | Some row =>
      cells ← forEach (fillCell host T doc hyperlinkMap row) (tr_cells tr);
      Returns {| sh_tr := tr; sh_cells := cells |}
  | None =>
      Returns {| sh_tr := tr; sh_cells := (fun _ => None) <$> tr_cells tr |}
  end.

(** [renderSheet(doc, sheetRelsDoc)] up to [tableWrapper.appendChild]:
    the table it attaches, [None] when it shows the notice of an empty
    sheet instead, or the exception that a cell raises in the row loop,
    which leaves the wrapper empty.  [links] are the [hyperlink]
    elements of [doc].  The styles, the borders and the frozen-pane
    classes that the loop also sets are not part of the table here:
    [applyCellStyle] and [applyMergedBorders] guard every table lookup
    and raise nothing. *)
Definition renderTable (host : Host) (T : tables) (doc : sheetDoc)
    (links : list Links.linkElem) (relsDoc : option (list Links.relElem))
  : outcome (option shownTable) :=
  let hyperlinkMap := Links.parseHyperlinks links relsDoc in
  match renderSheet doc with
  | None => Returns None
  | Some g =>
      rows ← forEach (fillRow host T doc hyperlinkMap) (g_rows g);
      Returns (Some {| sh_columns := g_columns g; sh_rows := rows |})
  end.

End Table.

(** ** Worksheets and tables used as concrete inputs *)

Module Examples.
Import Style Sheet.

(** A pane frozen with [ySplit="-3"]. *)
Definition negative_split : sheetDoc := {|
  doc_pane := Some {| pane_state := Some "frozen";
                      pane_ySplit := Some "-3";
                      pane_xSplit := None |};
  doc_cols := [];
  doc_merges := [];
  doc_rows := []
|}.

(** An [alignment] element that centres, and the three kinds of [xf]
    element that the alignment pass tells apart. *)
Definition centred : alignmentElem := {|
  ae_horizontal := Some "center"; ae_vertical := None; ae_wrapText := Some "1";
  ae_shrinkToFit := None; ae_textRotation := None; ae_indent := None
|}.

Definition xf_with (xfId applyAlignment : option string)
    (a : option alignmentElem) : xfElem := {|
  xe_fontId := Some "0"; xe_fillId := Some "0"; xe_borderId := Some "0";
  xe_numFmtId := Some "0"; xe_xfId := xfId;
  xe_applyAlignment := applyAlignment; xe_alignment := a
|}.

(** Two hosts: one eight hours ahead of UTC, one five hours behind.
    The canvas gives every character a width of 8 pixels. *)
Definition beijing : Host := {|
  canvasWidth := fun _ text => (Num.of_Z (Js.strlen text) * 8)%float;
  localOffsetMs := fun _ => 28800000;
  cssAccepts := fun _ => true
|}.

Definition new_york : Host := {|
  canvasWidth := fun _ text => (Num.of_Z (Js.strlen text) * 8)%float;
  localOffsetMs := fun _ => -18000000;
  cssAccepts := fun _ => true
|}.

(** Tables with two shared strings and no styles. *)
Definition plain_tables : tables := {|
  themeColors := ∅; fonts := []; fills := []; borders := []; cellXfs := [];
  sharedStrings := ["Quarterly revenue by region"; "x"];
  numFmts := ∅
|}.

Definition cell (ref : string) (t v : option string) : cellElem :=
  {| c_r := Some ref; c_t := t; c_s := None; c_v := v; c_is := None |}.

Definition row_of (r : string) (cells : list cellElem) : rowElem :=
  {| row_r := Some r; row_s := None; row_ht := None;
     row_customHeight := None; row_cells := cells |}.

Definition sheet_of (rows : list rowElem) : sheetDoc :=
  {| doc_pane := None; doc_cols := []; doc_merges := []; doc_rows := rows |}.

(** A long text in A1, nothing in B1 and C1, a text in D1. *)
Definition text_then_gap : rowElem :=
  row_of "1" [cell "A1" (Some "s") (Some "0"); cell "D1" (Some "s") (Some "1")].

(** The same three columns further right: the long text in CU1
    (column 99), nothing in columns 100 and 101, a text in CX1
    (column 102). *)
Definition gap_at_the_bound : rowElem :=
  row_of "1" [cell "CU1" (Some "s") (Some "0"); cell "CX1" (Some "s") (Some "1")].

(** A long text that is the result of a formula (type tag [str]) in A1,
    and a text in D1. *)
Definition formula_text : rowElem :=
  row_of "1" [cell "A1" (Some "str") (Some "Quarterly revenue by region");
              cell "D1" (Some "s") (Some "1")].

(** A sheet whose only cell lies in column DA (105), in row 1, and a
    second row numbered 1500; no [r] on the first row element keeps the
    example free of filler rows. *)
Definition wide_and_deep : sheetDoc :=
  sheet_of
    [ {| row_r := None; row_s := None; row_ht := None;
         row_customHeight := None;
         row_cells := [cell "DA1" None (Some "1")] |};
      row_of "1500" [cell "A1500" None (Some "2")] ].

(** A cell without style in row 2 (style 7) and column B (style 9). *)
Definition styled_row_and_column : sheetDoc := {|
  doc_pane := None;
  doc_cols := [ {| col_min := Some "2"; col_max := Some "3";
                   col_width := Some "12"; col_style := Some "9";
                   col_s := None |} ];
  doc_merges := [];
  doc_rows := [ {| row_r := Some "2"; row_s := Some "7"; row_ht := None;
                   row_customHeight := None;
                   row_cells := [cell "B2" None (Some "1")] |} ]
|}.

(** A thin black border on every side, one format that uses it, and a
    cell whose four borders are set. *)
Definition thin : borderSide := {| bs_style := "thin"; bs_color := None |}.

Definition boxed_tables : tables := {|
  themeColors := ∅; fonts := []; fills := [];
  borders := [ {| b_left := Some thin; b_right := Some thin;
                  b_top := Some thin; b_bottom := Some thin |} ];
  cellXfs := [ {| fontId := 0; fillId := 0; borderId := 0; numFmtId := 0;
                  xfId := None; applyAlignment := None;
                  xf_alignment := None |} ];
  sharedStrings := []; numFmts := ∅
|}.

Definition boxed : MergedBorders.tdStyle := {|
  MergedBorders.borderTop := "2px solid #FF0000";
  MergedBorders.borderRight := "2px solid #FF0000";
  MergedBorders.borderBottom := "2px solid #FF0000";
  MergedBorders.borderLeft := "2px solid #FF0000"
|}.

(** A pane that freezes two rows and one column. *)
Definition frozen_header : sheetDoc := {|
  doc_pane := Some {| pane_state := Some "frozen";
                      pane_ySplit := Some "2";
                      pane_xSplit := Some "1" |};
  doc_cols := [];
  doc_merges := [];
  doc_rows := []
|}.

End Examples.

(** ** More worksheets and tables used as concrete inputs *)

Module MoreExamples.
Import Style Sheet.

(** A title merged over A1:B2, numbers in column C of rows 1 and 2, and
    a number in A5; rows 3 and 4 are left out. *)
Definition second_row : rowElem :=
  Examples.row_of "2" [Examples.cell "C2" None (Some "2")].

Definition merged_title : sheetDoc := {|
  doc_pane := None;
  doc_cols := [];
  doc_merges := [Some "A1:B2"];
  doc_rows :=
    [ Examples.row_of "1" [Examples.cell "A1" (Some "str") (Some "Title");
                           Examples.cell "C1" None (Some "1")];
      second_row;
      Examples.row_of "5" [Examples.cell "A5" None (Some "3")] ]
|}.

(** A text cell that holds a URL, and a hyperlink recorded for A1. *)
Definition linked_cell : cellElem :=
  Examples.cell "A1" (Some "str") (Some "see https://example.org/ now").

Definition linked_map : gmap string string :=
  <["A1" := "https://example.org/"]> ∅.

Definition no_widths : Overflow.layout := {|
  Overflow.currentMaxCol := 5;
  Overflow.currentColWidths := ∅;
  Overflow.currentMDW := 7
|}.

(** The one format of [Examples.boxed_tables]. *)
Definition boxed_xf : cellXf := {|
  fontId := 0; fillId := 0; borderId := 0; numFmtId := 0;
  xfId := None; applyAlignment := None; xf_alignment := None
|}.

Definition boxed_border : border := {|
  b_left := Some Examples.thin; b_right := Some Examples.thin;
  b_top := Some Examples.thin; b_bottom := Some Examples.thin
|}.

End MoreExamples.

(** * Properties *)

(** ** The built-ins, on values whose JavaScript results are known *)

Module BuiltinFacts.

Example parseInt_samples :
  Js.parseInt <$> ["42"; "  -12abc"; "0x1F"; "2.5"; "abc"; ""; "-0"]
  = [Some 42; Some (-12); Some 31; Some 2; None; None; Some 0].
Proof. vm_compute. reflexivity. Qed.

Example parseFloat_samples :
  (fun s => Num.toString (Num.parseFloat s))
    <$> ["1234.5"; " 12abc"; ".5"; "5."; "1e3"; "1e"; "-Infinity"; "abc";
         "1e999"; "0.30000000000000004"; "3e-324"]
  = ["1234.5"; "12"; "0.5"; "5"; "1000"; "1"; "-Infinity"; "NaN";
     "Infinity"; "0.30000000000000004"; "5e-324"].
Proof. vm_compute. reflexivity. Qed.

Example toString_samples :
  Num.toString
    <$> [0.1; 100; 1e21; 123456789012345680000; 5e-324; 0.000001; 1e-7;
         0.1 + 0.2; 1152921504606846976; -2.5; 25569.5]%float
  = ["0.1"; "100"; "1e+21"; "123456789012345680000"; "5e-324"; "0.000001";
     "1e-7"; "0.30000000000000004"; "1152921504606847000"; "-2.5"; "25569.5"].
Proof. vm_compute. reflexivity. Qed.

Example toFixed_samples :
  Num.toFixed 1234.5 2 = Returns "1234.50"
  /\ Num.toFixed 1.005 2 = Returns "1.00"
  /\ Num.toFixed 8.345 2 = Returns "8.35"
  /\ Num.toFixed 2.5 0 = Returns "3"
  /\ Num.toFixed (-1.5) 0 = Returns "-2"
  /\ Num.toFixed 1e21 2 = Returns "1e+21"
  /\ Num.toFixed (0.07 * 100) 0 = Returns "7".
Proof. repeat split; vm_compute; reflexivity. Qed.

Example toPrecision_samples :
  (fun x => Num.toPrecision x 10)
    <$> [1234.5; 0.1 + 0.2; 1 / 3; 1e21; 0.000001234; 99999999999.5]%float
  = ["1234.500000"; "0.3000000000"; "0.3333333333"; "1.000000000e+21";
     "0.000001234000000"; "1.000000000e+11"].
Proof. vm_compute. reflexivity. Qed.

Example floor_round_samples :
  Num.floor <$> [2.5; -2.5; 0.3; 700.4921875]%float = [2; -3; 0; 700]%float
  /\ Num.round <$> [2.5; -2.5; 0.49999999999999994; 254.5]%float
     = [3; -2; 0; 255]%float.
Proof. split; vm_compute; reflexivity. Qed.

(** Tints of the default accent colour 4472C4, as a spreadsheet shows
    them: 25% darker, and 40%, 60% and 80% lighter. *)
Example applyTint_samples :
  Color.applyTint "#4472C4" (-0.249977111117893) = "#2f5597"
  /\ Color.applyTint "#4472C4" 0.39997558519241921 = "#8faadc"
  /\ Color.applyTint "#4472C4" 0.59999389629810485 = "#b4c7e7"
  /\ Color.applyTint "#4472C4" 0.79998168889431442 = "#dae3f3".
Proof. repeat split; vm_compute; reflexivity. Qed.

Example civil_from_days_samples :
  Format.civil_from_days <$> [0; 19723; 19782; -25568; 11016]
  = [(1970, 1, 1); (2024, 1, 1); (2024, 2, 29); (1899, 12, 31); (2000, 2, 29)].
Proof. vm_compute. reflexivity. Qed.

Example cellRef_samples :
  Sheet.cellRef <$> [Some "B7"; Some "AB12"; Some "a1"; Some ""; None]
  = [(7, 2); (12, 28); (1, 1); (1, 1); (1, 1)].
Proof. vm_compute. reflexivity. Qed.

End BuiltinFacts.

(** ** Rounding to the nearest binary64 value

    The operations of [SpecFloat], by which the primitive floats are
    specified, are shown to round the exact result to nearest and so
    to keep the order of their operands. *)

Module RoundingFacts.
Import Rounding.

(** *** Binary digits *)

Lemma digits2_pos_bounds (p : positive) :
  2 ^ (Zpos (digits2_pos p) - 1) <= Zpos p < 2 ^ Zpos (digits2_pos p).
Proof.
  induction p as [p IH | p IH |]; cbn [digits2_pos].
  - rewrite Pos2Z.inj_succ.
    replace (Z.succ (Zpos (digits2_pos p)) - 1) with (Zpos (digits2_pos p) - 1 + 1) by lia.
    rewrite Z.pow_succ_r by lia.
    destruct (Z.eq_dec (Zpos (digits2_pos p)) 1) as [H1 | H1].
    + rewrite H1 in *. cbn in *. lia.
    + rewrite Z.pow_add_r by lia. change (2 ^ 1) with 2. lia.
  - rewrite Pos2Z.inj_succ.
    replace (Z.succ (Zpos (digits2_pos p)) - 1) with (Zpos (digits2_pos p) - 1 + 1) by lia.
    rewrite Z.pow_succ_r by lia.
    rewrite Z.pow_add_r by lia. change (2 ^ 1) with 2. lia.
  - cbn. lia.
Qed.

Lemma Zdigits2_nonneg (m : Z) : 0 <= Zdigits2 m.
Proof. destruct m; cbn; lia. Qed.

Lemma Zdigits2_bounds (m : Z) :
  0 < m -> 2 ^ (Zdigits2 m - 1) <= m < 2 ^ Zdigits2 m.
Proof. destruct m as [|p|p]; [lia | intros _ | lia]. apply digits2_pos_bounds. Qed.

Lemma Zdigits2_unique (m d : Z) :
  2 ^ (d - 1) <= m < 2 ^ d -> 0 < m -> Zdigits2 m = d.
Proof.
  intros [Hlo Hhi] Hm. pose proof (Zdigits2_bounds m Hm) as [Hlo' Hhi'].
  pose proof (Zdigits2_nonneg m).
  assert (0 <= d).
  { destruct (Z.le_gt_cases 0 d); [assumption |].
    rewrite (Z.pow_neg_r 2 d) in Hhi by lia. lia. }
  destruct (Z.lt_trichotomy (Zdigits2 m) d) as [Hlt | [Heq | Hgt]]; [| exact Heq |].
  - assert (2 ^ Zdigits2 m <= 2 ^ (d - 1)) by (apply Z.pow_le_mono_r; lia). lia.
  - assert (2 ^ d <= 2 ^ (Zdigits2 m - 1)) by (apply Z.pow_le_mono_r; lia). lia.
Qed.

Lemma Zdigits2_mono (m n : Z) : 0 <= m <= n -> Zdigits2 m <= Zdigits2 n.
Proof.
  intros [Hm Hmn]. destruct (Z.eq_dec m 0) as [-> | Hne]; [apply Zdigits2_nonneg |].
  pose proof (Zdigits2_bounds m ltac:(lia)) as [Hlo _].
  pose proof (Zdigits2_bounds n ltac:(lia)) as [_ Hhi].
  destruct (Z.le_gt_cases (Zdigits2 m) (Zdigits2 n)) as [|Hgt]; [assumption |].
  assert (2 ^ Zdigits2 n <= 2 ^ (Zdigits2 m - 1)) by (apply Z.pow_le_mono_r; lia).
  lia.
Qed.


(** *** Shifts *)

Lemma shr_1_nonneg (m : Z) (r s : bool) :
  0 <= m ->
  shr_1 {| shr_m := m; shr_r := r; shr_s := s |}
  = {| shr_m := m / 2; shr_r := Z.odd m; shr_s := r || s |}.
Proof.
  intros Hm. destruct m as [|p|p]; [reflexivity | | lia].
  destruct p as [p|p|]; cbn [shr_1].
  - replace (Z.pos p~1 / 2) with (Z.pos p); [reflexivity |].
    rewrite Pos2Z.inj_xI. apply (Z.div_unique _ _ _ 1); lia.
  - replace (Z.pos p~0 / 2) with (Z.pos p); [reflexivity |].
    rewrite Pos2Z.inj_xO. apply (Z.div_unique _ _ _ 0); lia.
  - reflexivity.
Qed.

(** Case analysis on the comparisons of a goal. *)
Ltac zbool :=
  repeat match goal with
         | |- context [?a <=? ?b] => destruct (Z.leb_spec a b)
         | |- context [?a <? ?b] => destruct (Z.ltb_spec a b)
         | |- context [?a =? ?b] => destruct (Z.eqb_spec a b)
         end.

Lemma locf_cases (n b : Z) :
  0 < b ->
  shr_record_of_loc (n / b) (locf n b)
  = {| shr_m := n / b;
       shr_r := b <=? 2 * (n mod b);
       shr_s := negb (n mod b =? 0) && negb (2 * (n mod b) =? b) |}.
Proof.
  intros Hb. unfold locf.
  pose proof (Z.mod_pos_bound n b Hb) as Hr.
  destruct (Z.eqb_spec (n mod b) 0) as [Hz | Hz].
  - cbn [shr_record_of_loc negb andb]. zbool; try lia; reflexivity.
  - destruct (Z.compare_spec (2 * (n mod b)) b);
      cbn [shr_record_of_loc negb andb]; zbool; try lia; reflexivity.
Qed.

(** One shift halves the fraction. *)
Lemma shr_1_recf (n b : Z) :
  0 <= n -> 0 < b -> shr_1 (recf n b) = recf n (2 * b).
Proof.
  intros Hn Hb. unfold recf. rewrite !locf_cases by lia.
  rewrite shr_1_nonneg by (apply Z.div_pos; lia).
  pose proof (Z.mod_pos_bound n b Hb) as Hr.
  pose proof (Z.div_mod n b ltac:(lia)) as Hnb.
  pose proof (Z.div_mod (n / b) 2 ltac:(lia)) as Hq.
  pose proof (Z.mod_pos_bound (n / b) 2 ltac:(lia)) as Hq2.
  assert (n / (2 * b) = n / b / 2) as Hdiv.
  { rewrite (Z.mul_comm 2 b). symmetry. apply Z.div_div; lia. }
  assert (n mod (2 * b) = (n / b) mod 2 * b + n mod b) as Hmod.
  { symmetry. apply (Z.mod_unique _ _ (n / b / 2)); [nia | nia]. }
  rewrite Hdiv, Hmod. rewrite Zodd_mod.
  set (q := (n / b) mod 2) in *. set (r := n mod b) in *.
  f_equal.
  - destruct (Z.eq_dec q 0) as [He | Ho].
    + rewrite He. cbn [Z.compare]. zbool; try nia; reflexivity.
    + assert (q = 1) as -> by lia. cbn [Z.compare Pos.compare Pos.compare_cont].
      zbool; try nia; reflexivity.
  - destruct (Z.eq_dec q 0) as [He | Ho].
    + rewrite He. zbool; cbn; try nia; reflexivity.
    + assert (q = 1) as -> by lia. zbool; cbn; try nia; reflexivity.
Qed.

Lemma iter_pos_shr_1 (p : positive) (n b : Z) :
  0 <= n -> 0 < b ->
  SpecFloat.iter_pos shr_1 p (recf n b) = recf n (b * 2 ^ Zpos p).
Proof.
  intros Hn. revert b. induction p as [p IH | p IH |]; intros b Hb; cbn [SpecFloat.iter_pos].
  - rewrite shr_1_recf, !IH by (try apply Z.mul_pos_pos; try apply Z.pow_pos_nonneg; lia).
    f_equal.
    replace (Z.pos p~1) with (1 + Zpos p + Zpos p) by lia.
    rewrite !Z.pow_add_r by lia. change (2 ^ 1) with 2. ring.
  - rewrite !IH by (try apply Z.mul_pos_pos; try apply Z.pow_pos_nonneg; lia).
    f_equal.
    replace (Z.pos p~0) with (Zpos p + Zpos p) by lia.
    rewrite !Z.pow_add_r by lia. ring.
  - rewrite shr_1_recf by lia. f_equal. change (2 ^ 1) with 2. ring.
Qed.

(** The shift of a fraction by a number of bits that is not negative. *)
Lemma shr_recf (n b e k : Z) :
  0 <= n -> 0 < b -> 0 <= k ->
  shr (recf n b) e k = (recf n (b * 2 ^ k), e + k).
Proof.
  intros Hn Hb Hk. destruct k as [|p|p]; [| | lia].
  - cbn [shr]. now rewrite Z.mul_1_r, Z.add_0_r.
  - cbn [shr]. now rewrite iter_pos_shr_1.
Qed.

(** *** The format *)

Lemma fexp_eq (e : Z) : fexp prec emax e = Z.max (e - 53) (-1074).
Proof. reflexivity. Qed.

Lemma pow_prec : 2 ^ prec = 9007199254740992.
Proof. reflexivity. Qed.

Lemma pow_prec_1 : 2 ^ (prec - 1) = 4503599627370496.
Proof. reflexivity. Qed.

Lemma scale_eq : scale = 4096.
Proof. reflexivity. Qed.

Lemma expOf_eq (n b : Z) :
  expOf n b = Z.max (Zdigits2 (n / b) - 4096 - 53) (-1074).
Proof. reflexivity. Qed.

Lemma pow2_pos (k : Z) : 0 <= k -> 0 < 2 ^ k.
Proof. intros Hk. apply Z.pow_pos_nonneg; lia. Qed.

(** The truncated mantissa has at most [prec] bits, and exactly
    [prec] above the smallest exponent. *)
Lemma canonical_bounds (n b : Z) :
  0 <= n -> 0 < b ->
  let E := expOf n b in
  let m := n / (b * 2 ^ (E + scale)) in
  -1074 <= E
  /\ 0 <= m < 2 ^ prec
  /\ (-1074 < E -> 2 ^ (prec - 1) <= m).
Proof.
  intros Hn Hb E m. subst E m. rewrite expOf_eq, scale_eq, pow_prec, pow_prec_1.
  set (q := n / b).
  assert (0 <= q) as Hq by (apply Z.div_pos; lia).
  pose proof (Zdigits2_nonneg q) as Hd.
  set (E := Z.max (Zdigits2 q - 4096 - 53) (-1074)).
  assert (0 <= E + 4096) as Hk by lia.
  assert (n / (b * 2 ^ (E + 4096)) = q / 2 ^ (E + 4096)) as ->.
  { unfold q. symmetry. apply Z.div_div; [lia | now apply pow2_pos]. }
  pose proof (pow2_pos (E + 4096) Hk) as Hpow.
  split; [lia |].
  destruct (Z.eq_dec q 0) as [Hz | Hnz].
  { rewrite Hz. rewrite Z.div_0_l by lia.
    split; [lia |]. intros HE. subst E. rewrite Hz in HE. cbn in HE. lia. }
  pose proof (Zdigits2_bounds q ltac:(lia)) as [Hlo Hhi].
  split; [split; [apply Z.div_pos; lia |] |].
  - apply Z.div_lt_upper_bound; [lia |].
    assert (2 ^ Zdigits2 q <= 2 ^ (E + 4096) * 9007199254740992); [| lia].
    change 9007199254740992 with (2 ^ 53). rewrite <- Z.pow_add_r by lia.
    apply Z.pow_le_mono_r; lia.
  - intros HE. assert (E = Zdigits2 q - 4096 - 53) as HEq by lia.
    apply Z.div_le_lower_bound; [lia |].
    assert (2 ^ (E + 4096) * 4503599627370496 = 2 ^ (Zdigits2 q - 1)); [| lia].
    change 4503599627370496 with (2 ^ 52). rewrite <- Z.pow_add_r by lia.
    f_equal. lia.
Qed.

Lemma loc_of_shr_record_of_loc (m : Z) (l : location) :
  loc_of_shr_record (shr_record_of_loc m l) = l.
Proof. destruct l as [|[]]; reflexivity. Qed.

Lemma shr_m_of_loc (m : Z) (l : location) : shr_m (shr_record_of_loc m l) = m.
Proof. destruct l as [|[]]; reflexivity. Qed.

Lemma round_nearest_even_bounds (m : Z) (l : location) :
  m <= round_nearest_even m l <= m + 1.
Proof. destruct l as [|[]]; cbn; try lia. destruct (Z.even m); lia. Qed.

(** The second half of [binary_round_aux], on a truncated mantissa. *)
Lemma round_finish (m E : Z) (l : location) :
  -1074 <= E -> 0 <= m < 2 ^ prec ->
  (let '(mrs, e) :=
     shr_fexp prec emax (round_nearest_even m l) E loc_Exact in
   match shr_m mrs with
   | Z0 => S754_zero false
   | Zpos p => if e <=? emax - prec then S754_finite false p e
               else S754_infinity false
   | Zneg _ => S754_nan
   end)
  = finish m E l.
Proof.
  intros HE Hm. unfold finish. cbv zeta.
  pose proof (round_nearest_even_bounds m l) as Hr.
  set (r := round_nearest_even m l) in *. rewrite pow_prec in *.
  unfold shr_fexp. rewrite fexp_eq.
  destruct (Z.eqb_spec r 9007199254740992) as [-> | Hne].
  - replace (Z.max (Zdigits2 9007199254740992 + E - 53) (-1074) - E) with 1
      by (cbn [Zdigits2 digits2_pos Pos.succ]; lia).
    reflexivity.
  - assert (r < 9007199254740992) as Hlt by lia.
    assert (Zdigits2 r <= 53) as Hd.
    { destruct (Z.eq_dec r 0) as [-> | Hnz]; [cbn; lia |].
      pose proof (Zdigits2_bounds r ltac:(lia)) as [Hlo _].
      destruct (Z.le_gt_cases (Zdigits2 r) 53) as [|Hgt]; [assumption |].
      assert (2 ^ 53 <= 2 ^ (Zdigits2 r - 1)) by (apply Z.pow_le_mono_r; lia).
      change (2 ^ 53) with 9007199254740992 in *. lia. }
    assert (Z.max (Zdigits2 r + E - 53) (-1074) - E <= 0) as Hk by lia.
    destruct (Z.max (Zdigits2 r + E - 53) (-1074) - E) as [|p|p] eqn:Hshift;
      [| lia |]; reflexivity.
Qed.

(** The nearest value in closed form. *)
Lemma nearest_finish (n b : Z) :
  0 <= n -> 0 < b ->
  let E := expOf n b in
  nearest n b
  = finish (n / (b * 2 ^ (E + scale))) E (locf n (b * 2 ^ (E + scale))).
Proof.
  intros Hn Hb E. unfold nearest, binary_round_aux, shr_fexp at 1.
  fold (recf n b).
  replace (fexp prec emax (Zdigits2 (n / b) + - scale) - - scale)
    with (E + scale) by (unfold E, expOf; f_equal; f_equal; lia).
  destruct (canonical_bounds n b Hn Hb) as (HE & Hm & _). fold E in HE, Hm.
  rewrite shr_recf by (rewrite ?scale_eq; lia).
  replace (- scale + (E + scale)) with E by lia.
  unfold recf at 1 2. rewrite loc_of_shr_record_of_loc, shr_m_of_loc.
  now apply round_finish.
Qed.

(** *** Order *)

Lemma div_cross_mono (n1 b1 n2 b2 : Z) :
  0 <= n1 -> 0 < b1 -> 0 < b2 -> n1 * b2 <= n2 * b1 -> n1 / b1 <= n2 / b2.
Proof.
  intros Hn Hb1 Hb2 Hle. apply Z.div_le_lower_bound; [lia |].
  pose proof (Z.mul_div_le n1 b1 Hb1). nia.
Qed.

(** A smaller fraction has a smaller integer part, or the same one and
    a place that is not later. *)
Lemma locf_mono (n1 b1 n2 b2 : Z) :
  0 <= n1 -> 0 < b1 -> 0 < b2 -> n1 * b2 <= n2 * b1 ->
  n1 / b1 < n2 / b2
  \/ (n1 / b1 = n2 / b2 /\ place (locf n1 b1) <= place (locf n2 b2)).
Proof.
  intros Hn Hb1 Hb2 Hle.
  pose proof (div_cross_mono n1 b1 n2 b2 Hn Hb1 Hb2 Hle) as Hq.
  destruct (Z.eq_dec (n1 / b1) (n2 / b2)) as [Heq | Hne]; [right | left; lia].
  split; [exact Heq |].
  pose proof (Z.div_mod n1 b1 ltac:(lia)) as H1.
  pose proof (Z.div_mod n2 b2 ltac:(lia)) as H2.
  pose proof (Z.mod_pos_bound n1 b1 Hb1) as Hr1.
  pose proof (Z.mod_pos_bound n2 b2 Hb2) as Hr2.
  rewrite Heq in H1.
  set (q := n2 / b2) in *. set (r1 := n1 mod b1) in *. set (r2 := n2 mod b2) in *.
  assert (r1 * b2 <= r2 * b1) as Hr by nia.
  unfold locf. fold r1 r2.
  destruct (Z.eqb_spec r1 0) as [Hz1 | Hz1]; destruct (Z.eqb_spec r2 0) as [Hz2 | Hz2];
    cbn [place]; try lia.
  - destruct (2 * r2 ?= b2); cbn; lia.
  - destruct (Z.compare_spec (2 * r1) b1); destruct (Z.compare_spec (2 * r2) b2);
      cbn [place]; try lia; nia.
Qed.

Lemma round_nearest_even_mono (m1 m2 : Z) (l1 l2 : location) :
  m1 < m2 \/ (m1 = m2 /\ place l1 <= place l2) ->
  round_nearest_even m1 l1 <= round_nearest_even m2 l2.
Proof.
  intros [Hlt | [-> Hl]].
  - pose proof (round_nearest_even_bounds m1 l1).
    pose proof (round_nearest_even_bounds m2 l2). lia.
  - destruct l1 as [|[]], l2 as [|[]]; cbn in *; try lia;
      destruct (Z.even m2); lia.
Qed.

Lemma pack_le (m1 e1 m2 e2 : Z) :
  0 <= m1 -> 0 <= m2 ->
  m1 = 0 \/ (0 < m2 /\ (e1 < e2 \/ (e1 = e2 /\ m1 <= m2))) ->
  SFleb (pack m1 e1) (pack m2 e2) = true.
Proof.
  intros H1 H2 Hcase. unfold pack.
  destruct m1 as [|p|p]; [| | lia].
  - destruct m2 as [|q|q]; [reflexivity | | lia].
    destruct (e2 <=? emax - prec); reflexivity.
  - destruct Hcase as [Hz | [Hpos Hord]]; [lia |].
    destruct m2 as [|q|q]; [lia | | lia].
    destruct (Z.leb_spec e1 (emax - prec)) as [Hle1 | Hgt1];
      destruct (Z.leb_spec e2 (emax - prec)) as [Hle2 | Hgt2];
      try reflexivity.
    + unfold SFleb, SFcompare.
      destruct Hord as [Hlt | [-> Hm]].
      * now rewrite (proj2 (Z.compare_lt_iff e1 e2) Hlt).
      * rewrite Z.compare_refl.
        change (Pos.compare_cont Eq p q) with (Zpos p ?= Zpos q).
        destruct (Z.compare_spec (Zpos p) (Zpos q)); [reflexivity | reflexivity | lia].
    + lia.
Qed.

(** Rounding to nearest is monotone. *)
Lemma nearest_mono (n1 b1 n2 b2 : Z) :
  0 <= n1 -> 0 < b1 -> 0 <= n2 -> 0 < b2 ->
  n1 * b2 <= n2 * b1 ->
  SFleb (nearest n1 b1) (nearest n2 b2) = true.
Proof.
  intros Hn1 Hb1 Hn2 Hb2 Hle.
  rewrite !nearest_finish by assumption. cbv zeta.
  destruct (canonical_bounds n1 b1 Hn1 Hb1) as (HE1 & Hm1 & Hnorm1).
  destruct (canonical_bounds n2 b2 Hn2 Hb2) as (HE2 & Hm2 & Hnorm2).
  assert (expOf n1 b1 <= expOf n2 b2) as HE.
  { rewrite !expOf_eq.
    pose proof (div_cross_mono n1 b1 n2 b2 Hn1 Hb1 Hb2 Hle).
    pose proof (Zdigits2_mono (n1 / b1) (n2 / b2)
                  ltac:(split; [apply Z.div_pos |]; lia)). lia. }
  set (E1 := expOf n1 b1) in *. set (E2 := expOf n2 b2) in *.
  set (B1 := b1 * 2 ^ (E1 + scale)) in *. set (B2 := b2 * 2 ^ (E2 + scale)) in *.
  assert (0 < B1) as HB1
    by (apply Z.mul_pos_pos; [lia | apply pow2_pos; rewrite scale_eq; lia]).
  assert (0 < B2) as HB2
    by (apply Z.mul_pos_pos; [lia | apply pow2_pos; rewrite scale_eq; lia]).
  unfold finish. cbv zeta.
  pose proof (round_nearest_even_bounds (n1 / B1) (locf n1 B1)) as Hr1.
  pose proof (round_nearest_even_bounds (n2 / B2) (locf n2 B2)) as Hr2.
  rewrite pow_prec, pow_prec_1 in *.
  destruct (Z.eq_dec E1 E2) as [HEq | HNe].
  - assert (round_nearest_even (n1 / B1) (locf n1 B1)
            <= round_nearest_even (n2 / B2) (locf n2 B2)) as Hr.
    { apply round_nearest_even_mono, locf_mono; try assumption.
      unfold B1, B2. rewrite HEq.
      pose proof (pow2_pos (E2 + scale) ltac:(rewrite scale_eq; lia)). nia. }
    set (r1 := round_nearest_even (n1 / B1) (locf n1 B1)) in *.
    set (r2 := round_nearest_even (n2 / B2) (locf n2 B2)) in *.
    destruct (Z.eqb_spec r1 9007199254740992); destruct (Z.eqb_spec r2 9007199254740992);
      apply pack_le; lia.
  - assert (4503599627370496 <= n2 / B2) as Hbig by (apply Hnorm2; lia).
    set (r1 := round_nearest_even (n1 / B1) (locf n1 B1)) in *.
    set (r2 := round_nearest_even (n2 / B2) (locf n2 B2)) in *.
    destruct (Z.eqb_spec r1 9007199254740992); destruct (Z.eqb_spec r2 9007199254740992);
      apply pack_le; lia.
Qed.

(** *** The results are binary64 values *)

Lemma pack_valid (m e : Z) :
  0 <= m < 2 ^ prec -> -1074 <= e -> (-1074 < e -> 2 ^ (prec - 1) <= m) ->
  valid_binary (pack m e) = true.
Proof.
  rewrite pow_prec, pow_prec_1. intros Hm He Hnorm. unfold pack.
  destruct m as [|p|p]; [reflexivity | | lia].
  destruct (Z.leb_spec e (emax - prec)) as [Hle | Hgt]; [| reflexivity].
  cbn [valid_binary]. unfold bounded, canonical_mantissa.
  apply andb_true_iff. split; [| now apply Z.leb_le].
  apply Z.eqb_eq. rewrite fexp_eq.
  change (Zpos (digits2_pos p)) with (Zdigits2 (Zpos p)).
  pose proof (Zdigits2_bounds (Zpos p) ltac:(lia)) as [Hlo Hhi].
  assert (Zdigits2 (Zpos p) <= 53) as Hd.
  { destruct (Z.le_gt_cases (Zdigits2 (Zpos p)) 53) as [|Hgt]; [assumption |].
    assert (2 ^ 53 <= 2 ^ (Zdigits2 (Zpos p) - 1)) by (apply Z.pow_le_mono_r; lia).
    change (2 ^ 53) with 9007199254740992 in *. lia. }
  destruct (Z.eq_dec e (-1074)) as [-> | Hne]; [lia |].
  assert (Zdigits2 (Zpos p) = 53) as ->; [| lia].
  apply Zdigits2_unique; [| lia].
  change (2 ^ (53 - 1)) with 4503599627370496.
  change (2 ^ 53) with 9007199254740992. lia.
Qed.

Lemma nearest_valid (n b : Z) :
  0 <= n -> 0 < b -> valid_binary (nearest n b) = true.
Proof.
  intros Hn Hb. rewrite nearest_finish by assumption. cbv zeta.
  destruct (canonical_bounds n b Hn Hb) as (HE & Hm & Hnorm).
  set (E := expOf n b) in *. set (B := b * 2 ^ (E + scale)) in *.
  unfold finish. cbv zeta.
  pose proof (round_nearest_even_bounds (n / B) (locf n B)) as Hr.
  set (r := round_nearest_even (n / B) (locf n B)) in *.
  rewrite pow_prec, pow_prec_1 in *.
  destruct (Z.eqb_spec r 9007199254740992).
  - apply pack_valid; rewrite ?pow_prec, ?pow_prec_1; lia.
  - apply pack_valid; rewrite ?pow_prec, ?pow_prec_1; lia.
Qed.

(** The nearest value is not negative and not NaN. *)
Lemma pack_kind (m e : Z) :
  0 <= m ->
  pack m e = S754_zero false
  \/ pack m e = S754_infinity false
  \/ exists p e', pack m e = S754_finite false p e'.
Proof.
  intros Hm. unfold pack. destruct m as [|p|p]; [now left | | lia].
  destruct (e <=? emax - prec); [right; right; eauto | right; now left].
Qed.

Lemma nearest_kind (n b : Z) :
  0 <= n -> 0 < b ->
  nearest n b = S754_zero false
  \/ nearest n b = S754_infinity false
  \/ exists p e, nearest n b = S754_finite false p e.
Proof.
  intros Hn Hb. rewrite nearest_finish by assumption. cbv zeta.
  destruct (canonical_bounds n b Hn Hb) as (HE & Hm & Hnorm).
  unfold finish. cbv zeta.
  pose proof (round_nearest_even_bounds
                (n / (b * 2 ^ (expOf n b + scale)))
                (locf n (b * 2 ^ (expOf n b + scale)))) as Hr.
  destruct (_ =? _); apply pack_kind; rewrite ?pow_prec_1; lia.
Qed.

(** *** Fractions at another exponent *)

Lemma recf_cancel (a b c : Z) :
  0 < b -> 0 < c -> recf (a * c) (b * c) = recf a b.
Proof.
  intros Hb Hc. unfold recf, locf.
  rewrite Z.div_mul_cancel_r by lia.
  rewrite Z.mul_mod_distr_r by lia.
  pose proof (Z.mod_pos_bound a b Hb) as Hr.
  destruct (Z.eqb_spec (a mod b) 0) as [Hz | Hz].
  - rewrite Hz. reflexivity.
  - destruct (Z.eqb_spec (a mod b * c) 0) as [Hz' | Hz']; [nia |].
    replace (2 * (a mod b * c) ?= b * c) with (2 * (a mod b) ?= b); [reflexivity |].
    destruct (Z.compare_spec (2 * (a mod b)) b);
      destruct (Z.compare_spec (2 * (a mod b * c)) (b * c)); try reflexivity; nia.
Qed.

Lemma Zdigits2_ge (m j : Z) : 0 <= m -> 2 ^ (j - 1) <= m -> 1 <= j -> j <= Zdigits2 m.
Proof.
  intros Hm Hj H1.
  assert (0 < m) as Hpos by (pose proof (pow2_pos (j - 1) ltac:(lia)); lia).
  pose proof (Zdigits2_bounds m Hpos) as [_ Hhi].
  destruct (Z.le_gt_cases j (Zdigits2 m)) as [|Hgt]; [assumption |].
  assert (2 ^ Zdigits2 m <= 2 ^ (j - 1))
    by (apply Z.pow_le_mono_r; pose proof (Zdigits2_nonneg m); lia).
  lia.
Qed.

Lemma Zdigits2_scale (a b j : Z) :
  0 < a / b -> 0 < b -> 0 <= j ->
  Zdigits2 (a * 2 ^ j / b) = Zdigits2 (a / b) + j.
Proof.
  intros Hq Hb Hj.
  pose proof (Zdigits2_bounds (a / b) Hq) as [Hlo Hhi].
  pose proof (Zdigits2_nonneg (a / b)) as Hd.
  assert (1 <= Zdigits2 (a / b)) as Hd1.
  { destruct (Z.eq_dec (Zdigits2 (a / b)) 0) as [Hz | Hnz]; [| lia].
    rewrite Hz in Hhi. cbn in Hhi. lia. }
  pose proof (pow2_pos j Hj) as Hpj.
  pose proof (Z.div_mod a b ltac:(lia)) as Hab.
  pose proof (Z.mod_pos_bound a b Hb) as Hr.
  set (d := Zdigits2 (a / b)) in *.
  assert (2 ^ (d - 1) * b <= a) as Hlo' by nia.
  assert (a < 2 ^ d * b) as Hhi' by nia.
  apply Zdigits2_unique.
  - replace (d + j - 1) with (d - 1 + j) by lia.
    rewrite !Z.pow_add_r by lia. split.
    + apply Z.div_le_lower_bound; [lia | nia].
    + apply Z.div_lt_upper_bound; [lia | nia].
  - apply Z.div_str_pos. split; [lia |].
    assert (b <= a) by nia. nia.
Qed.

(** [binary_round_aux] on a fraction whose exponent is not above the
    one it is rounded to. *)
Lemma round_aux_nearest (a b e : Z) :
  0 <= a -> 0 < b -> - scale <= e ->
  e <= fexp prec emax (Zdigits2 (a / b) + e) ->
  binary_round_aux prec emax false (a / b) e (locf a b)
  = nearest (a * 2 ^ (e + scale)) b.
Proof.
  intros Ha Hb He Hfine. unfold nearest, binary_round_aux.
  set (c := 2 ^ (e + scale)).
  assert (0 < c) as Hc by (apply pow2_pos; lia).
  assert (fexp prec emax (Zdigits2 (a * c / b) + - scale)
          = fexp prec emax (Zdigits2 (a / b) + e)) as HF.
  { assert (0 <= a / b) as Hq by (apply Z.div_pos; lia).
    destruct (Z.eq_dec (a / b) 0) as [Hz | Hnz].
    - rewrite Hz in *. cbn [Zdigits2 Z.add] in *. rewrite !fexp_eq in *.
      assert (a < b) as Hlt.
      { pose proof (Z.div_mod a b ltac:(lia)). pose proof (Z.mod_pos_bound a b Hb). nia. }
      assert (a * c / b < c) as Hsmall by (apply Z.div_lt_upper_bound; nia).
      assert (0 <= a * c / b) as Hq' by (apply Z.div_pos; nia).
      assert (Zdigits2 (a * c / b) <= e + scale) as Hd.
      { destruct (Z.eq_dec (a * c / b) 0) as [-> | Hnz']; [cbn; lia |].
        pose proof (Zdigits2_bounds (a * c / b) ltac:(lia)) as [Hlo _].
        destruct (Z.le_gt_cases (Zdigits2 (a * c / b)) (e + scale)) as [|Hgt];
          [assumption |].
        assert (2 ^ (e + scale) <= 2 ^ (Zdigits2 (a * c / b) - 1))
          by (apply Z.pow_le_mono_r; lia).
        fold c in H. lia. }
      lia.
    - unfold c. rewrite Zdigits2_scale by lia. f_equal. lia. }
  unfold shr_fexp at 1 3. fold (recf (a * c) b) (recf a b). rewrite HF.
  set (F := fexp prec emax (Zdigits2 (a / b) + e)) in *.
  rewrite !shr_recf by (try apply Z.mul_nonneg_nonneg; lia).
  replace (b * 2 ^ (F - - scale)) with (b * 2 ^ (F - e) * c).
  2:{ unfold c. rewrite <- Z.mul_assoc, <- Z.pow_add_r by lia. do 2 f_equal. lia. }
  rewrite recf_cancel
    by (try apply Z.mul_pos_pos; try apply pow2_pos; lia).
  replace (- scale + (F - - scale)) with (e + (F - e)) by lia.
  reflexivity.
Qed.

(** The same for an integer. *)
Lemma round_aux_exact (a e : Z) :
  0 <= a -> - scale <= e ->
  e <= fexp prec emax (Zdigits2 a + e) ->
  binary_round_aux prec emax false a e loc_Exact = nearest (a * 2 ^ (e + scale)) 1.
Proof.
  intros Ha He Hfine.
  pose proof (round_aux_nearest a 1 e Ha ltac:(lia) He) as H.
  rewrite Z.div_1_r in H. unfold locf in H. rewrite Z.mod_1_r in H.
  now apply H.
Qed.

(** *** Binary64 values *)

Lemma bounded_facts (m : positive) (e : Z) :
  bounded prec emax m e = true ->
  -1074 <= e <= 971
  /\ 1 <= Zdigits2 (Zpos m) <= 53
  /\ (-1074 < e -> Zdigits2 (Zpos m) = 53)
  /\ fexp prec emax (Zdigits2 (Zpos m) + e) = e.
Proof.
  unfold bounded, canonical_mantissa.
  intros [Hc He]%andb_true_iff. apply Z.eqb_eq in Hc. apply Z.leb_le in He.
  change (Zpos (digits2_pos m)) with (Zdigits2 (Zpos m)) in Hc.
  change (emax - prec) with 971 in He.
  pose proof Hc as Hc'. rewrite fexp_eq in Hc.
  assert (1 <= Zdigits2 (Zpos m)) by (cbn; lia).
  repeat split; solve [lia | exact Hc'].
Qed.

Lemma units_pos (m : positive) (e : Z) : -1074 <= e -> 0 < units m e.
Proof.
  intros He. unfold units. apply Z.mul_pos_pos; [lia | apply pow2_pos; lia].
Qed.

(** A binary64 value is the nearest one to itself. *)
Lemma nearest_self (m : positive) (e : Z) :
  bounded prec emax m e = true ->
  nearest (units m e * 2 ^ (scale - 1074)) 1 = S754_finite false m e.
Proof.
  intros Hb. destruct (bounded_facts m e Hb) as (He & Hd & Hnorm & Hcanon).
  replace (units m e * 2 ^ (scale - 1074)) with (Zpos m * 2 ^ (e + scale)).
  2:{ unfold units. rewrite <- Z.mul_assoc, <- Z.pow_add_r by (rewrite ?scale_eq; lia).
      do 2 f_equal. lia. }
  rewrite <- round_aux_exact by (rewrite ?scale_eq, ?Hcanon; lia).
  unfold binary_round_aux, shr_fexp. rewrite Hcanon, Z.sub_diag.
  cbn [shr shr_record_of_loc shr_m loc_of_shr_record round_nearest_even Zdigits2].
  change (Zpos (digits2_pos m)) with (Zdigits2 (Zpos m)).
  rewrite Hcanon, Z.sub_diag. cbn [shr shr_m].
  replace (e <=? emax - prec) with true; [reflexivity |].
  symmetry. apply Z.leb_le. change (emax - prec) with 971. lia.
Qed.

(** The order of two positive binary64 values is that of their units. *)
Lemma SFleb_units (m1 m2 : positive) (e1 e2 : Z) :
  bounded prec emax m1 e1 = true -> bounded prec emax m2 e2 = true ->
  SFleb (S754_finite false m1 e1) (S754_finite false m2 e2) = true ->
  units m1 e1 <= units m2 e2.
Proof.
  intros Hb1 Hb2.
  destruct (bounded_facts m1 e1 Hb1) as (He1 & Hd1 & Hn1 & _).
  destruct (bounded_facts m2 e2 Hb2) as (He2 & Hd2 & Hn2 & _).
  pose proof (Zdigits2_bounds (Zpos m1) ltac:(lia)) as [Hlo1 Hhi1].
  pose proof (Zdigits2_bounds (Zpos m2) ltac:(lia)) as [Hlo2 Hhi2].
  unfold SFleb, SFcompare, units.
  destruct (Z.compare_spec e1 e2) as [-> | Hlt | Hgt]; [| intros _ | discriminate].
  - change (Pos.compare_cont Eq m1 m2) with (Zpos m1 ?= Zpos m2).
    destruct (Z.compare_spec (Zpos m1) (Zpos m2)); try discriminate; intros _;
      pose proof (pow2_pos (e2 + 1074) ltac:(lia)); nia.
  - assert (-1074 < e2) as Hnorm by (clear - He1 Hlt; lia).
    specialize (Hn2 Hnorm). clear Hn1.
    rewrite Hn2 in Hlo2. change (2 ^ (53 - 1)) with 4503599627370496 in Hlo2.
    assert (Zpos m1 < 9007199254740992) as Hm1.
    { assert (2 ^ Zdigits2 (Zpos m1) <= 2 ^ 53) by (apply Z.pow_le_mono_r; lia).
      change (2 ^ 53) with 9007199254740992 in *. lia. }
    replace (e2 + 1074) with ((e1 + 1074) + (e2 - e1)) by lia.
    rewrite (Z.pow_add_r 2 (e1 + 1074) (e2 - e1)) by lia.
    pose proof (pow2_pos (e1 + 1074) ltac:(lia)).
    assert (2 <= 2 ^ (e2 - e1)) as Htwo.
    { change 2 with (2 ^ 1) at 1. apply Z.pow_le_mono_r; lia. }
    set (P := 2 ^ (e1 + 1074)) in *. set (Q := 2 ^ (e2 - e1)) in *.
    clear Hhi1 Hhi2 Hlo1 Hd1 Hd2 Hn2.
    assert (9007199254740992 <= Zpos m2 * Q) as Hbig by nia.
    assert (Zpos m1 * P <= 9007199254740992 * P) by nia.
    assert (9007199254740992 * P <= Zpos m2 * Q * P) by nia.
    lia.
Qed.

(** *** The operations *)

Lemma nearest_cancel (n b c : Z) :
  0 < b -> 0 < c -> nearest (n * c) (b * c) = nearest n b.
Proof.
  intros Hb Hc. unfold nearest.
  pose proof (recf_cancel n b c Hb Hc) as Hrec. unfold recf in Hrec.
  assert (n * c / (b * c) = n / b) as Hq by (apply Z.div_mul_cancel_r; lia).
  rewrite Hq in *.
  assert (locf (n * c) (b * c) = locf n b) as ->; [| reflexivity].
  rewrite <- (loc_of_shr_record_of_loc (n / b) (locf (n * c) (b * c))), Hrec.
  apply loc_of_shr_record_of_loc.
Qed.

Lemma iter_xO (m d : positive) : Zpos (Pos.iter xO m d) = Zpos m * 2 ^ Zpos d.
Proof.
  induction d as [|d IH] using Pos.peano_ind.
  - cbn. lia.
  - rewrite Pos.iter_succ, Pos2Z.inj_xO, IH, Pos2Z.inj_succ, Z.pow_succ_r by lia.
    ring.
Qed.

Lemma shl_align_spec (mx : positive) (ex ez : Z) :
  shl_align mx ex ez
  = if ez <? ex
    then (Z.to_pos (Zpos mx * 2 ^ (ex - ez)), ez)
    else (mx, ex).
Proof.
  unfold shl_align. destruct (Z.ltb_spec ez ex) as [Hlt | Hge].
  - destruct (ez - ex) as [|d|d] eqn:Hd; [lia | lia |].
    f_equal. replace (ex - ez) with (Zpos d) by lia.
    rewrite <- iter_xO. reflexivity.
  - destruct (ez - ex) as [|d|d] eqn:Hd; [reflexivity | reflexivity | lia].
Qed.

Lemma to_pos_scaled (m : positive) (k : Z) :
  0 <= k -> Zpos (Z.to_pos (Zpos m * 2 ^ k)) = Zpos m * 2 ^ k.
Proof.
  intros Hk. apply Z2Pos.id. apply Z.mul_pos_pos; [lia | now apply pow2_pos].
Qed.

Lemma Zdigits2_shift (m : positive) (k : Z) :
  0 <= k -> Zdigits2 (Zpos m * 2 ^ k) = Zdigits2 (Zpos m) + k.
Proof.
  intros Hk.
  pose proof (Zdigits2_scale (Zpos m) 1 k) as H.
  rewrite !Z.div_1_r in H. apply H; lia.
Qed.

(** [binary_round] gives the nearest value. *)
Lemma binary_round_nearest (s : positive) (e : Z) :
  - scale <= e ->
  binary_round prec emax false s e = nearest (Zpos s * 2 ^ (e + scale)) 1.
Proof.
  intros He. unfold binary_round. rewrite shl_align_spec.
  change (Zpos (digits2_pos s)) with (Zdigits2 (Zpos s)).
  set (F := fexp prec emax (Zdigits2 (Zpos s) + e)).
  assert (-1074 <= F) as HF by (unfold F; rewrite fexp_eq; lia).
  rewrite scale_eq in *.
  destruct (Z.ltb_spec F e) as [Hlt | Hge].
  - rewrite to_pos_scaled by lia.
    rewrite round_aux_exact.
    + f_equal. rewrite scale_eq.
      rewrite <- Z.mul_assoc, <- Z.pow_add_r by lia.
      do 2 f_equal. lia.
    + apply Z.mul_nonneg_nonneg; [lia | apply Z.lt_le_incl, pow2_pos; lia].
    + rewrite scale_eq. lia.
    + rewrite Zdigits2_shift by lia.
      replace (Zdigits2 (Zpos s) + (e - F) + F) with (Zdigits2 (Zpos s) + e) by lia.
      fold F. lia.
  - apply round_aux_exact; [lia | rewrite scale_eq; lia | fold F; lia].
Qed.

Lemma Zdigits2_mul (mx my : positive) :
  Zdigits2 (Zpos mx) + Zdigits2 (Zpos my) - 1 <= Zdigits2 (Zpos (mx * my)).
Proof.
  pose proof (Zdigits2_bounds (Zpos mx) ltac:(lia)) as [Hx _].
  pose proof (Zdigits2_bounds (Zpos my) ltac:(lia)) as [Hy _].
  assert (1 <= Zdigits2 (Zpos mx)) as Hdx by (cbn; lia).
  assert (1 <= Zdigits2 (Zpos my)) as Hdy by (cbn; lia).
  apply Zdigits2_ge; [lia | | lia].
  replace (Zdigits2 (Zpos mx) + Zdigits2 (Zpos my) - 1 - 1)
    with ((Zdigits2 (Zpos mx) - 1) + (Zdigits2 (Zpos my) - 1)) by lia.
  rewrite Z.pow_add_r, Pos2Z.inj_mul by lia.
  pose proof (pow2_pos (Zdigits2 (Zpos mx) - 1) ltac:(lia)).
  pose proof (pow2_pos (Zdigits2 (Zpos my) - 1) ltac:(lia)).
  nia.
Qed.

(** The product of two positive binary64 values. *)
Lemma SFmul_finite (mx my : positive) (ex ey : Z) :
  bounded prec emax mx ex = true -> bounded prec emax my ey = true ->
  SFmul prec emax (S754_finite false mx ex) (S754_finite false my ey)
  = nearest (units mx ex * units my ey * 2 ^ (scale - 2148)) 1.
Proof.
  intros Hbx Hby.
  destruct (bounded_facts mx ex Hbx) as (Hex & Hdx & Hnx & _).
  destruct (bounded_facts my ey Hby) as (Hey & Hdy & Hny & _).
  cbn [SFmul xorb].
  pose proof (Zdigits2_mul mx my) as Hd.
  rewrite round_aux_exact.
  - f_equal. unfold units. rewrite scale_eq, Pos2Z.inj_mul.
    replace (ex + ey + 4096) with ((ex + 1074) + (ey + 1074) + (4096 - 2148)) by lia.
    rewrite !Z.pow_add_r by lia. ring.
  - lia.
  - rewrite scale_eq. lia.
  - rewrite fexp_eq.
    destruct (Z.eq_dec ex (-1074)) as [Hx | Hx];
      destruct (Z.eq_dec ey (-1074)) as [Hy | Hy].
    + clear Hnx Hny. lia.
    + assert (Zdigits2 (Zpos my) = 53) as Hy' by (apply Hny; lia).
      clear Hnx Hny. lia.
    + assert (Zdigits2 (Zpos mx) = 53) as Hx' by (apply Hnx; lia).
      clear Hnx Hny. lia.
    + assert (Zdigits2 (Zpos mx) = 53) as Hx' by (apply Hnx; lia).
      clear Hnx Hny. lia.
Qed.

(** The sum of two positive binary64 values. *)
Lemma SFadd_finite (mx my : positive) (ex ey : Z) :
  bounded prec emax mx ex = true -> bounded prec emax my ey = true ->
  SFadd prec emax (S754_finite false mx ex) (S754_finite false my ey)
  = nearest ((units mx ex + units my ey) * 2 ^ (scale - 1074)) 1.
Proof.
  intros Hbx Hby.
  destruct (bounded_facts mx ex Hbx) as (Hex & _ & _ & _).
  destruct (bounded_facts my ey Hby) as (Hey & _ & _ & _).
  cbn [SFadd cond_Zopp]. rewrite !shl_align_spec.
  set (ez := Z.min ex ey).
  assert (forall m e, ez <= e ->
            Zpos (fst (if ez <? e then (Z.to_pos (Zpos m * 2 ^ (e - ez)), ez)
                       else (m, e)))
            = Zpos m * 2 ^ (e - ez)) as Hfst.
  { intros m e Hle. destruct (Z.ltb_spec ez e) as [Hlt | Hge]; cbn [fst].
    - apply to_pos_scaled. lia.
    - replace (e - ez) with 0 by lia. lia. }
  rewrite !Hfst by (unfold ez; lia).
  assert (0 < Zpos mx * 2 ^ (ex - ez) + Zpos my * 2 ^ (ey - ez)) as Hpos.
  { pose proof (pow2_pos (ex - ez) ltac:(unfold ez; lia)).
    pose proof (pow2_pos (ey - ez) ltac:(unfold ez; lia)). nia. }
  destruct (Zpos mx * 2 ^ (ex - ez) + Zpos my * 2 ^ (ey - ez)) as [|s|s] eqn:Hs;
    [lia | | lia].
  cbn [binary_normalize]. rewrite binary_round_nearest by (rewrite scale_eq; unfold ez; lia).
  f_equal. rewrite <- Hs. unfold units. rewrite scale_eq.
  rewrite !Z.mul_add_distr_r, <- !Z.mul_assoc, <- !Z.pow_add_r by (unfold ez; lia).
  f_equal; do 2 f_equal; lia.
Qed.

Lemma new_location_locf (n b : Z) :
  0 < b -> new_location b (n mod b) = locf n b.
Proof.
  intros Hb. unfold new_location, new_location_even, new_location_odd, locf.
  pose proof (Z.mod_pos_bound n b Hb) as Hr.
  destruct (Z.even b) eqn:Heven; [reflexivity |].
  destruct (Z.eqb_spec (n mod b) 0) as [Hz | Hz]; [reflexivity |].
  f_equal.
  assert (Z.odd b = true) as Hodd by (rewrite <- Z.negb_even, Heven; reflexivity).
  apply Z.odd_spec in Hodd as [k Hk].
  destruct (Z.compare_spec (2 * (n mod b) + 1) b);
    destruct (Z.compare_spec (2 * (n mod b)) b); try reflexivity; lia.
Qed.

(** The quotient of two positive binary64 values. *)
Lemma SFdiv_finite (mx my : positive) (ex ey : Z) :
  bounded prec emax mx ex = true -> bounded prec emax my ey = true ->
  SFdiv prec emax (S754_finite false mx ex) (S754_finite false my ey)
  = nearest (units mx ex * 2 ^ scale) (units my ey).
Proof.
  intros Hbx Hby.
  destruct (bounded_facts mx ex Hbx) as (Hex & Hdx & _ & _).
  destruct (bounded_facts my ey Hby) as (Hey & Hdy & _ & _).
  cbn [SFdiv xorb]. unfold SFdiv_core_binary.
  set (d1 := Zdigits2 (Zpos mx)) in *. set (d2 := Zdigits2 (Zpos my)) in *.
  set (e' := Z.min (fexp prec emax (d1 + ex - (d2 + ey))) (ex - ey)).
  set (s := ex - ey - e').
  assert (0 <= s) as Hs by (unfold s, e'; lia).
  assert (- 2045 <= e') as He' by (unfold e'; rewrite fexp_eq; lia).
  assert (match s with
          | 0 => Zpos mx
          | Zpos _ => Z.shiftl (Zpos mx) s
          | Zneg _ => 0
          end = Zpos mx * 2 ^ s) as ->.
  { destruct s as [|p|p] eqn:Hsp; [lia | | lia].
    rewrite Z.shiftl_mul_pow2 by lia. reflexivity. }
  set (m' := Zpos mx * 2 ^ s).
  assert (0 < m') as Hm' by (apply Z.mul_pos_pos; [lia | now apply pow2_pos]).
  assert (Z.div_eucl m' (Zpos my) = (m' / Zpos my, m' mod Zpos my)) as ->
    by (unfold Z.div, Z.modulo; now destruct (Z.div_eucl m' (Zpos my))).
  rewrite new_location_locf by lia.
  rewrite round_aux_nearest.
  - rewrite <- (nearest_cancel _ _ (2 ^ (ey + 1074)))
      by (try apply pow2_pos; lia).
    unfold units, m'. f_equal.
    rewrite <- !Z.mul_assoc, <- !Z.pow_add_r by (rewrite ?scale_eq; lia).
    do 2 f_equal. unfold s. rewrite scale_eq. lia.
  - lia.
  - lia.
  - rewrite scale_eq. lia.
  - (* the exponent is not above the one the quotient is rounded to *)
    assert (d1 + s - d2 <= Zdigits2 (m' / Zpos my)) as Hd.
    { destruct (Z.le_gt_cases (d1 + s - d2) 0) as [Hle | Hgt].
      - pose proof (Zdigits2_nonneg (m' / Zpos my)). lia.
      - apply Zdigits2_ge; [apply Z.div_pos; lia | | lia].
        apply Z.div_le_lower_bound; [lia |].
        pose proof (Zdigits2_bounds (Zpos mx) ltac:(lia)) as [Hlo1 _].
        pose proof (Zdigits2_bounds (Zpos my) ltac:(lia)) as [_ Hhi2].
        fold d1 in Hlo1. fold d2 in Hhi2.
        assert (2 ^ (d1 + s - d2 - 1) * 2 ^ d2 = 2 ^ (d1 - 1) * 2 ^ s) as Hpow.
        { rewrite <- !Z.pow_add_r by lia. f_equal. lia. }
        pose proof (pow2_pos (d1 + s - d2 - 1) ltac:(lia)).
        pose proof (pow2_pos s Hs).
        unfold m'. nia. }
    assert (e' <= Z.max (d1 + ex - (d2 + ey) - 53) (-1074)) as Hmin
      by (unfold e'; rewrite fexp_eq; lia).
    assert (s = ex - ey - e') as Hsdef by reflexivity.
    clearbody e' s. rewrite fexp_eq. lia.
Qed.

(** *** Order of the results *)

Lemma nearest_nonnegative (n b : Z) :
  0 <= n -> 0 < b -> nonnegative (nearest n b) = true.
Proof.
  intros Hn Hb.
  destruct (nearest_kind n b Hn Hb) as [-> | [-> | (p & e & ->)]]; reflexivity.
Qed.

Lemma SFleb_zero_l (s : bool) (x : spec_float) :
  nonnegative x = true -> SFleb (S754_zero s) x = true.
Proof. destruct x as [|[]| |[]]; try discriminate; reflexivity. Qed.

Lemma SFleb_infinity_r (x : spec_float) :
  nonnegative x = true -> SFleb x (S754_infinity false) = true.
Proof. destruct x as [|[]| |[]]; try discriminate; reflexivity. Qed.

Lemma SFleb_nonnegative (x y : spec_float) :
  nonnegative x = true -> SFleb x y = true -> nonnegative y = true.
Proof.
  destruct x as [|[]| |[]], y as [|[]| |[]]; try discriminate; reflexivity.
Qed.

Lemma SFleb_refl_nonnegative (x : spec_float) :
  nonnegative x = true -> SFleb x x = true.
Proof.
  destruct x as [|[]| |[] m e]; try discriminate; try reflexivity.
  intros _. unfold SFleb, SFcompare. rewrite Z.compare_refl.
  change (Pos.compare_cont Eq m m) with (Pos.compare m m).
  now rewrite Pos.compare_refl.
Qed.

(** Two nearest values, or zeros and infinities beside them. *)
Ltac order_cases :=
  repeat match goal with
         | |- SFleb (S754_zero _) _ = true => apply SFleb_zero_l
         | |- SFleb _ (S754_infinity false) = true => apply SFleb_infinity_r
         | |- nonnegative (nearest _ _) = true => apply nearest_nonnegative
         | |- nonnegative _ = true => reflexivity
         end.

(** Side conditions on the fractions of two or three values. *)
Ltac fraction_bounds :=
  repeat match goal with
         | H : bounded prec emax ?m ?e = true |- _ =>
             let Hu := fresh "Hu" in
             let He := fresh "He" in
             destruct (bounded_facts m e H) as (He & _);
             pose proof (units_pos m e (proj1 He)) as Hu;
             clear H
         end;
  pose proof (pow2_pos (scale - 2148) ltac:(rewrite scale_eq; lia));
  pose proof (pow2_pos (scale - 1074) ltac:(rewrite scale_eq; lia));
  pose proof (pow2_pos scale ltac:(rewrite scale_eq; lia));
  pose proof (pow2_pos 1074 ltac:(lia)).

Section Operations.
Variables (a b c : spec_float).
Hypothesis (Ha : valid_binary a = true) (Hb : valid_binary b = true)
           (Hc : valid_binary c = true).
Hypothesis (Hna : nonnegative a = true) (Hle : SFleb a b = true).

Lemma SFmul_mono_r :
  (exists m e, c = S754_finite false m e) ->
  nonnegative (SFmul prec emax a c) = true
  /\ SFleb (SFmul prec emax a c) (SFmul prec emax b c) = true.
Proof.
  intros (mc & ec & ->).
  pose proof (SFleb_nonnegative a b Hna Hle) as Hnb.
  destruct a as [sa|[]| |[] ma ea]; try discriminate;
    destruct b as [sb|[]| |[] mb eb]; try discriminate;
    cbn [valid_binary] in *;
    rewrite ?SFmul_finite by assumption; cbn [SFmul xorb];
    (split; [order_cases | try reflexivity; order_cases]).
  all: try (pose proof (SFleb_units ma mb ea eb Ha Hb Hle) as Horder;
            apply nearest_mono).
  all: fraction_bounds; nia.
Qed.

Lemma SFmul_mono_l :
  (exists m e, c = S754_finite false m e) ->
  nonnegative (SFmul prec emax c a) = true
  /\ SFleb (SFmul prec emax c a) (SFmul prec emax c b) = true.
Proof.
  intros (mc & ec & ->).
  pose proof (SFleb_nonnegative a b Hna Hle) as Hnb.
  destruct a as [sa|[]| |[] ma ea]; try discriminate;
    destruct b as [sb|[]| |[] mb eb]; try discriminate;
    cbn [valid_binary] in *;
    rewrite ?SFmul_finite by assumption; cbn [SFmul xorb];
    (split; [order_cases | try reflexivity; order_cases]).
  all: try (pose proof (SFleb_units ma mb ea eb Ha Hb Hle) as Horder;
            apply nearest_mono).
  all: fraction_bounds; nia.
Qed.

Lemma SFdiv_mono :
  (exists m e, c = S754_finite false m e) ->
  nonnegative (SFdiv prec emax a c) = true
  /\ SFleb (SFdiv prec emax a c) (SFdiv prec emax b c) = true.
Proof.
  intros (mc & ec & ->).
  pose proof (SFleb_nonnegative a b Hna Hle) as Hnb.
  destruct a as [sa|[]| |[] ma ea]; try discriminate;
    destruct b as [sb|[]| |[] mb eb]; try discriminate;
    cbn [valid_binary] in *;
    rewrite ?SFdiv_finite by assumption; cbn [SFdiv xorb];
    (split; [order_cases | try reflexivity; order_cases]).
  all: try (pose proof (SFleb_units ma mb ea eb Ha Hb Hle) as Horder;
            apply nearest_mono).
  all: fraction_bounds; nia.
Qed.

Lemma SFadd_mono :
  nonnegative c = true ->
  nonnegative (SFadd prec emax a c) = true
  /\ SFleb (SFadd prec emax a c) (SFadd prec emax b c) = true.
Proof.
  intros Hnc.
  pose proof (SFleb_nonnegative a b Hna Hle) as Hnb.
  destruct c as [sc|[]| |[] mc ec]; try discriminate;
    destruct a as [sa|[]| |[] ma ea]; try discriminate;
    destruct b as [sb|[]| |[] mb eb]; try discriminate;
    cbn [valid_binary] in *;
    rewrite ?SFadd_finite by assumption; cbn [SFadd];
    (split; [order_cases | try reflexivity; order_cases]);
    try assumption.
  all: try (destruct sa, sc; reflexivity).
  all: try (destruct sa, sb, sc; reflexivity).
  all: try (destruct sb, sc; reflexivity).
  all: try (apply SFleb_refl_nonnegative; reflexivity).
  all: try (rewrite <- (nearest_self mc ec Hc) at 1).
  all: try (pose proof (SFleb_units ma mb ea eb Ha Hb Hle) as Horder).
  all: try apply nearest_mono.
  all: fraction_bounds; nia.
Qed.

Lemma SFfloor_mono :
  nonnegative (SFfloor a) = true /\ SFleb (SFfloor a) (SFfloor b) = true.
Proof.
  pose proof (SFleb_nonnegative a b Hna Hle) as Hnb.
  assert (forall m e, bounded prec emax m e = true ->
            0 <= units m e / 2 ^ 1074 * 2 ^ scale) as Hfl.
  { intros m e Hm. destruct (bounded_facts m e Hm) as (He & _).
    pose proof (units_pos m e (proj1 He)).
    apply Z.mul_nonneg_nonneg;
      [apply Z.div_pos; [lia | apply pow2_pos; lia]
      | apply Z.lt_le_incl, pow2_pos; rewrite scale_eq; lia]. }
  destruct a as [sa|[]| |[] ma ea]; try discriminate;
    destruct b as [sb|[]| |[] mb eb]; try discriminate;
    cbn [valid_binary SFfloor] in *;
    (split; [order_cases | try reflexivity; order_cases]);
    try (apply Hfl; assumption); try lia.
  apply nearest_mono; try lia; try (apply Hfl; assumption).
  pose proof (SFleb_units ma mb ea eb Ha Hb Hle) as Horder.
  pose proof (Z.div_le_mono _ _ (2 ^ 1074) (pow2_pos 1074 ltac:(lia)) Horder).
  pose proof (pow2_pos scale ltac:(rewrite scale_eq; lia)). nia.
Qed.

End Operations.

End RoundingFacts.

(** ** Column width *)

Module ColumnWidthFacts.
Import ColumnWidth Rounding RoundingFacts.

Section Formula.
Context {num : Type} `{Arith num}.

Lemma effective_mdw_truthy (mdw : num) :
  truthy mdw = true -> effective_mdw mdw = mdw.
Proof. unfold effective_mdw. now intros ->. Qed.

Lemma calcColumnWidthPx_finite (mdw w : num) :
  isFinite w = true ->
  calcColumnWidthPx mdw w = spec_width_px (effective_mdw mdw) w.
Proof.
  intros Hfin. unfold calcColumnWidthPx, spec_width_px.
  rewrite Hfin. cbn. reflexivity.
Qed.

Lemma calcColumnWidthPx_not_finite (mdw w : num) :
  isFinite w = false -> calcColumnWidthPx mdw w = lit 64.
Proof. intros Hfin. unfold calcColumnWidthPx. now rewrite Hfin. Qed.

(** C3. For a finite width [w] and a measured (hence truthy) digit
    width [mdw], the pixel width is 0 when [w <= 0] and otherwise
    [floor(((256*w + floor(128/mdw))/256)*mdw) + 5], operation for
    operation; it is the conversion the specification states. *)
Theorem calcColumnWidthPx_formula (mdw w : num) :
  isFinite w = true ->
  truthy mdw = true ->
  (leb w (lit 0) = true -> calcColumnWidthPx mdw w = lit 0)
  /\ (leb w (lit 0) = false ->
      calcColumnWidthPx mdw w =
      add (floor (mul (div (add (mul (lit 256) w) (floor (div (lit 128) mdw)))
                           (lit 256)) mdw))
          (lit 5))
  /\ calcColumnWidthPx mdw w = spec_width_px mdw w.
Proof.
  intros Hfin Hmdw.
  rewrite (calcColumnWidthPx_finite _ _ Hfin), (effective_mdw_truthy _ Hmdw).
  unfold spec_width_px.
  repeat split; intros; try rewrite H0; reflexivity.
Qed.

End Formula.

(** *** Primitive floats *)

Lemma SFeqb_refl (x : spec_float) : SFeqb x x = negb (match x with S754_nan => true | _ => false end).
Proof.
  destruct x as [s|[]| |[] m e]; try reflexivity;
    unfold SFeqb, SFcompare; rewrite Z.compare_refl;
    change (Pos.compare_cont Eq m m) with (Pos.compare m m);
    now rewrite Pos.compare_refl.
Qed.

Lemma is_nan_spec (x : float) :
  PrimFloat.is_nan x = match Prim2SF x with S754_nan => true | _ => false end.
Proof.
  unfold PrimFloat.is_nan. rewrite FloatAxioms.eqb_spec, SFeqb_refl.
  now destruct (Prim2SF x).
Qed.

Lemma is_finite_spec (x : float) :
  PrimFloat.is_finite x
  = match Prim2SF x with
    | S754_zero _ | S754_finite _ _ _ => true
    | _ => false
    end.
Proof.
  unfold PrimFloat.is_finite, PrimFloat.is_infinity.
  rewrite is_nan_spec, FloatAxioms.eqb_spec, abs_spec.
  change (Prim2SF infinity) with (S754_infinity false).
  destruct (Prim2SF x) as [s|[]| |s m e]; reflexivity.
Qed.

Lemma is_zero_spec (x : float) :
  PrimFloat.is_zero x = match Prim2SF x with S754_zero _ => true | _ => false end.
Proof.
  unfold PrimFloat.is_zero. rewrite FloatAxioms.eqb_spec.
  change (Prim2SF PrimFloat.zero) with (S754_zero false).
  destruct (Prim2SF x) as [s|[]| |[] m e]; reflexivity.
Qed.

Lemma lit_0 : Prim2SF (Num.of_Z 0) = S754_zero false.
Proof. reflexivity. Qed.

Lemma nonneg_spec (x : float) : nonneg x <-> nonnegative (Prim2SF x) = true.
Proof.
  unfold nonneg, le. cbn [leb lit float_arith].
  rewrite FloatAxioms.leb_spec, lit_0.
  destruct (Prim2SF x) as [s|[]| |[] m e]; cbn; split; congruence.
Qed.

Lemma positive_spec (x : float) :
  positive x <-> exists m e, Prim2SF x = S754_finite false m e.
Proof.
  unfold positive. cbn [leb lit isFinite float_arith]. unfold Num.isFinite.
  rewrite is_finite_spec, FloatAxioms.leb_spec, lit_0.
  destruct (Prim2SF x) as [s|[]| |[] m e]; cbn; split;
    try (intros [? ?]; discriminate); try (intros (? & ? & ?); discriminate).
  - eauto.
  - intros _. split; reflexivity.
Qed.

Lemma le_spec (x y : float) : le x y <-> SFleb (Prim2SF x) (Prim2SF y) = true.
Proof. unfold le. cbn [leb float_arith]. now rewrite FloatAxioms.leb_spec. Qed.

(** [Math.floor] of a value that is not negative. *)
Lemma floor_spec (x : float) :
  nonnegative (Prim2SF x) = true ->
  Prim2SF (Num.floor x) = SFfloor (Prim2SF x).
Proof.
  intros Hn. unfold Num.floor.
  pose proof (Prim2SF_valid x) as Hv.
  destruct (Prim2SF x) as [s|[]| |[] m e] eqn:Hx; try discriminate;
    try (rewrite Hx; reflexivity).
  cbn [valid_binary SFfloor] in *.
  destruct (bounded_facts m e Hv) as (He & _).
  assert (units m e / 2 ^ 1074 = Zpos m * 2 ^ e \/ e < 0) as Hcase.
  { destruct (Z.le_gt_cases 0 e) as [Hpos | Hneg]; [left | now right].
    unfold units. rewrite Z.pow_add_r by lia. rewrite Z.mul_assoc.
    apply Z.div_mul. pose proof (pow2_pos 1074 ltac:(lia)). lia. }
  destruct (Z.leb_spec 0 e) as [Hpos | Hneg].
  - destruct Hcase as [Hfl | ?]; [| lia].
    rewrite Hx, Hfl, <- (nearest_self m e Hv). f_equal.
    unfold units. rewrite scale_eq, <- !Z.mul_assoc, <- !Z.pow_add_r by lia.
    do 2 f_equal. lia.
  - unfold Num.of_Z.
    assert (Z.shiftr (Zpos m) (- e) = units m e / 2 ^ 1074) as ->.
    { rewrite Z.shiftr_div_pow2 by lia. unfold units.
      replace 1074 with ((- e) + (e + 1074)) at 2 by lia.
      rewrite (Z.pow_add_r 2 (- e) (e + 1074)) by lia.
      symmetry. apply Z.div_mul_cancel_r; apply Z.neq_sym, Z.lt_neq, pow2_pos; lia. }
    set (z := units m e / 2 ^ 1074).
    assert (0 <= z) as Hz.
    { apply Z.div_pos; [| apply pow2_pos; lia].
      apply Z.lt_le_incl, units_pos. lia. }
    destruct z as [|p|p] eqn:Hp; [| | lia].
    + cbn [binary_normalize]. reflexivity.
    + cbn [binary_normalize].
      rewrite binary_round_nearest by (rewrite scale_eq; lia).
      rewrite Z.add_0_l.
      apply Prim2SF_SF2Prim, nearest_valid; [| lia].
      apply Z.mul_nonneg_nonneg; [lia |].
      apply Z.lt_le_incl, pow2_pos. rewrite scale_eq. lia.
Qed.

(** *** The operations of the script on numbers in order *)

Lemma SFleb_zero_trans (x y : spec_float) :
  SFleb x y = true -> SFleb y (S754_zero false) = true ->
  SFleb x (S754_zero false) = true.
Proof.
  destruct x as [s|[]| |[] m e], y as [t|[]| |[] n f];
    try discriminate; try reflexivity.
Qed.

Lemma le_zero (a b : float) : le a b -> le b (lit 0) -> le a (lit 0).
Proof.
  rewrite !le_spec. cbn [lit float_arith]. rewrite lit_0. apply SFleb_zero_trans.
Qed.

Lemma ordered_spec (a b : float) :
  ordered a b
  <-> nonnegative (Prim2SF a) = true /\ SFleb (Prim2SF a) (Prim2SF b) = true.
Proof. unfold ordered. now rewrite nonneg_spec, le_spec. Qed.

Lemma ordered_refl (a : float) : nonneg a -> ordered a a.
Proof.
  intros Ha. apply ordered_spec. apply nonneg_spec in Ha.
  split; [exact Ha | now apply SFleb_refl_nonnegative].
Qed.

Lemma mul_ordered_l (c a b : float) :
  positive c -> ordered a b -> ordered (mul c a) (mul c b).
Proof.
  rewrite positive_spec, !ordered_spec. cbn [mul float_arith].
  rewrite !mul_spec. intros Hc [Hn Hle].
  apply SFmul_mono_l; auto using Prim2SF_valid.
Qed.

Lemma mul_ordered_r (c a b : float) :
  positive c -> ordered a b -> ordered (mul a c) (mul b c).
Proof.
  rewrite positive_spec, !ordered_spec. cbn [mul float_arith].
  rewrite !mul_spec. intros Hc [Hn Hle].
  apply SFmul_mono_r; auto using Prim2SF_valid.
Qed.

Lemma div_ordered (c a b : float) :
  positive c -> ordered a b -> ordered (div a c) (div b c).
Proof.
  rewrite positive_spec, !ordered_spec. cbn [div float_arith].
  rewrite !div_spec. intros Hc [Hn Hle].
  apply SFdiv_mono; auto using Prim2SF_valid.
Qed.

Lemma add_ordered (k a b : float) :
  nonneg k -> ordered a b -> ordered (add a k) (add b k).
Proof.
  rewrite nonneg_spec, !ordered_spec. cbn [add float_arith].
  rewrite !add_spec. intros Hk [Hn Hle].
  apply SFadd_mono; auto using Prim2SF_valid.
Qed.

Lemma floor_ordered (a b : float) :
  ordered a b -> ordered (floor a) (floor b).
Proof.
  rewrite !ordered_spec. cbn [floor float_arith]. intros [Hn Hle].
  rewrite !floor_spec by eauto using SFleb_nonnegative.
  apply SFfloor_mono; auto using Prim2SF_valid.
Qed.

Lemma positive_256 : positive (lit 256 : float).
Proof. apply positive_spec. do 2 eexists. reflexivity. Qed.

Lemma positive_nonneg (c : float) : positive c -> nonneg c.
Proof.
  rewrite positive_spec, nonneg_spec. now intros (m & e & ->).
Qed.

Lemma positive_truthy (c : float) : positive c -> truthy c = true.
Proof.
  rewrite positive_spec. cbn [truthy float_arith]. unfold Num.truthy.
  rewrite is_zero_spec, is_nan_spec. now intros (m & e & ->).
Qed.

(** The pixel widths of two widths in order are in order. *)
Lemma pixels_ordered (mdw w1 w2 : float) :
  positive mdw -> ordered w1 w2 ->
  ordered
    (add (floor (mul (div (add (mul (lit 256) w1) (floor (div (lit 128) mdw)))
                          (lit 256)) mdw)) (lit 5))
    (add (floor (mul (div (add (mul (lit 256) w2) (floor (div (lit 128) mdw)))
                          (lit 256)) mdw)) (lit 5)).
Proof.
  intros Hm Hw.
  assert (nonneg (floor (div (lit 128) mdw))) as Hoffset.
  { apply (floor_ordered (div (lit 128) mdw) (div (lit 128) mdw)).
    apply div_ordered; [exact Hm |].
    apply ordered_refl. apply nonneg_spec. reflexivity. }
  apply add_ordered; [apply nonneg_spec; reflexivity |].
  apply floor_ordered, mul_ordered_r; [exact Hm |].
  apply div_ordered; [apply positive_256 |].
  apply add_ordered; [exact Hoffset |].
  apply mul_ordered_l; [apply positive_256 | exact Hw].
Qed.

(** C7, as amended. In the script's binary64 arithmetic, for a finite
    positive digit width and finite widths [w1 <= w2], the pixel width
    of [w1] is at most that of [w2]; a width that is not above zero
    gives 0, which is below every other pixel width. *)
Theorem calcColumnWidthPx_monotone (mdw w1 w2 : float) :
  positive mdw ->
  isFinite w1 = true ->
  isFinite w2 = true ->
  le w1 w2 ->
  le (calcColumnWidthPx mdw w1) (calcColumnWidthPx mdw w2).
Proof.
  intros Hm Hf1 Hf2 Hle. unfold calcColumnWidthPx.
  rewrite Hf1, Hf2. cbn [negb]. cbv zeta.
  unfold effective_mdw. rewrite (positive_truthy mdw Hm).
  destruct (leb w1 (lit 0)) eqn:H1; destruct (leb w2 (lit 0)) eqn:H2.
  - apply le_spec. reflexivity.
  - assert (positive w2) as Hw2 by (split; assumption).
    apply (pixels_ordered mdw w2 w2 Hm).
    now apply ordered_refl, positive_nonneg.
  - pose proof (le_zero w1 w2 Hle H2) as Habs. unfold le in Habs. congruence.
  - assert (positive w1) as Hw1 by (split; assumption).
    apply (pixels_ordered mdw w1 w2 Hm).
    split; [now apply positive_nonneg | exact Hle].
Qed.

(** The conversion in binary64 at the default width 8.43 and digit
    width 7: 64 pixels. *)
Lemma calcColumnWidthPx_formula_witness :
  (leb 8.43%float (lit 0) = true ->
   calcColumnWidthPx 7%float 8.43%float = lit 0)
  /\ (leb 8.43%float (lit 0) = false ->
      calcColumnWidthPx 7%float 8.43%float =
      add (floor (mul (div (add (mul (lit 256) 8.43%float)
                                (floor (div (lit 128) 7%float)))
                           (lit 256)) 7%float))
          (lit 5))
  /\ calcColumnWidthPx 7%float 8.43%float = spec_width_px 7%float 8.43%float.
Proof.
  apply (calcColumnWidthPx_formula (num := float) 7%float 8.43%float);
    reflexivity.
Defined.

(** The default width 8.43 and the width 100 at the digit width 7. *)
Lemma calcColumnWidthPx_monotone_witness :
  le (calcColumnWidthPx 7%float 8.43%float) (calcColumnWidthPx 7%float 100%float).
Proof.
  apply (calcColumnWidthPx_monotone 7%float 8.43%float 100%float).
  - split; reflexivity.
  - reflexivity.
  - reflexivity.
  - reflexivity.
Defined.

(** C7 as stated fails in the script's arithmetic: a width that is not
    finite takes the fixed 64 pixels, below the 705 pixels of
    width 100. *)
Lemma calcColumnWidthPx_not_monotone :
  PrimFloat.leb 100 PrimFloat.infinity = true
  /\ calcColumnWidthPx 7%float 100%float = 705%float
  /\ calcColumnWidthPx 7%float PrimFloat.infinity = 64%float
  /\ PrimFloat.leb (calcColumnWidthPx 7%float 100%float)
                   (calcColumnWidthPx 7%float PrimFloat.infinity) = false.
Proof. repeat split; vm_compute; reflexivity. Qed.

End ColumnWidthFacts.

(** ** Freeze panes *)

Module FreezeFacts.
Import Sheet.

Lemma splitCount_parseInt (a : option string) :
  splitCount a = Js.or_zero (Js.parseInt_attr a).
Proof. destruct a as [[|c s]|]; reflexivity. Qed.

Lemma hex_val_nonneg (c : ascii) (d : Z) : Js.hex_val c = Some d -> 0 <= d.
Proof.
  unfold Js.hex_val. intros Hd.
  repeat match type of Hd with
         | (if ?b then _ else _) = _ => destruct b eqn:?
         end; inversion Hd; lia.
Qed.

Lemma digits_prefix_nonneg (radix : Z) (s : string) (acc : option Z) (n : Z) :
  0 <= radix -> 0 <= default 0 acc ->
  Js.digits_prefix radix s acc = Some n -> 0 <= n.
Proof.
  intros Hr. revert acc. induction s as [|c s IH]; intros acc Hacc; cbn.
  - intros ->. exact Hacc.
  - destruct (Js.hex_val c) as [d|] eqn:Hd; [| intros ->; exact Hacc].
    destruct (d <? radix); [| intros ->; exact Hacc].
    apply IH. cbn. apply hex_val_nonneg in Hd. nia.
Qed.

(** [parseInt] yields a negative number only from a text whose first
    character after the white space is a minus sign. *)
Lemma parseInt_negative (s : string) (n : Z) :
  Js.parseInt s = Some n -> n < 0 -> exists r, Js.trim_start s = String "-" r.
Proof.
  unfold Js.parseInt, Js.parseInt_radix, Js.strip_sign. intros Hp Hn.
  assert (forall t m,
            (let '(radix, u) := Js.strip_hex_prefix 10 t in
             match Js.digits_prefix radix u None with
             | Some k => Some (if false then - k else k)
             | None => None
             end) = Some m -> 0 <= m) as Hpos.
  { intros t m. destruct (Js.strip_hex_prefix 10 t) as [radix u] eqn:Hx.
    destruct (Js.digits_prefix radix u None) as [k|] eqn:E; [| discriminate].
    intros Hm. inversion Hm; subst.
    eapply digits_prefix_nonneg; [| | exact E]; [| cbn; lia].
    unfold Js.strip_hex_prefix in Hx.
    repeat match type of Hx with
           | context [match ?x with _ => _ end] => destruct x
           end; inversion Hx; lia. }
  destruct (Js.trim_start s) as [|c r] eqn:Ht.
  - apply Hpos in Hp. lia.
  - destruct (Ascii.eqb c "-") eqn:Hc.
    + apply Ascii.eqb_eq in Hc. subst c. now exists r.
    + destruct (Ascii.eqb c "+"); apply Hpos in Hp; lia.
Qed.

(** C9, as amended. The result is frozen exactly when a pane declares
    the state frozen or frozenSplit; when it is not, both counts are 0;
    when it is, the counts are what [parseInt] reads from [ySplit] and
    [xSplit], 0 for an absent, empty or non-numeric attribute, and so
    negative only for an attribute whose text, after the white space
    that [parseInt] skips, starts with a minus sign. *)
Theorem parseFreezePanes_spec (doc : sheetDoc) :
  (isFrozen (parseFreezePanes doc) = true <->
   exists pane, doc_pane doc = Some pane /\ frozenState pane)
  /\ (isFrozen (parseFreezePanes doc) = false ->
      frozenRows (parseFreezePanes doc) = 0
      /\ frozenCols (parseFreezePanes doc) = 0)
  /\ (forall pane,
        doc_pane doc = Some pane -> frozenState pane ->
        frozenRows (parseFreezePanes doc)
        = Js.or_zero (Js.parseInt_attr (pane_ySplit pane))
        /\ frozenCols (parseFreezePanes doc)
           = Js.or_zero (Js.parseInt_attr (pane_xSplit pane)))
  /\ (frozenRows (parseFreezePanes doc) < 0 ->
      exists pane text rest,
        doc_pane doc = Some pane /\ pane_ySplit pane = Some text
        /\ Js.trim_start text = String "-" rest)
  /\ (frozenCols (parseFreezePanes doc) < 0 ->
      exists pane text rest,
        doc_pane doc = Some pane /\ pane_xSplit pane = Some text
        /\ Js.trim_start text = String "-" rest).
Proof.
  assert (forall a, Js.or_zero (Js.parseInt_attr a) < 0 ->
            exists text rest, a = Some text
                              /\ Js.trim_start text = String "-" rest) as Hneg.
  { intros [text|]; cbn; [| lia].
    destruct (Js.parseInt text) as [n|] eqn:Hp; cbn; [| lia].
    intros Hn. destruct (parseInt_negative _ _ Hp Hn) as [rest Hr].
    now exists text, rest. }
  unfold parseFreezePanes, frozenState.
  destruct (doc_pane doc) as [pane|]; cbn.
  2:{ split; [split; [discriminate | intros (p & Hp & _); discriminate] |].
      repeat split; intros; try lia; discriminate. }
  assert (negb (bool_decide (pane_state pane = Some "frozen"))
          && negb (bool_decide (pane_state pane = Some "frozenSplit")) = false
          <-> (pane_state pane = Some "frozen"
               \/ pane_state pane = Some "frozenSplit")) as Hstate.
  { rewrite andb_false_iff, !negb_false_iff, !bool_decide_eq_true.
    reflexivity. }
  destruct (negb (bool_decide (pane_state pane = Some "frozen"))
            && negb (bool_decide (pane_state pane = Some "frozenSplit")));
    cbn; rewrite ?splitCount_parseInt.
  - assert (~ (pane_state pane = Some "frozen"
               \/ pane_state pane = Some "frozenSplit")) as Hno.
    { intros Hs. apply Hstate in Hs. discriminate. }
    split; [split; [discriminate |] |].
    { intros (p & Hp & Hs). inversion Hp; subst. contradiction. }
    repeat split; intros; try lia.
    all: match goal with
         | Hp : Some _ = Some _ |- _ => inversion Hp; subst; contradiction
         end.
  - split; [split; [intros _; exists pane; split; [reflexivity |];
                    now apply Hstate | reflexivity] |].
    split; [discriminate |].
    split; [intros p Hp _; inversion Hp; subst; split; reflexivity |].
    split; intros Hn; apply Hneg in Hn as (text & rest & Ha & Hr);
      exists pane, text, rest; auto.
Qed.

(** Two frozen rows and one frozen column. *)
Lemma parseFreezePanes_spec_witness :
  frozenRows (parseFreezePanes Examples.frozen_header) = 2
  /\ frozenCols (parseFreezePanes Examples.frozen_header) = 1.
Proof.
  pose proof (parseFreezePanes_spec Examples.frozen_header)
    as (_ & _ & Hcounts & _).
  apply (Hcounts _ eq_refl). now left.
Defined.

(** C9 as stated fails: the frozen-row count of that worksheet is -3. *)
Lemma parseFreezePanes_negative :
  isFrozen (parseFreezePanes Examples.negative_split) = true
  /\ frozenRows (parseFreezePanes Examples.negative_split) = -3
  /\ ~ (0 <= frozenRows (parseFreezePanes Examples.negative_split)).
Proof.
  split; [reflexivity |]. split; [reflexivity |].
  change (frozenRows (parseFreezePanes Examples.negative_split)) with (-3). lia.
Qed.

End FreezeFacts.

(** ** Alignment inheritance in the style tables *)

Module StyleFacts.
Import Style.

Lemma arr_get_fmap {A B} (f : A -> B) (l : list A) (i : option Z) :
  Js.arr_get (f <$> l) i = f <$> Js.arr_get l i.
Proof.
  destruct i as [z|]; cbn; [| reflexivity].
  destruct (z <? 0); [reflexivity | apply list_lookup_fmap].
Qed.

Lemma parseCellXfs_lookup (baseElems cellElems : list xfElem) (i : nat) :
  parseCellXfs baseElems cellElems !! i
  = (fun e => inheritAlignment (parseBaseXf <$> baseElems) (parseCellXf e))
      <$> cellElems !! i.
Proof.
  unfold parseCellXfs. rewrite !list_lookup_fmap.
  now destruct (cellElems !! i).
Qed.

(** The pass touches no field but the alignment. *)
Lemma inheritAlignment_fields (base : list baseXf) (s : cellXf) :
  fontId (inheritAlignment base s) = fontId s
  /\ fillId (inheritAlignment base s) = fillId s
  /\ borderId (inheritAlignment base s) = borderId s
  /\ numFmtId (inheritAlignment base s) = numFmtId s
  /\ xfId (inheritAlignment base s) = xfId s
  /\ applyAlignment (inheritAlignment base s) = applyAlignment s.
Proof.
  unfold inheritAlignment, set_alignment. destruct s; cbn.
  repeat case_match; cbn; repeat split; reflexivity.
Qed.

(** C8. For the [i]-th [xf] element [e] of [cellXfs], the entry that
    [parseStyles] leaves in the table has: no alignment when
    [applyAlignment] is "0", whatever the parent; the parent's alignment
    when [e] has none of its own, does not switch alignment off and
    names a base style that carries one; and in every other case the
    alignment of [e] itself. *)
Theorem alignment_inheritance
    (baseElems cellElems : list xfElem) (i : nat) (e : xfElem) :
  cellElems !! i = Some e ->
  exists st,
    parseCellXfs baseElems cellElems !! i = Some st
    /\ (xe_applyAlignment e = Some "0" -> xf_alignment st = None)
    /\ (forall idText parent a,
          xe_applyAlignment e <> Some "0" ->
          xe_alignment e = None ->
          xe_xfId e = Some idText ->
          Js.arr_get baseElems (Js.parseInt idText) = Some parent ->
          xe_alignment parent = Some a ->
          xf_alignment st = Some (parseAlignment a))
    /\ (xe_applyAlignment e <> Some "0" ->
        is_Some (xe_alignment e)
        \/ xe_xfId e = None
        \/ (forall idText,
              xe_xfId e = Some idText ->
              Js.arr_get baseElems (Js.parseInt idText) ≫= xe_alignment
              = None) ->
        xf_alignment st = parseAlignment <$> xe_alignment e).
Proof.
  intros He. eexists. rewrite parseCellXfs_lookup, He.
  split; [reflexivity |].
  unfold inheritAlignment. cbn.
  destruct (bool_decide (xe_applyAlignment e = Some "0")) eqn:Hoff.
  - apply bool_decide_eq_true in Hoff.
    split; [reflexivity |]. split; intros; contradiction.
  - apply bool_decide_eq_false in Hoff.
    split; [contradiction |]. split.
    + intros idText parent a _ Hown Hid Hparent Ha.
      rewrite Hown, Hid. cbn. rewrite arr_get_fmap, Hparent. cbn.
      now rewrite Ha.
    + intros _ Hcase.
      destruct (xe_alignment e) as [own|] eqn:Hown; cbn.
      * now rewrite Hown.
      * destruct Hcase as [[x Hx] | [Hid | Hnone]]; [discriminate | |].
        -- rewrite Hid. cbn. now rewrite Hown.
        -- destruct (xe_xfId e) as [idText|] eqn:Hid; cbn;
             [| now rewrite Hown].
           specialize (Hnone idText eq_refl). rewrite arr_get_fmap.
           destruct (Js.arr_get baseElems (Js.parseInt idText)) as [parent|];
             cbn in *; [| now rewrite Hown].
           now rewrite Hnone.
Qed.

(** A format without alignment that names base style 0, which centres. *)
Lemma alignment_inheritance_witness :
  exists st,
    parseCellXfs [Examples.xf_with None None (Some Examples.centred)]
                 [Examples.xf_with (Some "0") None None] !! 0%nat = Some st
    /\ (xe_applyAlignment (Examples.xf_with (Some "0") None None) = Some "0" ->
        xf_alignment st = None)
    /\ (forall idText parent a,
          xe_applyAlignment (Examples.xf_with (Some "0") None None) <> Some "0" ->
          xe_alignment (Examples.xf_with (Some "0") None None) = None ->
          xe_xfId (Examples.xf_with (Some "0") None None) = Some idText ->
          Js.arr_get [Examples.xf_with None None (Some Examples.centred)]
                     (Js.parseInt idText) = Some parent ->
          xe_alignment parent = Some a ->
          xf_alignment st = Some (parseAlignment a))
    /\ (xe_applyAlignment (Examples.xf_with (Some "0") None None) <> Some "0" ->
        is_Some (xe_alignment (Examples.xf_with (Some "0") None None))
        \/ xe_xfId (Examples.xf_with (Some "0") None None) = None
        \/ (forall idText,
              xe_xfId (Examples.xf_with (Some "0") None None) = Some idText ->
              Js.arr_get [Examples.xf_with None None (Some Examples.centred)]
                         (Js.parseInt idText) ≫= xe_alignment
              = None) ->
        xf_alignment st
        = parseAlignment <$> xe_alignment (Examples.xf_with (Some "0") None None)).
Proof.
  apply (alignment_inheritance
           [Examples.xf_with None None (Some Examples.centred)]
           [Examples.xf_with (Some "0") None None] 0%nat
           (Examples.xf_with (Some "0") None None)).
  reflexivity.
Defined.

End StyleFacts.

(** ** Colour resolution *)

Module ColorFacts.
Import Style Color.

Lemma indexedColors_hash (i : nat) (c : string) :
  indexedColors !! i = Some c -> exists r, c = String "#" r.
Proof.
  intros Hc.
  assert (Forall (fun c => exists r, c = String "#" r) indexedColors) as Hall.
  { unfold indexedColors. repeat constructor; eexists; reflexivity. }
  rewrite Forall_lookup in Hall. exact (Hall i c Hc).
Qed.

Lemma applyTint_hash (hexColor : string) (tint : float) :
  exists rest, applyTint hexColor tint = String "#" rest.
Proof.
  unfold applyTint. cbv zeta.
  repeat match goal with
         | |- context [let '(_, _) := ?e in _] => destruct e
         end.
  eexists. reflexivity.
Qed.

Lemma arr_get_indexed (indexed : option Z) :
  Js.arr_get indexedColors indexed
  = match indexed with
    | Some z => if (0 <=? z) && (z <? 64) then indexedColors !! Z.to_nat z
                else None
    | None => None
    end.
Proof.
  destruct indexed as [z|]; cbn [Js.arr_get]; [| reflexivity].
  destruct (Z.ltb_spec z 0) as [Hneg | Hpos].
  - replace (0 <=? z) with false by (symmetry; apply Z.leb_gt; lia).
    reflexivity.
  - replace (0 <=? z) with true by (symmetry; apply Z.leb_le; lia). cbn.
    destruct (Z.ltb_spec z 64) as [Hlt | Hge]; [reflexivity |].
    apply lookup_ge_None. change (length indexedColors) with 64%nat. lia.
Qed.

(** C6. [resolveColor] yields a result for every colour reference and
    theme palette, [null] or a text that starts with ['#']: none of its
    steps can raise.  An indexed reference resolves exactly when its
    index is one of the 64 entries of the legacy palette; outside of it,
    at a negative index, at 64 and above and at NaN, the result is
    [null]. *)
Theorem resolveColor_total (themeColors : gmap Z (option string)) :
  (forall colorObj,
      resolveColor themeColors colorObj = None
      \/ exists rest, resolveColor themeColors colorObj = Some (String "#" rest))
  /\ (forall indexed,
        ~ (exists z, indexed = Some z /\ 0 <= z < 64) ->
        resolveColor themeColors (Some (Indexed indexed)) = None)
  /\ (forall z,
        0 <= z < 64 ->
        resolveColor themeColors (Some (Indexed (Some z)))
        = indexedColors !! Z.to_nat z
        /\ is_Some (resolveColor themeColors (Some (Indexed (Some z))))).
Proof.
  split; [| split].
  - intros [[argb | theme tint | indexed] |]; unfold resolveColor;
      [| | | now left].
    + destruct (String.eqb argb ""); [now left |].
      destruct (Js.strlen argb =? 8); right; eexists; reflexivity.
    + destruct (themeBase themeColors theme); [| now left].
      destruct (Num.truthy tint && negb (tint =? 0)%float); right.
      * destruct (applyTint_hash ("#" ++ s) tint) as [rest ->].
        now exists rest.
      * eexists. reflexivity.
    + destruct (Js.arr_get indexedColors indexed) as [c|] eqn:Hc; [| now left].
      right. rewrite arr_get_indexed in Hc.
      destruct indexed as [z|]; [| discriminate].
      destruct ((0 <=? z) && (z <? 64)); [| discriminate].
      destruct (indexedColors_hash _ _ Hc) as [r ->]. now exists r.
  - intros indexed Hout. unfold resolveColor. rewrite arr_get_indexed.
    destruct indexed as [z|]; [| reflexivity].
    destruct ((0 <=? z) && (z <? 64)) eqn:Hin; [| reflexivity].
    exfalso. apply Hout. exists z. split; [reflexivity | lia].
  - intros z Hz. unfold resolveColor. rewrite arr_get_indexed.
    replace ((0 <=? z) && (z <? 64)) with true by (symmetry; lia).
    split; [reflexivity |].
    apply lookup_lt_is_Some. change (length indexedColors) with 64%nat. lia.
Qed.

(** Index 64 is the first one outside the palette. *)
Lemma resolveColor_total_witness :
  resolveColor ∅ (Some (Indexed (Some 64))) = None.
Proof.
  pose proof (resolveColor_total ∅) as (_ & Houtside & _).
  apply Houtside. intros (z & Hz & Hrange). inversion Hz. lia.
Defined.

End ColorFacts.

(** ** Borders of a merged range *)

Module MergedBordersFacts.
Import Style MergedBorders.

Section Aggregation.
Context (host : Host) (T : tables) (currentMaxCol : Z)
        (resolveStyleIndex : option Z -> Z -> option Z).

Lemma getBorder_setBorder (sd sd' : side) (v : string) (td : tdStyle) :
  getBorder sd' (setBorder sd v td)
  = if decide (sd = sd') then v else getBorder sd' td.
Proof. destruct sd, sd'; reflexivity. Qed.

Lemma setBorder_getBorder (sd : side) (td : tdStyle) :
  setBorder sd (getBorder sd td) td = td.
Proof. destruct sd, td; reflexivity. Qed.

Lemma setBorder_setBorder (sd : side) (v w : string) (td : tdStyle) :
  setBorder sd v (setBorder sd w td) = setBorder sd v td.
Proof. destruct sd, td; reflexivity. Qed.

(** A block writes its own property, and writes there what [sideAfter]
    says. *)
Lemma fillSide_sideAfter (startCol endCol : Z) (sd : side)
    (cells : list (Z * Z)) (td : tdStyle) :
  fillSide host T currentMaxCol resolveStyleIndex startCol endCol sd cells td
  = setBorder sd
      (sideAfter host T currentMaxCol resolveStyleIndex startCol endCol sd
         cells (getBorder sd td))
      td.
Proof.
  unfold sideAfter, fillSide, applyBorderSide, assignBorder.
  rewrite getBorder_setBorder. destruct (decide (sd = sd)); [| contradiction].
  repeat case_match;
    rewrite ?getBorder_setBorder;
    repeat (destruct (decide _); try contradiction);
    rewrite ?setBorder_getBorder; reflexivity.
Qed.

(** A property that is set is left as it is. *)
Lemma sideAfter_set (startCol endCol : Z) (sd : side)
    (cells : list (Z * Z)) (before : string) :
  before <> "" ->
  sideAfter host T currentMaxCol resolveStyleIndex startCol endCol sd cells
    before = before.
Proof.
  intros Hset. unfold sideAfter, fillSide.
  rewrite getBorder_setBorder. destruct (decide (sd = sd)); [| contradiction].
  destruct (String.eqb_spec before ""); [contradiction |].
  rewrite getBorder_setBorder. now destruct (decide (sd = sd)).
Qed.

Lemma sideAfter_idempotent (startCol endCol : Z) (sd : side)
    (cells : list (Z * Z)) (before : string) :
  sideAfter host T currentMaxCol resolveStyleIndex startCol endCol sd cells
    (sideAfter host T currentMaxCol resolveStyleIndex startCol endCol sd cells
       before)
  = sideAfter host T currentMaxCol resolveStyleIndex startCol endCol sd cells
      before.
Proof.
  destruct (String.eqb_spec before "") as [-> | Hset].
  - destruct (String.eqb_spec
                (sideAfter host T currentMaxCol resolveStyleIndex startCol
                   endCol sd cells "") "") as [Hnone | Hnow];
      [rewrite Hnone; exact Hnone | now apply sideAfter_set].
  - now rewrite !(sideAfter_set _ _ _ _ _ Hset).
Qed.

(** The four blocks, each on its own property. *)
Lemma applyMergedBorders_sides (rowNum colNum rowspan colspan : Z)
    (td : tdStyle) :
  exists after : side -> string -> string,
    (forall sd before, before <> "" -> after sd before = before)
    /\ (forall sd before, after sd (after sd before) = after sd before)
    /\ forall td,
        applyMergedBorders host T currentMaxCol resolveStyleIndex
          rowNum colNum rowspan colspan td
        = {| borderTop := after top (borderTop td);
             borderRight := after right (borderRight td);
             borderBottom := after bottom (borderBottom td);
             borderLeft := after left (borderLeft td) |}.
Proof.
  set (endRow := rowNum + rowspan - 1).
  set (endCol := colNum + colspan - 1).
  set (cols := seqZ colNum (endCol - colNum + 1)).
  set (rows := seqZ rowNum (endRow - rowNum + 1)).
  exists (fun sd =>
            sideAfter host T currentMaxCol resolveStyleIndex colNum endCol sd
              match sd with
              | top => (fun c => (rowNum, c)) <$> cols
              | bottom => (fun c => (endRow, c)) <$> cols
              | left => (fun r => (r, colNum)) <$> rows
              | right => (fun r => (r, endCol)) <$> rows
              end).
  split; [intros; now apply sideAfter_set |].
  split; [intros; apply sideAfter_idempotent |].
  intros td'. unfold applyMergedBorders. cbv zeta.
  fold endRow endCol. fold cols rows.
  rewrite !fillSide_sideAfter. destruct td'; reflexivity.
Qed.

(** C5. Each side of the anchor is scanned for only while its border
    property is unset: a side that is set is left as it is, so an anchor
    whose four sides are set is returned unchanged, and running the
    aggregation a second time changes nothing in any case. *)
Theorem applyMergedBorders_idempotent
    (rowNum colNum rowspan colspan : Z) (td : tdStyle) :
  (forall sd,
      getBorder sd td <> "" ->
      getBorder sd (applyMergedBorders host T currentMaxCol resolveStyleIndex
                      rowNum colNum rowspan colspan td)
      = getBorder sd td)
  /\ ((forall sd, getBorder sd td <> "") ->
      applyMergedBorders host T currentMaxCol resolveStyleIndex
        rowNum colNum rowspan colspan td = td)
  /\ applyMergedBorders host T currentMaxCol resolveStyleIndex
       rowNum colNum rowspan colspan
       (applyMergedBorders host T currentMaxCol resolveStyleIndex
          rowNum colNum rowspan colspan td)
     = applyMergedBorders host T currentMaxCol resolveStyleIndex
         rowNum colNum rowspan colspan td.
Proof.
  destruct (applyMergedBorders_sides rowNum colNum rowspan colspan td)
    as (after & Hset & Hidem & Hshape).
  split; [| split].
  - intros sd Hsd. rewrite Hshape. destruct sd; cbn in *; now apply Hset.
  - intros Hall. rewrite Hshape. destruct td; cbn.
    rewrite (Hset top), (Hset right), (Hset bottom), (Hset left);
      [reflexivity | apply (Hall left) | apply (Hall bottom)
       | apply (Hall right) | apply (Hall top)].
  - rewrite !Hshape. cbn. now rewrite !Hidem.
Qed.

End Aggregation.

(** An anchor with four borders set keeps them, although every cell of
    the range declares thin black borders. *)
Lemma applyMergedBorders_idempotent_witness :
  applyMergedBorders Examples.beijing Examples.boxed_tables 5
    (fun _ _ => Some 0) 2 2 2 2 Examples.boxed = Examples.boxed.
Proof.
  pose proof (applyMergedBorders_idempotent Examples.beijing
                Examples.boxed_tables 5 (fun _ _ => Some 0) 2 2 2 2
                Examples.boxed) as (_ & Hset & _).
  apply Hset. intros sd. destruct sd; discriminate.
Defined.

End MergedBordersFacts.

(** ** The style cascade *)

Module CascadeFacts.
Import Style Sheet.

(** A map filled by a loop of conditional writes holds, at a key, the
    value of the last write to that key. *)
Lemma foldl_insert_last `{Countable K} {A B}
    (key : B -> K) (val : B -> option A) (l : list B) (m0 : gmap K A) (k : K) :
  foldl (fun m x =>
           match val x with
           | Some v => <[key x := v]> m
           | None => m
           end) m0 l !! k
  = match last (omap (fun x => if bool_decide (key x = k) then val x else None)
                     l) with
    | Some v => Some v
    | None => m0 !! k
    end.
Proof.
  induction l as [|x l IH] using rev_ind; [reflexivity |].
  rewrite foldl_snoc, omap_app, last_app. cbn.
  destruct (val x) as [v|] eqn:Hv.
  - destruct (bool_decide (key x = k)) eqn:Hk.
    + apply bool_decide_eq_true in Hk. subst k. cbn.
      apply lookup_insert_eq.
    + apply bool_decide_eq_false in Hk. cbn.
      rewrite lookup_insert_ne by exact Hk. exact IH.
  - destruct (bool_decide (key x = k)); cbn; exact IH.
Qed.

Lemma foldl_nested {A B C} (f : A -> C -> A) (g : B -> list C)
    (l : list B) (a : A) :
  foldl (fun a x => foldl f a (g x)) a l = foldl f a (l ≫= g).
Proof.
  revert a. induction l as [|x l IH]; intros a; [reflexivity |].
  cbn. rewrite foldl_app. apply IH.
Qed.

Lemma cellStyleMap_lookup (doc : sheetDoc) (r c : Z) :
  cellStyleMap (buildStyleMaps doc) !! (r, c) = cellLevelStyle doc (Some r) c.
Proof.
  cbn. rewrite (foldl_nested addCellStyle row_cells).
  unfold addCellStyle.
  rewrite (foldl_insert_last (fun ce => cellRef (c_r ce))
             (fun ce => c_s ce ≫= Js.parseInt)).
  rewrite lookup_empty. unfold declaredStyle.
  now destruct (last _).
Qed.

Lemma rowStyleMap_lookup (doc : sheetDoc) (r : option Z) :
  rowStyleMap (buildStyleMaps doc) !! r = rowLevelStyle doc r.
Proof.
  cbn. unfold addRowStyle.
  rewrite (foldl_insert_last rowNumOf (fun row => row_s row ≫= Js.parseInt)).
  rewrite lookup_empty. unfold rowLevelStyle, declaredStyle.
  now destruct (last _).
Qed.

(** Writing one value at every key of a list. *)
Lemma foldl_insert_all {A} (v : A) (l : list Z) (m0 : gmap Z A) (k : Z) :
  foldl (fun m i => <[i := v]> m) m0 l !! k
  = if bool_decide (k ∈ l) then Some v else m0 !! k.
Proof.
  revert m0. induction l as [|i l IH]; intros m0; cbn.
  - rewrite bool_decide_eq_false_2; [reflexivity | apply not_elem_of_nil].
  - rewrite IH. destruct (decide (k ∈ l)) as [Hin | Hout].
    + rewrite !bool_decide_eq_true_2; [reflexivity | now right | exact Hin].
    + rewrite (bool_decide_eq_false_2 (k ∈ l)) by exact Hout.
      destruct (decide (i = k)) as [-> | Hne].
      * rewrite bool_decide_eq_true_2 by now left. apply lookup_insert_eq.
      * rewrite bool_decide_eq_false_2.
        -- now apply lookup_insert_ne.
        -- intros Hin. apply elem_of_cons in Hin as [-> | Hin]; contradiction.
Qed.

Lemma covers_colRange (col : colElem) (c : Z) :
  covers col c = true
  <-> c ∈ colRange (Js.parseInt_attr (col_min col))
                   (Js.parseInt_attr (col_max col)).
Proof.
  unfold covers, colRange.
  destruct (Js.parseInt_attr (col_min col)) as [a|];
    [| split; [discriminate | intros Hin; now apply not_elem_of_nil in Hin]].
  destruct (Js.parseInt_attr (col_max col)) as [b|];
    [| split; [discriminate | intros Hin; now apply not_elem_of_nil in Hin]].
  rewrite elem_of_seqZ. lia.
Qed.

Lemma addCol_styles (acc : gmap Z float * gmap Z Z) (col : colElem) (c : Z) :
  (addCol acc col).2 !! c
  = match (if covers col c then colStyleIndex col else None) with
    | Some idx => Some idx
    | None => acc.2 !! c
    end.
Proof.
  unfold addCol.
  set (range := colRange _ _).
  assert (forall l (a : gmap Z float * gmap Z Z),
            (foldl (fun '(colWidths, colStyles) i =>
                      (<[i := colWidth col]> colWidths,
                       match colStyleIndex col with
                       | Some styleIndex => <[i := styleIndex]> colStyles
                       | None => colStyles
                       end)) a l).2
            = match colStyleIndex col with
              | Some styleIndex =>
                  foldl (fun m i => <[i := styleIndex]> m) a.2 l
              | None => a.2
              end) as Hsnd.
  { induction l as [|i l IH]; intros [w s]; cbn.
    - now destruct (colStyleIndex col).
    - rewrite IH. now destruct (colStyleIndex col). }
  rewrite Hsnd.
  destruct (covers col c) eqn:Hc.
  - apply covers_colRange in Hc. fold range in Hc.
    destruct (colStyleIndex col) as [idx|]; [| reflexivity].
    rewrite foldl_insert_all. now rewrite bool_decide_eq_true_2.
  - assert (c ∉ range) as Hout.
    { intros Hin. apply covers_colRange in Hin. congruence. }
    destruct (colStyleIndex col) as [idx|]; [| reflexivity].
    rewrite foldl_insert_all. now rewrite bool_decide_eq_false_2.
Qed.

Lemma colStyles_lookup (doc : sheetDoc) (c : Z) :
  colStyles (buildStyleMaps doc) !! c = colLevelStyle doc c.
Proof.
  cbn. unfold parseCols, colLevelStyle.
  assert (forall l acc,
            (foldl addCol acc l).2 !! c
            = match last (omap (fun col => if covers col c
                                           then colStyleIndex col else None) l)
              with
              | Some idx => Some idx
              | None => acc.2 !! c
              end) as Hfold.
  { induction l as [|col l IH] using rev_ind; intros acc; [reflexivity |].
    rewrite foldl_snoc, addCol_styles, omap_app, last_app. cbn.
    destruct (if covers col c then colStyleIndex col else None); cbn;
      [reflexivity | apply IH]. }
  rewrite Hfold. cbn. rewrite lookup_empty. now destruct (last _).
Qed.

(** C2. [resolveStyleIndex] on the maps [renderSheet] builds returns the
    style the cell declares; failing that, the style its row declares;
    failing that, the style of a column definition that covers the
    column; failing that, [null].  So a cell without a style of its own
    in a row of style [R] and a column of style [C] resolves to [R]. *)
Theorem resolveStyleIndex_cascade (doc : sheetDoc) (r : option Z) (c : Z) :
  resolveStyleIndex (buildStyleMaps doc) r c
  = match cellLevelStyle doc r c with
    | Some idx => Some idx
    | None =>
        match rowLevelStyle doc r with
        | Some idx => Some idx
        | None => colLevelStyle doc c
        end
    end
  /\ forall R C,
       cellLevelStyle doc r c = None ->
       rowLevelStyle doc r = Some R ->
       colLevelStyle doc c = Some C ->
       resolveStyleIndex (buildStyleMaps doc) r c = Some R.
Proof.
  assert (resolveStyleIndex (buildStyleMaps doc) r c
          = match cellLevelStyle doc r c with
            | Some idx => Some idx
            | None =>
                match rowLevelStyle doc r with
                | Some idx => Some idx
                | None => colLevelStyle doc c
                end
            end) as Hcascade.
  { unfold resolveStyleIndex, at_rc.
    rewrite rowStyleMap_lookup, colStyles_lookup.
    destruct r as [r|]; cbn [mbind option_bind].
    - rewrite cellStyleMap_lookup. now destruct (colLevelStyle doc c).
    - now destruct (colLevelStyle doc c). }
  split; [exact Hcascade |].
  intros R C Hcell Hrow _. now rewrite Hcascade, Hcell, Hrow.
Qed.

(** Cell B2 has no style, row 2 has style 7 and column B style 9. *)
Lemma resolveStyleIndex_cascade_witness :
  resolveStyleIndex (buildStyleMaps Examples.styled_row_and_column) (Some 2) 2
  = Some 7.
Proof.
  pose proof (resolveStyleIndex_cascade Examples.styled_row_and_column
                (Some 2) 2) as (_ & Hrow).
  apply (Hrow 7 9); vm_compute; reflexivity.
Defined.

End CascadeFacts.

(** ** Bounds of the rendered grid *)

Module GridFacts.
Import Sheet Grid.

Lemma scanMaxCol_ge_1 (rows : list rowElem) : 1 <= scanMaxCol rows.
Proof.
  unfold scanMaxCol.
  assert (forall cells m, 1 <= m ->
            1 <= foldl (fun maxCol c =>
                          let ref := cellRef (c_r c) in
                          if maxCol <? ref.2 then ref.2 else maxCol) m cells)
    as Hcells.
  { induction cells as [|c cells IH]; intros m Hm; cbn; [exact Hm |].
    apply IH. destruct (Z.ltb_spec m (cellRef (c_r c)).2); lia. }
  assert (forall l m, 1 <= m ->
            1 <= foldl (fun maxCol row =>
                          foldl (fun maxCol c =>
                                   let ref := cellRef (c_r c) in
                                   if maxCol <? ref.2 then ref.2 else maxCol)
                                maxCol (row_cells row)) m l) as Hrows.
  { induction l as [|row l IH]; intros m Hm; cbn; [exact Hm |].
    apply IH, Hcells, Hm. }
  apply Hrows. lia.
Qed.

Lemma computeMaxCol_bounds (rows : list rowElem) :
  1 <= computeMaxCol rows <= 100.
Proof. unfold computeMaxCol. pose proof (scanMaxCol_ge_1 rows). lia. Qed.

(** The filler loop stops because its condition fails, not because the
    bound on its turns is reached; the rows it appends are numbered
    after [lastRow], below [rowNum] and up to 1000. *)
Lemma fillEmptyRows_spec (turns : nat) (lastRow rowNum maxCol : Z) :
  1000 - lastRow <= Z.of_nat turns ->
  let '(trs, final) := fillEmptyRows turns lastRow rowNum maxCol in
  ((final <? rowNum - 1) && (final <? 1000) = false)
  /\ lastRow <= final
  /\ Forall (fun tr => exists k, tr = emptyTr k maxCol
                                 /\ lastRow < k <= 1000 /\ k < rowNum) trs.
Proof.
  revert lastRow. induction turns as [|n IH]; intros lastRow Hturns; cbn.
  - split; [| split; [lia | constructor]].
    apply andb_false_iff. right. apply Z.ltb_ge. lia.
  - destruct ((lastRow <? rowNum - 1) && (lastRow <? 1000)) eqn:Hcond.
    + apply andb_true_iff in Hcond as [Hlt Hk%Z.ltb_lt]. apply Z.ltb_lt in Hlt.
      specialize (IH (lastRow + 1) ltac:(lia)).
      destruct (fillEmptyRows n (lastRow + 1) rowNum maxCol) as [trs final].
      destruct IH as (Hexit & Hle & Hall).
      split; [exact Hexit | split; [lia |]].
      constructor.
      * exists (lastRow + 1). split; [reflexivity | lia].
      * eapply Forall_impl; [exact Hall |].
        intros tr (k & -> & Hk1 & Hk2). exists k. split; [reflexivity | lia].
    + split; [exact Hcond | split; [lia | constructor]].
Qed.

Lemma cellMapOf_elem (row : rowElem) (c : Z) (ce : cellElem) :
  cellMapOf row !! c = Some ce ->
  ce ∈ row_cells row /\ (cellRef (c_r ce)).2 = c.
Proof.
  unfold cellMapOf.
  assert (forall l (m0 : gmap Z cellElem),
            foldl (fun m x => <[(cellRef (c_r x)).2 := x]> m) m0 l !! c
            = Some ce ->
            (ce ∈ l /\ (cellRef (c_r ce)).2 = c) \/ m0 !! c = Some ce) as Hfold.
  { induction l as [|x l IH]; intros m0 Hm; cbn in Hm; [now right |].
    apply IH in Hm as [[Hin Hk] | Hm].
    - left. split; [now right | exact Hk].
    - destruct (decide ((cellRef (c_r x)).2 = c)) as [Hk | Hk].
      + rewrite Hk, lookup_insert_eq in Hm. inversion Hm; subst x.
        left. split; [now left | exact Hk].
      + rewrite lookup_insert_ne in Hm by exact Hk. now right. }
  intros Hm. apply Hfold in Hm as [Hm | Hm]; [exact Hm |].
  rewrite lookup_empty in Hm. discriminate.
Qed.

Lemma length_omap_le {A B} (f : A -> option B) (l : list A) :
  (length (omap f l) <= length l)%nat.
Proof.
  induction l as [|x l IH]; cbn; [lia |].
  destruct (f x); cbn; lia.
Qed.

Lemma emptyTr_bounded (rows : list rowElem) (maxCol k : Z) :
  k <= 1000 -> bounded_tr rows maxCol (emptyTr k maxCol).
Proof.
  intros Hk. unfold bounded_tr, emptyTr. cbn.
  split; [intros n Hn; inversion Hn; lia |].
  split; [rewrite length_fmap, length_seqZ; lia |].
  split.
  { intros td Htd. apply list_elem_of_fmap in Htd as (c & -> & Hc).
    apply elem_of_seqZ in Hc. cbn. lia. }
  split; [discriminate |].
  intros _ td Htd. apply list_elem_of_fmap in Htd as (c & -> & Hc).
  reflexivity.
Qed.

Lemma renderRow_bounded (rows : list rowElem)
    (merges : gmap (Z * Z) mergeInfo) (maxCol : Z) (lastRow : option Z)
    (row : rowElem) :
  row ∈ rows ->
  Forall (bounded_tr rows maxCol) (renderRow merges maxCol lastRow row).1.
Proof.
  intros Hrow. unfold renderRow.
  assert (Forall (bounded_tr rows maxCol)
            match lastRow, rowNumOf row with
            | Some l, Some n =>
                (fillEmptyRows (Z.to_nat (1000 - l)) l n maxCol).1
            | _, _ => []
            end) as Hfill.
  { destruct lastRow as [l|]; [| constructor].
    destruct (rowNumOf row) as [n|]; [| constructor].
    pose proof (fillEmptyRows_spec (Z.to_nat (1000 - l)) l n maxCol
                  ltac:(lia)) as Hspec.
    destruct (fillEmptyRows _ l n maxCol) as [trs final].
    destruct Hspec as (_ & _ & Hall). cbn.
    eapply Forall_impl; [exact Hall |].
    intros tr (k & -> & Hk & _). apply emptyTr_bounded. lia. }
  destruct (Js.gt (rowNumOf row) 1000) eqn:Hgt; cbn; [exact Hfill |].
  apply Forall_app. split; [exact Hfill |].
  constructor; [| constructor].
  unfold bounded_tr. cbn.
  split.
  { intros n Hn. rewrite Hn in Hgt. cbn in Hgt. apply Z.ltb_ge in Hgt. lia. }
  split.
  { unfold renderCells. etransitivity; [apply length_omap_le |].
    rewrite length_seqZ. lia. }
  split.
  { intros td Htd. unfold renderCells in Htd.
    apply list_elem_of_omap in Htd as (c & Hc & Htd).
    apply elem_of_seqZ in Hc.
    destruct (at_rc merges (rowNumOf row) c) as [[]|];
      inversion Htd; subst; cbn; lia. }
  split; [| discriminate].
  intros row' Hrow'. inversion Hrow'; subst row'.
  split; [exact Hrow |]. split; [reflexivity |]. split; [exact Hgt |].
  intros td ce Htd Hce. unfold renderCells in Htd.
  apply list_elem_of_omap in Htd as (c & Hc & Htd).
  destruct (at_rc merges (rowNumOf row) c) as [[]|];
    inversion Htd; subst; cbn in *; now apply cellMapOf_elem.
Qed.

Lemma renderRows_bounded (all : list rowElem)
    (merges : gmap (Z * Z) mergeInfo) (maxCol : Z) (rows : list rowElem) :
  (forall row, row ∈ rows -> row ∈ all) ->
  Forall (bounded_tr all maxCol) (renderRows merges maxCol rows).
Proof.
  unfold renderRows. intros Hsub.
  assert (forall l acc,
            (forall row, row ∈ l -> row ∈ all) ->
            Forall (bounded_tr all maxCol) acc.1 ->
            Forall (bounded_tr all maxCol)
              (foldl (fun '(trs, lastRow) row =>
                        let '(more, lastRow) :=
                          renderRow merges maxCol lastRow row in
                        ((trs ++ more)%list, lastRow)) acc l).1) as Hfold.
  { induction l as [|row l IH]; intros [trs lastRow] Hl Hacc; [exact Hacc |].
    cbn. apply IH; [intros r Hr; apply Hl; now right |].
    pose proof (renderRow_bounded all merges maxCol lastRow row
                  (Hl row ltac:(now left))) as Hrow.
    destruct (renderRow merges maxCol lastRow row) as [more lastRow'].
    cbn in *. apply Forall_app. now split. }
  apply Hfold; [exact Hsub | constructor].
Qed.

(** C10. The table has at most 100 columns, numbered from 1 to
    [min(maxCol, 100)], and every row of its body has at most that many
    cells, in those columns.  A row element numbered above 1000 gives
    no row of the table: every row of the body that shows a row element
    shows one whose number is not above 1000, under that number, with
    cells that are cells of that element; the filler rows are empty and
    numbered up to 1000. *)
Theorem renderSheet_bounds (doc : sheetDoc) (g : grid) :
  renderSheet doc = Some g ->
  g_columns g = seqZ 1 (Z.min (scanMaxCol (doc_rows doc)) 100)
  /\ (1 <= length (g_columns g) <= 100)%nat
  /\ (forall c, c ∈ g_columns g -> 1 <= c <= 100)
  /\ forall tr,
       tr ∈ g_rows g ->
       (forall n, tr_label tr = Some n -> n <= 1000)
       /\ (length (tr_cells tr) <= 100)%nat
       /\ (forall td, td ∈ tr_cells tr -> td_col td ∈ g_columns g)
       /\ (forall row,
             tr_row tr = Some row ->
             row ∈ doc_rows doc
             /\ tr_label tr = rowNumOf row
             /\ Js.gt (rowNumOf row) 1000 = false
             /\ forall td ce,
                  td ∈ tr_cells tr -> td_cell td = Some ce ->
                  ce ∈ row_cells row /\ (cellRef (c_r ce)).2 = td_col td)
       /\ (tr_row tr = None ->
           forall td, td ∈ tr_cells tr -> td_cell td = None).
Proof.
  unfold renderSheet. intros Hg.
  destruct (doc_rows doc) as [|row0 rows] eqn:Hrows; [discriminate |].
  inversion Hg; subst g; clear Hg. cbn [g_columns g_rows].
  rewrite <- Hrows.
  pose proof (computeMaxCol_bounds (doc_rows doc)) as Hmax.
  fold (computeMaxCol (doc_rows doc)).
  split; [reflexivity |].
  split; [rewrite length_seqZ; lia |].
  split; [intros c Hc; apply elem_of_seqZ in Hc; lia |].
  intros tr Htr.
  pose proof (renderRows_bounded (doc_rows doc)
                (parseMerges (doc_merges doc)).1
                (computeMaxCol (doc_rows doc)) (doc_rows doc)
                (fun _ H => H)) as Hall.
  rewrite Forall_forall in Hall.
  destruct (Hall tr Htr) as (Hlabel & Hlen & Hcols & Hrow & Hfiller).
  split; [exact Hlabel |].
  split; [lia |].
  split; [intros td Htd; apply elem_of_seqZ; specialize (Hcols td Htd); lia |].
  split; [exact Hrow | exact Hfiller].
Qed.

(** A sheet with a cell in column 105 and a row numbered 1500: the
    table has 100 columns and no row numbered above 1000. *)
Lemma renderSheet_bounds_witness :
  exists g,
    renderSheet Examples.wide_and_deep = Some g
    /\ length (g_columns g) = 100%nat
    /\ (forall tr n, tr ∈ g_rows g -> tr_label tr = Some n -> n <= 1000)
    /\ (forall tr td, tr ∈ g_rows g -> td ∈ tr_cells tr -> td_col td <= 100).
Proof.
  eexists. split; [reflexivity |].
  pose proof (renderSheet_bounds Examples.wide_and_deep _ eq_refl)
    as (Hcolumns & _ & Hrange & Hrows).
  split; [rewrite Hcolumns; vm_compute; reflexivity |].
  split.
  - intros tr n Htr Hn. destruct (Hrows tr Htr) as (Hlabel & _).
    exact (Hlabel n Hn).
  - intros tr td Htr Htd. destruct (Hrows tr Htr) as (_ & _ & Hcols & _).
    apply Hrange, Hcols, Htd.
Defined.

End GridFacts.

(** ** The number formatter *)

Module FormatFacts.
Import Format.

Lemma formatWith_ladder (host : Host) (fmt : string) (value : float) :
  formatWith host fmt value = render host fmt value (selectedRule fmt value).
Proof.
  unfold formatWith, selectedRule, render, dateRule, percentRule,
    thousandsRule, fixedRule, serialTime.
  destruct (has_ymd fmt && (0 <? value)%float); cbn [andb].
  - destruct (timeClip ((value - 25569) * 86400 * 1000)%float) as [ms|].
    + rewrite bool_decide_eq_true_2 by (now exists ms). reflexivity.
    + rewrite bool_decide_eq_false_2 by (intros [x Hx]; discriminate).
      destruct (Js.includes_char "%" fmt); [reflexivity |].
      destruct (Js.includes_char "," fmt); [reflexivity |].
      destruct (dot_zeros fmt) as [len|].
      * rewrite bool_decide_eq_true_2 by (now exists len). reflexivity.
      * rewrite bool_decide_eq_false_2 by (intros [x Hx]; discriminate).
        reflexivity.
  - destruct (Js.includes_char "%" fmt); [reflexivity |].
    destruct (Js.includes_char "," fmt); [reflexivity |].
    destruct (dot_zeros fmt) as [len|].
    + rewrite bool_decide_eq_true_2 by (now exists len). reflexivity.
    + rewrite bool_decide_eq_false_2 by (intros [x Hx]; discriminate).
      reflexivity.
Qed.

Lemma serialTime_45292 : serialTime 45292 = Some 1704067200000.
Proof. vm_compute. reflexivity. Qed.

(** Serial 45292 is midnight UTC of 2024-01-01, so it is that date in
    local time wherever local time is at or ahead of UTC. *)
Lemma localDate_45292 (host : Host) :
  0 <= localOffsetMs host 1704067200000 < 86400000 ->
  localDate host 1704067200000 = (2024, 1, 1).
Proof.
  intros Hoff. unfold localDate.
  replace ((1704067200000 + localOffsetMs host 1704067200000) / 86400000)
    with 19723; [reflexivity |].
  apply Z.div_unique with (r := localOffsetMs host 1704067200000); lia.
Qed.

Lemma builtIn_ids (z : Z) :
  is_Some (builtIn !! z) <-> z ∈ [0; 1; 2; 3; 4; 9; 10; 14; 22].
Proof.
  unfold builtIn. rewrite <- elem_of_dom.
  rewrite dom_list_to_map_L, elem_of_list_to_set. reflexivity.
Qed.

(** C1, as amended. The format code is the custom entry for the id if
    there is one, else the built-in entry (ids 0, 1, 2, 3, 4, 9, 10, 14,
    22), else "General".  The value is rendered by the first rule of
    the ladder that applies: the date rule when the code holds y, m or d
    in either case, the value is positive and its serial number is a
    valid date; else percent when the code holds '%', with as many
    decimals as the code has '0' characters less one, at least zero;
    else thousands grouping when the code holds ','; else fixed point
    when the code has a ".0+" run; else the integer or General
    rendering.  With code "#,##0.00", 1234.5 renders as "1,234.50"; with
    "0%", 0.5 renders as "50%"; with "yyyy/m/d", 45292 renders as
    2024/1/1 where local time is at or ahead of UTC. *)
Theorem formatNumber_ladder (host : Host) (numFmts : gmap string string)
    (value : float) (fmtId : option Z) :
  (forall code,
      numFmts !! fmtKey fmtId = Some code -> code <> "" ->
      formatCode numFmts fmtId = code)
  /\ (Color.truthy_string (numFmts !! fmtKey fmtId) = None ->
      formatCode numFmts fmtId
      = default "General" (fmtId ≫= (fun z => builtIn !! z)))
  /\ (forall z, is_Some (builtIn !! z) <-> z ∈ [0; 1; 2; 3; 4; 9; 10; 14; 22])
  /\ formatNumber host numFmts value fmtId
     = render host (formatCode numFmts fmtId) value
         (selectedRule (formatCode numFmts fmtId) value)
  /\ (formatCode numFmts fmtId = "#,##0.00" ->
      formatNumber host numFmts 1234.5 fmtId = Returns "1,234.50")
  /\ (formatCode numFmts fmtId = "0%" ->
      formatNumber host numFmts 0.5 fmtId = Returns "50%")
  /\ (formatCode numFmts fmtId = "yyyy/m/d" ->
      0 <= localOffsetMs host 1704067200000 < 86400000 ->
      formatNumber host numFmts 45292 fmtId = Returns "2024/1/1").
Proof.
  split; [| split; [| split; [| split; [| split; [| split]]]]].
  - intros code Hcode Hne. unfold formatCode. rewrite Hcode.
    destruct code; [contradiction | reflexivity].
  - intros Hnone. unfold formatCode. rewrite Hnone.
    now destruct (fmtId ≫= _).
  - apply builtIn_ids.
  - apply formatWith_ladder.
  - intros Hcode. unfold formatNumber. rewrite Hcode. vm_compute. reflexivity.
  - intros Hcode. unfold formatNumber. rewrite Hcode. vm_compute. reflexivity.
  - intros Hcode Hoff. unfold formatNumber. rewrite Hcode.
    rewrite formatWith_ladder.
    assert (selectedRule "yyyy/m/d" 45292 = DateRule) as -> by
      (vm_compute; reflexivity).
    unfold render. rewrite serialTime_45292.
    unfold toLocaleDateString. rewrite (localDate_45292 host Hoff).
    vm_compute. reflexivity.
Qed.

(** The three renderings of C1 on a host eight hours ahead of UTC, with
    the built-in ids. *)
Lemma formatNumber_ladder_witness :
  formatNumber Examples.beijing ∅ 1234.5 (Some 4) = Returns "1,234.50"
  /\ formatNumber Examples.beijing ∅ 0.5 (Some 9) = Returns "50%"
  /\ formatNumber Examples.beijing ∅ 45292 (Some 14) = Returns "2024/1/1".
Proof.
  pose proof (formatNumber_ladder Examples.beijing ∅ 0 (Some 4))
    as (_ & _ & _ & _ & Hgrouped & _).
  pose proof (formatNumber_ladder Examples.beijing ∅ 0 (Some 9))
    as (_ & _ & _ & _ & _ & Hpercent & _).
  pose proof (formatNumber_ladder Examples.beijing ∅ 0 (Some 14))
    as (_ & _ & _ & _ & _ & _ & Hdate).
  split; [apply Hgrouped; vm_compute; reflexivity |].
  split; [apply Hpercent; vm_compute; reflexivity |].
  apply Hdate; [vm_compute; reflexivity | cbn; lia].
Defined.

(** C1 as stated fails. Under the built-in code "yyyy/m/d" the value
    1e12 is positive, so the date rule as stated applies; its serial
    number is beyond the range of dates, the script's date is invalid,
    and the value falls through to the General rule.  And on a host
    five hours behind UTC, 45292 renders as the last day of 2023. *)
Lemma formatNumber_date_falls_through :
  formatCode ∅ (Some 14) = "yyyy/m/d"
  /\ unguardedRule "yyyy/m/d" 1e12 = DateRule
  /\ selectedRule "yyyy/m/d" 1e12 = GeneralRule
  /\ formatNumber Examples.beijing ∅ 1e12 (Some 14) = Returns "1000000000000"
  /\ formatNumber Examples.beijing ∅ 1e12 (Some 14)
     <> render Examples.beijing "yyyy/m/d" 1e12 DateRule
  /\ formatNumber Examples.new_york ∅ 45292 (Some 14) = Returns "2023/12/31".
Proof.
  split; [vm_compute; reflexivity |].
  split; [vm_compute; reflexivity |].
  split; [vm_compute; reflexivity |].
  split; [vm_compute; reflexivity |].
  split; [vm_compute; discriminate |].
  vm_compute; reflexivity.
Qed.

End FormatFacts.

(** ** The overflow span *)

Module OverflowFacts.
Import Style Sheet Overflow.

Lemma isTextType_not_numeric (t : option string) :
  isTextType t = true -> is_numeric_type t = false.
Proof.
  unfold isTextType, is_numeric_type. intros Ht.
  apply orb_true_iff in Ht as [Ht | Ht];
    [apply orb_true_iff in Ht as [Ht | Ht] |];
    apply bool_decide_eq_true in Ht; subst t; reflexivity.
Qed.

(** The display text of a cell of a text type is its raw text; nothing
    is formatted and nothing can be raised. *)
Lemma getCellDisplayText_text (host : Host) (T : tables) (ce : cellElem)
    (styleIndex : option Z) :
  isTextType (c_t ce) = true ->
  getCellDisplayText host T ce styleIndex = Returns (rawText T ce).
Proof.
  intros Ht. unfold getCellDisplayText.
  now rewrite (isTextType_not_numeric _ Ht).
Qed.

Section Span.
Context (host : Host) (T : tables) (maps : styleMaps)
        (cellMap : gmap Z cellElem) (mergeSpanMap : gmap (Z * Z) span)
        (rowNum : option Z).

#[local] Abbreviation free := (freeColumn host T maps cellMap mergeSpanMap rowNum).
#[local] Abbreviation blocked :=
  (blockedColumn host T maps cellMap mergeSpanMap rowNum).
#[local] Abbreviation scan := (extendSpan host T maps cellMap mergeSpanMap rowNum).

Lemma extendSpan_free (c : Z) (rest : list Z) (endCol : Z) :
  free c -> scan (c :: rest) endCol = scan rest c.
Proof.
  intros [Hmerge Htext]. cbn. rewrite Hmerge.
  rewrite bool_decide_eq_false_2 by (intros [x Hx]; discriminate).
  destruct (cellMap !! c) as [neighbor|]; [| reflexivity].
  rewrite (Htext neighbor eq_refl). reflexivity.
Qed.

Lemma extendSpan_blocked (c : Z) (rest : list Z) (endCol : Z) :
  blocked c -> scan (c :: rest) endCol = Returns endCol.
Proof.
  intros [Hmerge | (neighbor & text & Hcell & Htext & Hne)]; cbn.
  - now rewrite bool_decide_eq_true_2.
  - destruct (bool_decide (is_Some (at_rc mergeSpanMap rowNum c)));
      [reflexivity |].
    rewrite Hcell, Htext. cbn.
    destruct (String.eqb_spec text ""); [contradiction | reflexivity].
Qed.

(** The loop runs over the free columns and stops at the first column
    that is blocked or past the bound. *)
Lemma extendSpan_stops (k : nat) (colNum n : Z) :
  Z.of_nat k <= n ->
  (forall c, colNum < c <= colNum + Z.of_nat k -> free c) ->
  (Z.of_nat k = n \/ blocked (colNum + Z.of_nat k + 1)) ->
  scan (seqZ (colNum + 1) n) colNum = Returns (colNum + Z.of_nat k).
Proof.
  revert colNum n. induction k as [|k IH]; intros colNum n Hk Hfree Hstop.
  - replace (colNum + Z.of_nat 0) with colNum by lia.
    destruct Hstop as [<- | Hblocked]; [reflexivity |].
    destruct (Z.le_gt_cases n 0) as [Hn | Hn].
    + now rewrite seqZ_nil.
    + rewrite seqZ_cons by exact Hn.
      apply extendSpan_blocked.
      now replace (colNum + Z.of_nat 0 + 1) with (colNum + 1) in Hblocked by lia.
  - rewrite seqZ_cons by lia.
    rewrite extendSpan_free by (apply Hfree; lia).
    replace (Z.succ (colNum + 1)) with (colNum + 1 + 1) by lia.
    rewrite (IH (colNum + 1) (Z.pred n)).
    + f_equal. lia.
    + lia.
    + intros c Hc. apply Hfree. lia.
    + destruct Hstop as [Hn | Hblocked]; [left; lia | right].
      now replace (colNum + 1 + Z.of_nat k + 1)
        with (colNum + Z.of_nat (S k) + 1) by lia.
Qed.

End Span.

Lemma getOverflowEndCol_not_eligible (host : Host) (T : tables) (L : layout)
    (maps : styleMaps) (ce : cellElem) (styleIndex rowNum : option Z)
    (colNum : Z) (cellMap : gmap Z cellElem) (mergeSpanMap : gmap (Z * Z) span) :
  eligible host T L ce styleIndex rowNum colNum mergeSpanMap (rawText T ce)
  = false ->
  getOverflowEndCol host T L maps ce styleIndex rowNum colNum cellMap
    mergeSpanMap = Returns None.
Proof.
  unfold eligible, getOverflowEndCol. intros Hel.
  destruct (isTextType (c_t ce)) eqn:Ht; [| reflexivity]. cbn [negb].
  rewrite (getCellDisplayText_text _ _ _ _ Ht).
  cbn [andb] in Hel.
  destruct (default false (wrapText <$> _)); [reflexivity |].
  destruct (blockedAlign _); [reflexivity |].
  destruct (default false (shrinkToFit <$> _)); [reflexivity |].
  destruct (default 0 (textRotation <$> _) =? 0); [| reflexivity].
  cbn [negb andb] in Hel |- *. cbn [mbind outcome_bind].
  destruct (String.eqb (rawText T ce) ""); [reflexivity |].
  destruct (bool_decide (is_Some (at_rc mergeSpanMap rowNum colNum)));
    [reflexivity |].
  cbn [negb andb] in Hel. apply negb_false_iff in Hel. now rewrite Hel.
Qed.

Lemma getOverflowEndCol_eligible (host : Host) (T : tables) (L : layout)
    (maps : styleMaps) (ce : cellElem) (styleIndex rowNum : option Z)
    (colNum : Z) (cellMap : gmap Z cellElem) (mergeSpanMap : gmap (Z * Z) span) :
  eligible host T L ce styleIndex rowNum colNum mergeSpanMap (rawText T ce)
  = true ->
  getOverflowEndCol host T L maps ce styleIndex rowNum colNum cellMap
    mergeSpanMap
  = (endCol ← extendSpan host T maps cellMap mergeSpanMap rowNum
                (seqZ (colNum + 1) (currentMaxCol L - colNum)) colNum;
     Returns (if colNum <? endCol then Some endCol else None)).
Proof.
  unfold eligible, getOverflowEndCol. intros Hel.
  destruct (isTextType (c_t ce)) eqn:Ht; [| discriminate]. cbn [negb].
  rewrite (getCellDisplayText_text _ _ _ _ Ht).
  cbn [andb] in Hel.
  destruct (default false (wrapText <$> _)); [discriminate |].
  destruct (blockedAlign _); [discriminate |].
  destruct (default false (shrinkToFit <$> _)); [discriminate |].
  destruct (default 0 (textRotation <$> _) =? 0); [| discriminate].
  cbn [negb andb] in Hel |- *. cbn [mbind outcome_bind].
  destruct (String.eqb (rawText T ce) ""); [discriminate |].
  destruct (bool_decide (is_Some (at_rc mergeSpanMap rowNum colNum)));
    [discriminate |].
  cbn [negb andb] in Hel. apply negb_true_iff in Hel. now rewrite Hel.
Qed.

(** C4, as amended. The span of a cell is looked for exactly when the
    preconditions [eligible] hold of its display text: otherwise the
    result is [null].  The loop then runs rightwards from the next
    column over the columns that are free, and stops at the first
    column that is merged, shows text, or lies beyond [currentMaxCol];
    a span that ends in the cell's own column is reported as [null].
    So an eligible cell followed by two free columns, both within
    [currentMaxCol], and then by a column that shows text (or by the
    bound), overflows exactly two columns. *)
Theorem getOverflowEndCol_spec (host : Host) (T : tables) (L : layout)
    (maps : styleMaps) (ce : cellElem) (styleIndex rowNum : option Z)
    (colNum : Z) (cellMap : gmap Z cellElem) (mergeSpanMap : gmap (Z * Z) span) :
  (eligible host T L ce styleIndex rowNum colNum mergeSpanMap (rawText T ce)
   = false ->
   getOverflowEndCol host T L maps ce styleIndex rowNum colNum cellMap
     mergeSpanMap = Returns None)
  /\ (eligible host T L ce styleIndex rowNum colNum mergeSpanMap (rawText T ce)
      = true ->
      forall k : nat,
        colNum + Z.of_nat k <= Z.max colNum (currentMaxCol L) ->
        (forall c, colNum < c <= colNum + Z.of_nat k ->
                   freeColumn host T maps cellMap mergeSpanMap rowNum c) ->
        (colNum + Z.of_nat k = Z.max colNum (currentMaxCol L)
         \/ blockedColumn host T maps cellMap mergeSpanMap rowNum
              (colNum + Z.of_nat k + 1)) ->
        getOverflowEndCol host T L maps ce styleIndex rowNum colNum cellMap
          mergeSpanMap
        = Returns (if (0 <? k)%nat then Some (colNum + Z.of_nat k) else None))
  /\ (eligible host T L ce styleIndex rowNum colNum mergeSpanMap (rawText T ce)
      = true ->
      colNum + 2 <= currentMaxCol L ->
      freeColumn host T maps cellMap mergeSpanMap rowNum (colNum + 1) ->
      freeColumn host T maps cellMap mergeSpanMap rowNum (colNum + 2) ->
      blockedColumn host T maps cellMap mergeSpanMap rowNum (colNum + 3) ->
      getOverflowEndCol host T L maps ce styleIndex rowNum colNum cellMap
        mergeSpanMap = Returns (Some (colNum + 2))).
Proof.
  assert (eligible host T L ce styleIndex rowNum colNum mergeSpanMap
            (rawText T ce) = true ->
          forall k : nat,
            colNum + Z.of_nat k <= Z.max colNum (currentMaxCol L) ->
            (forall c, colNum < c <= colNum + Z.of_nat k ->
                       freeColumn host T maps cellMap mergeSpanMap rowNum c) ->
            (colNum + Z.of_nat k = Z.max colNum (currentMaxCol L)
             \/ blockedColumn host T maps cellMap mergeSpanMap rowNum
                  (colNum + Z.of_nat k + 1)) ->
            getOverflowEndCol host T L maps ce styleIndex rowNum colNum cellMap
              mergeSpanMap
            = Returns (if (0 <? k)%nat then Some (colNum + Z.of_nat k)
                       else None)) as Hspan.
  { intros Hel k Hk Hfree Hstop.
    rewrite (getOverflowEndCol_eligible _ _ _ _ _ _ _ _ _ _ Hel).
    destruct (Z.le_gt_cases (currentMaxCol L) colNum) as [Hmax | Hmax].
    - assert (k = 0%nat) as -> by lia.
      rewrite seqZ_nil by lia. cbn [extendSpan mbind outcome_bind].
      now rewrite Z.ltb_irrefl.
    - rewrite (extendSpan_stops host T maps cellMap mergeSpanMap rowNum k
                 colNum (currentMaxCol L - colNum)); [| lia | exact Hfree |].
      + cbn [mbind outcome_bind]. destruct k as [|k].
        * replace (colNum + Z.of_nat 0) with colNum by lia.
          now rewrite Z.ltb_irrefl.
        * replace (colNum <? colNum + Z.of_nat (S k)) with true
            by (symmetry; apply Z.ltb_lt; lia).
          reflexivity.
      + destruct Hstop as [Hend | Hblocked]; [left; lia | now right]. }
  split; [apply getOverflowEndCol_not_eligible |].
  split; [exact Hspan |].
  intros Hel Hmax Hfree1 Hfree2 Hblocked.
  rewrite (Hspan Hel 2%nat); [reflexivity | lia | |].
  - intros c Hc.
    assert (c = colNum + 1 \/ c = colNum + 2) as [-> | ->] by lia; assumption.
  - right. now replace (colNum + Z.of_nat 2 + 1) with (colNum + 3) by lia.
Qed.

(** A long text in A1, no cell in B1 and C1, a text in D1: the span
    ends in column 3. *)
Lemma getOverflowEndCol_spec_witness :
  Grid.overflowEndColAt Examples.beijing Examples.plain_tables
    (Examples.sheet_of [Examples.text_then_gap]) Examples.text_then_gap 1
  = Returns (Some 3).
Proof.
  unfold Grid.overflowEndColAt.
  change (Grid.cellMapOf Examples.text_then_gap !! 1)
    with (Some (Examples.cell "A1" (Some "s") (Some "0"))).
  cbv beta iota zeta.
  eapply (getOverflowEndCol_spec Examples.beijing Examples.plain_tables).
  - vm_compute. reflexivity.
  - vm_compute. discriminate.
  - split; [reflexivity |]. intros neighbor Hn. vm_compute in Hn. discriminate.
  - split; [reflexivity |]. intros neighbor Hn. vm_compute in Hn. discriminate.
  - right. exists (Examples.cell "D1" (Some "s") (Some "1")), "x".
    split; [reflexivity |]. split; [reflexivity | discriminate].
Defined.

(** C4 as stated fails. A long text in column 99 (CU1), no cell in
    columns 100 and 101 and a text in column 102 (CX1): the grid ends
    at column 100, so the span covers one column, where the same row at
    columns 1 to 4 covers two.  And a text that is the result of a
    formula (type tag [str]) overflows like any other text. *)
Lemma overflow_counterexamples :
  cellRef (Some "CU1") = (1, 99)
  /\ cellRef (Some "CX1") = (1, 102)
  /\ Grid.cellMapOf Examples.gap_at_the_bound !! 100 = None
  /\ Grid.cellMapOf Examples.gap_at_the_bound !! 101 = None
  /\ computeMaxCol [Examples.gap_at_the_bound] = 100
  /\ Grid.overflowEndColAt Examples.beijing Examples.plain_tables
       (Examples.sheet_of [Examples.gap_at_the_bound])
       Examples.gap_at_the_bound 99
     = Returns (Some 100)
  /\ Grid.overflowEndColAt Examples.beijing Examples.plain_tables
       (Examples.sheet_of [Examples.text_then_gap]) Examples.text_then_gap 1
     = Returns (Some 3)
  /\ Grid.overflowEndColAt Examples.beijing Examples.plain_tables
       (Examples.sheet_of [Examples.formula_text]) Examples.formula_text 1
     = Returns (Some 3).
Proof.
  split; [vm_compute; reflexivity |].
  split; [vm_compute; reflexivity |].
  split; [vm_compute; reflexivity |].
  split; [vm_compute; reflexivity |].
  split; [vm_compute; reflexivity |].
  split; [vm_compute; reflexivity |].
  split; [vm_compute; reflexivity |].
  vm_compute; reflexivity.
Qed.

End OverflowFacts.

(** ** Cell names and ranges *)

Module RefFacts.
Import Sheet Ref.

Lemma string_app_assoc (a b c : string) : (a ++ b) ++ c = a ++ (b ++ c).
Proof.
  induction a as [|x a IH]; [reflexivity |].
  change (String x ((a ++ b) ++ c) = String x (a ++ (b ++ c))).
  now rewrite IH.
Qed.

Lemma string_app_nil_r (a : string) : a ++ "" = a.
Proof.
  induction a as [|x a IH]; [reflexivity |].
  change (String x (a ++ "") = String x a). now rewrite IH.
Qed.

Lemma string_app_nil_l (a : string) : "" ++ a = a.
Proof. reflexivity. Qed.

Lemma string_app_cons (x : ascii) (a b : string) :
  String x a ++ b = String x (a ++ b).
Proof. reflexivity. Qed.

Lemma ascii_code_of_nat (n : Z) :
  0 <= n < 256 -> Js.ascii_code (ascii_of_nat (Z.to_nat n)) = n.
Proof.
  intros Hn. unfold Js.ascii_code.
  rewrite nat_ascii_embedding by lia. lia.
Qed.

(** *** Column letters *)

Lemma colName_go_app (turns : nat) (n : Z) (s : string) :
  colName_go turns n s = colName_go turns n "" ++ s.
Proof.
  revert n s. induction turns as [|k IH]; intros n s; cbn; [reflexivity |].
  destruct (0 <? n); [| reflexivity].
  rewrite (IH _ (String _ s)), (IH _ (String _ "")).
  now rewrite string_app_assoc.
Qed.

(** The letters read back, as the loop of [cellRef] reads them. *)
Lemma cellRef_go_colName_go (turns : nat) (n : Z) (t row : string) :
  0 <= n <= Z.of_nat turns ->
  cellRef_go (colName_go turns n t) 0 row = cellRef_go t n row.
Proof.
  revert n t. induction turns as [|k IH]; intros n t Hn; cbn [colName_go].
  - now replace n with 0 by lia.
  - destruct (0 <? n) eqn:Hpos.
    + apply Z.ltb_lt in Hpos.
      assert (0 <= (n - 1) mod 26 < 26) as Hmod by (apply Z.mod_pos_bound; lia).
      assert (0 <= (n - 1) / 26) as Hdiv by (apply Z.div_pos; lia).
      assert ((n - 1) / 26 < n) as Hlt.
      { apply Z.div_lt_upper_bound; lia. }
      rewrite IH by lia. cbn [cellRef_go]. unfold is_upper.
      rewrite ascii_code_of_nat by lia.
      replace ((65 <=? 65 + (n - 1) mod 26) && (65 + (n - 1) mod 26 <=? 90))
        with true by (symmetry; apply andb_true_iff; split; apply Z.leb_le; lia).
      f_equal. pose proof (Z.div_mod (n - 1) 26 ltac:(lia)). lia.
    + apply Z.ltb_ge in Hpos. now replace n with 0 by lia.
Qed.

Lemma colName_go_upper (turns : nat) (n : Z) (s : string) :
  allChars is_upper s = true -> allChars is_upper (colName_go turns n s) = true.
Proof.
  revert n s. induction turns as [|k IH]; intros n s Hs; cbn; [exact Hs |].
  destruct (0 <? n) eqn:Hpos; [| exact Hs].
  apply Z.ltb_lt in Hpos. apply IH. cbn. rewrite Hs, andb_true_r.
  assert (0 <= (n - 1) mod 26 < 26) as Hmod by (apply Z.mod_pos_bound; lia).
  unfold is_upper. rewrite ascii_code_of_nat by lia.
  apply andb_true_iff; split; apply Z.leb_le; lia.
Qed.

Lemma colName_nonempty (n : Z) : 1 <= n -> colName n <> "".
Proof.
  intros Hn. unfold colName.
  destruct (Z.to_nat n) as [|k] eqn:Hk; [lia |].
  cbn. replace (0 <? n) with true by (symmetry; apply Z.ltb_lt; lia).
  rewrite colName_go_app. now destruct (colName_go k _ "").
Qed.

Lemma colName_nonpositive (n : Z) : n <= 0 -> colName n = "".
Proof.
  intros Hn. unfold colName. now replace (Z.to_nat n) with 0%nat by lia.
Qed.

(** *** Decimal digits *)

Lemma digit_char_code (d : Z) :
  0 <= d < 10 -> Js.ascii_code (Js.digit_char d) = 48 + d.
Proof. intros Hd. unfold Js.digit_char. apply ascii_code_of_nat. lia. Qed.

Lemma hex_val_digit_char (d : Z) :
  0 <= d < 10 -> Js.hex_val (Js.digit_char d) = Some d.
Proof.
  intros Hd. unfold Js.hex_val. rewrite digit_char_code by exact Hd.
  replace ((48 <=? 48 + d) && (48 + d <=? 57)) with true
    by (symmetry; apply andb_true_iff; split; apply Z.leb_le; lia).
  f_equal. lia.
Qed.

Lemma is_digit_digit_char (d : Z) :
  0 <= d < 10 -> Js.is_digit (Js.digit_char d) = true.
Proof.
  intros Hd. unfold Js.is_digit. rewrite digit_char_code by exact Hd.
  apply andb_true_iff; split; apply Z.leb_le; lia.
Qed.

Lemma digits_go_digits (fuel : nat) (n : Z) (acc : string) :
  allChars Js.is_digit acc = true ->
  allChars Js.is_digit (Js.digits_go fuel n acc) = true.
Proof.
  revert n acc. induction fuel as [|f IH]; intros n acc Hacc; cbn; [exact Hacc |].
  assert (allChars Js.is_digit (String (Js.digit_char (n mod 10)) acc) = true)
    as Hstep.
  { cbn. rewrite Hacc, andb_true_r. apply is_digit_digit_char.
    apply Z.mod_pos_bound. lia. }
  destruct (n <? 10); [exact Hstep | now apply IH].
Qed.

Lemma digits_go_app (fuel : nat) (n : Z) (acc : string) :
  Js.digits_go fuel n acc = Js.digits_go fuel n "" ++ acc.
Proof.
  revert n acc. induction fuel as [|f IH]; intros n acc; cbn; [reflexivity |].
  destruct (n <? 10); [reflexivity |].
  rewrite (IH _ (String _ acc)), (IH _ (String _ "")).
  now rewrite string_app_assoc.
Qed.

Lemma digits_nonempty (n : Z) : Js.digits n <> "".
Proof.
  unfold Js.digits. cbn. destruct (n <? 10); [discriminate |].
  rewrite digits_go_app. now destruct (Js.digits_go _ _ "").
Qed.

Lemma digits_go_S (f : nat) (n : Z) (acc : string) :
  Js.digits_go (S f) n acc
  = if n <? 10 then String (Js.digit_char (n mod 10)) acc
    else Js.digits_go f (n / 10) (String (Js.digit_char (n mod 10)) acc).
Proof. reflexivity. Qed.

Lemma digits_prefix_cons (d : Z) (t : string) (acc : option Z) :
  0 <= d < 10 ->
  Js.digits_prefix 10 (String (Js.digit_char d) t) acc
  = Js.digits_prefix 10 t (Some (10 * default 0 acc + d)).
Proof.
  intros Hd. cbn [Js.digits_prefix]. rewrite hex_val_digit_char by exact Hd.
  now replace (d <? 10) with true by (symmetry; apply Z.ltb_lt; lia).
Qed.

(** [parseInt] reads the digits of [String(n)] back. *)
Lemma digits_prefix_digits_go (f : nat) (n : Z) (t : string) :
  0 <= n < 2 ^ Z.of_nat (S f) ->
  Js.digits_prefix 10 (Js.digits_go (S f) n t) None
  = Js.digits_prefix 10 t (Some n).
Proof.
  revert n t. induction f as [|f IH]; intros n t Hn; rewrite digits_go_S.
  - change (2 ^ Z.of_nat 1) with 2 in Hn.
    replace (n <? 10) with true by (symmetry; apply Z.ltb_lt; lia).
    rewrite digits_prefix_cons by (apply Z.mod_pos_bound; lia).
    rewrite Z.mod_small by lia. reflexivity.
  - assert (0 <= n mod 10 < 10) as Hmod by (apply Z.mod_pos_bound; lia).
    destruct (n <? 10) eqn:Hsmall.
    + apply Z.ltb_lt in Hsmall.
      rewrite digits_prefix_cons by exact Hmod.
      rewrite Z.mod_small by lia. reflexivity.
    + apply Z.ltb_ge in Hsmall.
      assert (0 <= n / 10 < 2 ^ Z.of_nat (S f)) as Hdiv.
      { split; [apply Z.div_pos; lia |].
        apply Z.div_lt_upper_bound; [lia |].
        replace (Z.of_nat (S (S f))) with (Z.of_nat (S f) + 1) in Hn by lia.
        rewrite Z.pow_add_r in Hn by lia. lia. }
      rewrite IH by exact Hdiv.
      rewrite digits_prefix_cons by exact Hmod.
      cbn. do 2 f_equal.
      pose proof (Z.div_mod n 10 ltac:(lia)). lia.
Qed.

Lemma digits_prefix_digits (n : Z) :
  0 <= n -> Js.digits_prefix 10 (Js.digits n) None = Some n.
Proof.
  intros Hn. unfold Js.digits. rewrite digits_prefix_digits_go; [reflexivity |].
  split; [exact Hn |].
  destruct (Z.eq_dec n 0) as [-> | Hne]; [reflexivity |].
  rewrite Nat2Z.inj_succ, Z2Nat.id by apply Z.log2_nonneg.
  apply Z.log2_spec. lia.
Qed.

Lemma is_digit_not_space (c : ascii) :
  Js.is_digit c = true -> Js.is_space c = false.
Proof.
  unfold Js.is_digit, Js.is_space. intros [H1 H2]%andb_true_iff.
  apply Z.leb_le in H1, H2.
  apply orb_false_iff; split;
    [apply andb_false_iff; right; apply Z.leb_gt; lia | apply Z.eqb_neq; lia].
Qed.

(** A text that starts with an ASCII character other than white space
    has no leading white space. *)
Lemma trim_start_ascii (c : ascii) (r : string) :
  Js.ascii_code c < 128 -> Js.is_space c = false ->
  Js.trim_start (String c r) = String c r.
Proof.
  intros Hc Hspace. cbn [Js.trim_start]. rewrite Hspace.
  assert (forall k, 128 <= k -> (Js.ascii_code c =? k) = false) as Hne
    by (intros k Hk; apply Z.eqb_neq; lia).
  destruct r as [|b r]; [reflexivity |].
  unfold Js.is_space2. rewrite Hne by lia. cbn [andb].
  destruct r as [|d r]; [reflexivity |].
  unfold Js.is_space3. cbv zeta. rewrite !Hne by lia. reflexivity.
Qed.

Lemma is_digit_neq (c d : ascii) :
  Js.is_digit c = true -> Js.is_digit d = false -> Ascii.eqb c d = false.
Proof.
  intros Hc Hd. destruct (Ascii.eqb_spec c d) as [-> | ]; [congruence | reflexivity].
Qed.

(** A non-empty text of digits is read by [parseInt] as a whole. *)
Lemma strip_digits (s : string) :
  allChars Js.is_digit s = true -> s <> "" ->
  Js.trim_start s = s
  /\ Js.strip_sign s = (false, s)
  /\ Js.strip_hex_prefix 10 s = (10, s).
Proof.
  intros Hs Hne. destruct s as [|c r]; [contradiction |].
  cbn in Hs. apply andb_true_iff in Hs as [Hc Hr].
  split; [| split].
  - apply trim_start_ascii; [| now apply is_digit_not_space].
    unfold Js.is_digit in Hc. apply andb_true_iff in Hc as [_ Hc].
    apply Z.leb_le in Hc. lia.
  - cbn. now rewrite !(is_digit_neq c) by (exact Hc || reflexivity).
  - destruct r as [|x r]; [reflexivity |].
    cbn in Hr. apply andb_true_iff in Hr as [Hx _].
    cbn. rewrite !(is_digit_neq x) by (exact Hx || reflexivity).
    now rewrite andb_false_r.
Qed.

Lemma parseInt_digits (n : Z) : 0 <= n -> Js.parseInt (Js.digits n) = Some n.
Proof.
  intros Hn. unfold Js.parseInt, Js.parseInt_radix.
  destruct (strip_digits (Js.digits n)) as (-> & -> & ->);
    [now apply digits_go_digits | apply digits_nonempty |].
  now rewrite digits_prefix_digits.
Qed.

Lemma parseInt_int_to_string (n : Z) :
  Js.parseInt (Js.int_to_string n) = Some n.
Proof.
  unfold Js.int_to_string. destruct (n <? 0) eqn:Hneg.
  - apply Z.ltb_lt in Hneg. unfold Js.parseInt, Js.parseInt_radix.
    rewrite trim_start_ascii by (vm_compute; reflexivity).
    change (Js.strip_sign (String "-" (Js.digits (- n))))
      with (true, Js.digits (- n)).
    destruct (strip_digits (Js.digits (- n))) as (_ & _ & ->);
      [now apply digits_go_digits | apply digits_nonempty |].
    rewrite digits_prefix_digits by lia. f_equal. lia.
  - apply Z.ltb_ge in Hneg. now apply parseInt_digits.
Qed.

Lemma is_digit_not_upper (c : ascii) :
  Js.is_digit c = true -> is_upper c = false.
Proof.
  unfold Js.is_digit, is_upper. intros [H1 H2]%andb_true_iff.
  apply Z.leb_le in H1, H2. apply andb_false_iff. left. apply Z.leb_gt. lia.
Qed.

(** Characters that are no capitals all go to the row text. *)
Lemma cellRef_go_row (s : string) (col : Z) (row : string) :
  allChars (fun c => negb (is_upper c)) s = true ->
  cellRef_go s col row = (col, row ++ s).
Proof.
  revert row. induction s as [|c s IH]; intros row Hs; cbn.
  - now rewrite string_app_nil_r.
  - cbn in Hs. apply andb_true_iff in Hs as [Hc Hs].
    apply negb_true_iff in Hc. rewrite Hc, IH by exact Hs.
    now rewrite string_app_assoc.
Qed.

Lemma allChars_impl (p q : ascii -> bool) (s : string) :
  (forall c, p c = true -> q c = true) ->
  allChars p s = true -> allChars q s = true.
Proof.
  intros Hpq. induction s as [|c s IH]; cbn; [reflexivity |].
  intros [Hc Hs]%andb_true_iff. now rewrite Hpq, IH.
Qed.

Lemma int_to_string_no_upper (n : Z) :
  allChars (fun c => negb (is_upper c)) (Js.int_to_string n) = true.
Proof.
  assert (forall m, allChars (fun c => negb (is_upper c)) (Js.digits m) = true)
    as Hdigits.
  { intros m. apply (allChars_impl Js.is_digit).
    - intros c Hc. now rewrite is_digit_not_upper.
    - now apply digits_go_digits. }
  unfold Js.int_to_string. destruct (n <? 0); [| apply Hdigits].
  cbn. apply Hdigits.
Qed.

(** The name of a cell, read by [cellRef]. *)
Lemma cellRef_cellName (r c : Z) :
  r <> 0 -> 1 <= c -> cellRef (Some (cellName r c)) = (r, c).
Proof.
  intros Hr Hc. unfold cellRef, cellName.
  assert (Color.truthy_string (Some (colName c ++ Js.int_to_string r))
          = Some (colName c ++ Js.int_to_string r)) as ->.
  { pose proof (colName_nonempty c Hc). now destruct (colName c). }
  unfold colName. rewrite colName_go_app, string_app_assoc.
  rewrite <- colName_go_app, cellRef_go_colName_go by lia.
  rewrite cellRef_go_row by apply int_to_string_no_upper.
  rewrite !string_app_nil_l. cbv beta iota zeta. rewrite parseInt_int_to_string. cbn.
  replace (r =? 0) with false by (symmetry; apply Z.eqb_neq; lia).
  replace (c =? 0) with false by (symmetry; apply Z.eqb_neq; lia).
  reflexivity.
Qed.

Lemma cellRef_go_col (ref : string) (col : Z) (row : string) :
  0 <= col -> col <= (cellRef_go ref col row).1.
Proof.
  revert col row. induction ref as [|ch ref IH]; intros col row Hcol; cbn; [lia |].
  destruct (is_upper ch) eqn:Hup.
  - unfold is_upper in Hup. apply andb_true_iff in Hup as [H1%Z.leb_le _].
    etransitivity; [| apply IH; lia]. lia.
  - now apply IH.
Qed.

Lemma cellRef_bounds (ref : option string) :
  (cellRef ref).1 <> 0 /\ 1 <= (cellRef ref).2.
Proof.
  unfold cellRef. destruct (Color.truthy_string ref) as [s|]; [| cbn; lia].
  pose proof (cellRef_go_col s 0 "" ltac:(lia)) as Hcol.
  destruct (cellRef_go s 0 "") as [col row]. cbn in *.
  split.
  - destruct (Js.or_zero (Js.parseInt row) =? 0) eqn:E; [lia |].
    now apply Z.eqb_neq in E.
  - destruct (col =? 0) eqn:E; [lia |]. apply Z.eqb_neq in E. lia.
Qed.

(** X1. The name that [renderCell] and [expandRangeRefs] build for a
    cell, [colName(c)] followed by the row number, is read back by
    [cellRef] as that cell, for every column from 1 and every row
    number other than 0, both below 2^53 in magnitude. *)
Theorem cellName_round_trip (r c : Z) :
  safeInteger r = true -> safeInteger c = true ->
  r <> 0 -> 1 <= c -> cellRef (Some (cellName r c)) = (r, c).
Proof. intros _ _. apply cellRef_cellName. Qed.

Lemma cellName_round_trip_witness :
  cellName 1048576 16384 = "XFD1048576"
  /\ cellRef (Some (cellName 1048576 16384)) = (1048576, 16384).
Proof.
  split; [vm_compute; reflexivity |].
  apply (cellName_round_trip 1048576 16384); [reflexivity | reflexivity | lia | lia].
Defined.

(** X2. [colName] gives no letter for a number below 1 and, from 1 on,
    a text that is not empty and holds capital letters only; and two
    columns from 1 on and below 2^53 with the same letters are the
    same column. *)
Theorem colName_letters (n : Z) :
  allChars is_upper (colName n) = true
  /\ (colName n = "" <-> n <= 0)
  /\ (forall m,
        safeInteger n = true -> safeInteger m = true ->
        1 <= n -> 1 <= m -> colName n = colName m -> n = m).
Proof.
  split; [| split].
  - now apply colName_go_upper.
  - split.
    + intros Hempty. destruct (Z.le_gt_cases n 0) as [Hle | Hgt]; [exact Hle |].
      now apply colName_nonempty in Hempty; [| lia].
    + apply colName_nonpositive.
  - intros m _ _ Hn Hm Hsame.
    pose proof (cellRef_cellName 1 n ltac:(lia) Hn) as Hread.
    unfold cellName in Hread. rewrite Hsame in Hread.
    fold (cellName 1 m) in Hread.
    rewrite cellRef_cellName in Hread by lia. now injection Hread.
Qed.

(** X3. Whatever the reference text, [cellRef] returns a column of at
    least 1 and a row other than 0; and when the row and the column it
    returns are below 2^53 in magnitude, the cell is the one its own
    name denotes. *)
Theorem cellRef_normal (ref : option string) :
  (cellRef ref).1 <> 0
  /\ 1 <= (cellRef ref).2
  /\ (safeCell (cellRef ref) = true ->
      cellRef (Some (cellName (cellRef ref).1 (cellRef ref).2)) = cellRef ref).
Proof.
  destruct (cellRef_bounds ref) as [Hr Hc].
  split; [exact Hr | split; [exact Hc |]]. intros _.
  rewrite cellRef_cellName by assumption. now destruct (cellRef ref).
Qed.

End RefFacts.

(** ** Ranges and hyperlinks *)

Module LinkFacts.
Import Sheet Ref Links RefFacts.

Lemma rangeCells_elem (s e rc : Z * Z) :
  rc ∈ rangeCells s e <-> inRect s e rc = true.
Proof.
  unfold rangeCells, inRect. destruct rc as [r c]. cbn.
  rewrite list_elem_of_bind. split.
  - intros (r' & Hc & Hr). apply list_elem_of_bind in Hc as (c' & Hrc & Hc).
    apply list_elem_of_singleton in Hrc. injection Hrc as -> ->.
    apply elem_of_seqZ in Hr, Hc.
    rewrite !andb_true_iff, !Z.leb_le. lia.
  - rewrite !andb_true_iff, !Z.leb_le. intros [[[H1 H2] H3] H4].
    exists r. split; [| apply elem_of_seqZ; lia].
    apply list_elem_of_bind. exists c.
    split; [apply list_elem_of_singleton; reflexivity | apply elem_of_seqZ; lia].
Qed.

Lemma includes_char_nonempty (c : ascii) (s : string) :
  Js.includes_char c s = true -> Color.truthy_string (Some s) = Some s.
Proof. now destruct s. Qed.

Lemma expandRangeRefs_colon (ref : string) :
  Js.includes_char ":" ref = true ->
  expandRangeRefs (Some ref)
  = (fun rc => cellName rc.1 rc.2)
      <$> rangeCells (cellRef (splitRange ref).1) (cellRef (splitRange ref).2).
Proof.
  intros Hcolon. unfold expandRangeRefs.
  rewrite (includes_char_nonempty _ _ Hcolon), Hcolon. cbn [negb].
  now destruct (splitRange ref).
Qed.

Lemma fmap_cellRef_cellName (l : list (Z * Z)) :
  Forall (fun rc => rc.1 <> 0 /\ 1 <= rc.2) l ->
  (fun name => cellRef (Some name)) <$> ((fun rc => cellName rc.1 rc.2) <$> l) = l.
Proof.
  intros Hall. rewrite <- list_fmap_compose.
  rewrite <- (list_fmap_id l) at 2. apply Forall_fmap_ext.
  eapply Forall_impl; [exact Hall |].
  intros [r c] [Hr Hc]. cbn in *. now apply cellRef_cellName.
Qed.

Lemma rangeCells_positive (s e : Z * Z) :
  1 <= s.1 -> 1 <= s.2 ->
  Forall (fun rc => rc.1 <> 0 /\ 1 <= rc.2) (rangeCells s e).
Proof.
  intros H1 H2. apply Forall_forall. intros rc Hin%rangeCells_elem.
  unfold inRect in Hin. rewrite !andb_true_iff, !Z.leb_le in Hin. lia.
Qed.

(** X4. A range reference whose corners are below 2^53 in magnitude,
    with fewer than 2^32 cells between them, expands to the names of
    the cells of its rectangle, row by row:
    read back with [cellRef], the names are the cells from the first
    corner to the second.  The list is empty when the second corner
    lies above or to the left of the first. *)
Theorem expandRangeRefs_round_trip (ref : string) :
  Js.includes_char ":" ref = true ->
  safeRange (Some ref) = true ->
  1 <= (cellRef (splitRange ref).1).1 ->
  let s := cellRef (splitRange ref).1 in
  let e := cellRef (splitRange ref).2 in
  (fun name => cellRef (Some name)) <$> expandRangeRefs (Some ref)
  = rangeCells s e
  /\ (e.1 < s.1 \/ e.2 < s.2 -> expandRangeRefs (Some ref) = []).
Proof.
  intros Hcolon _ Hrow s e. rewrite expandRangeRefs_colon by exact Hcolon.
  fold s e. split.
  - apply fmap_cellRef_cellName, rangeCells_positive; [exact Hrow |].
    apply cellRef_bounds.
  - intros Hrev. destruct (rangeCells s e) as [|rc l] eqn:Hcells; [reflexivity |].
    assert (rc ∈ rangeCells s e) as Hin by (rewrite Hcells; left).
    apply rangeCells_elem in Hin. unfold inRect in Hin.
    rewrite !andb_true_iff, !Z.leb_le in Hin. lia.
Qed.

Lemma expandRangeRefs_round_trip_witness :
  (fun name => cellRef (Some name)) <$> expandRangeRefs (Some "B2:C3")
  = [(2, 2); (2, 3); (3, 2); (3, 3)].
Proof.
  apply (expandRangeRefs_round_trip "B2:C3"); vm_compute;
    [reflexivity | reflexivity | discriminate].
Defined.

(** Writing one value under every key of a list. *)
Lemma foldl_insert_keys `{Countable K} {A} (v : A) (l : list K)
    (m0 : gmap K A) (k : K) :
  foldl (fun m i => <[i := v]> m) m0 l !! k
  = if bool_decide (k ∈ l) then Some v else m0 !! k.
Proof.
  revert m0. induction l as [|i l IH]; intros m0; cbn.
  - rewrite bool_decide_eq_false_2; [reflexivity | apply not_elem_of_nil].
  - rewrite IH. destruct (decide (k ∈ l)) as [Hin | Hout].
    + rewrite !bool_decide_eq_true_2; [reflexivity | now right | exact Hin].
    + rewrite (bool_decide_eq_false_2 (k ∈ l)) by exact Hout.
      destruct (decide (i = k)) as [-> | Hne].
      * rewrite bool_decide_eq_true_2 by now left. apply lookup_insert_eq.
      * rewrite bool_decide_eq_false_2.
        -- now apply lookup_insert_ne.
        -- intros Hin. apply elem_of_cons in Hin as [-> | Hin]; contradiction.
Qed.

Lemma expandRangeRefs_truthy (ref : option string) :
  expandRangeRefs (Color.truthy_string ref) = expandRangeRefs ref.
Proof. now destruct ref as [[|c r]|]. Qed.

Lemma addLink_lookup (relMap map : gmap string string) (link : linkElem)
    (name : string) :
  addLink relMap map link !! name
  = if bool_decide (name ∈ expandRangeRefs (link_ref link))
    then Some (linkTarget relMap link) else map !! name.
Proof.
  unfold addLink. rewrite <- (expandRangeRefs_truthy (link_ref link)).
  destruct (Color.truthy_string (link_ref link)) as [ref|].
  - apply foldl_insert_keys.
  - rewrite bool_decide_eq_false_2; [reflexivity | apply not_elem_of_nil].
Qed.

Lemma foldl_addLink_lookup (relMap : gmap string string) (links : list linkElem)
    (map : gmap string string) (name : string) :
  foldl (addLink relMap) map links !! name
  = match last (targetsOf relMap links name) with
    | Some target => Some target
    | None => map !! name
    end.
Proof.
  induction links as [|link links IH] using rev_ind; [reflexivity |].
  unfold targetsOf. rewrite foldl_snoc, addLink_lookup, omap_app, last_app.
  cbn. destruct (bool_decide _); cbn; [reflexivity | exact IH].
Qed.

(** X5. The hyperlink map holds, under a cell name, the target of the
    last [hyperlink] element whose reference expands to that name, and
    nothing when no element does. *)
Theorem parseHyperlinks_lookup (links : list linkElem)
    (relsDoc : option (list relElem)) (name : string) :
  parseHyperlinks links relsDoc !! name
  = last (targetsOf (parseRels relsDoc) links name).
Proof.
  unfold parseHyperlinks. rewrite foldl_addLink_lookup, lookup_empty.
  now destruct (last _).
Qed.

(** X6. When the ranges of the [hyperlink] elements have corners below
    2^53 in magnitude and fewer than 2^32 cells each, every cell in the
    rectangle of the last element is found under the name [renderCell]
    looks it up by, with that element's target. *)
Theorem parseHyperlinks_range (links : list linkElem) (link : linkElem)
    (relsDoc : option (list relElem)) (ref : string) (r c : Z) :
  forallb (fun l => safeRange (link_ref l)) (links ++ [link]) = true ->
  link_ref link = Some ref ->
  Js.includes_char ":" ref = true ->
  inRect (cellRef (splitRange ref).1) (cellRef (splitRange ref).2) (r, c) = true ->
  parseHyperlinks (links ++ [link]) relsDoc !! cellName r c
  = Some (linkTarget (parseRels relsDoc) link).
Proof.
  intros _ Href Hcolon Hin. unfold parseHyperlinks.
  rewrite foldl_snoc, addLink_lookup, Href.
  rewrite bool_decide_eq_true_2; [reflexivity |].
  rewrite expandRangeRefs_colon by exact Hcolon.
  apply list_elem_of_fmap. exists (r, c). split; [reflexivity |].
  now apply rangeCells_elem.
Qed.

Lemma parseHyperlinks_range_witness :
  parseHyperlinks
    [ {| link_ref := Some "B2"; link_rid := None; link_id := None;
         link_location := Some "Sheet2!A1" |};
      {| link_ref := Some "A1:C2"; link_rid := Some "rId1"; link_id := None;
         link_location := None |} ]
    (Some [ {| rel_Id := Some "rId1";
               rel_Target := Some "https://example.org/" |} ])
    !! cellName 2 2
  = Some "https://example.org/".
Proof.
  apply (parseHyperlinks_range
           [ {| link_ref := Some "B2"; link_rid := None; link_id := None;
                link_location := Some "Sheet2!A1" |} ]
           {| link_ref := Some "A1:C2"; link_rid := Some "rId1";
              link_id := None; link_location := None |}
           (Some [ {| rel_Id := Some "rId1";
                      rel_Target := Some "https://example.org/" |} ])
           "A1:C2" 2 2);
    vm_compute; reflexivity.
Defined.

End LinkFacts.

(** ** Escaped text *)

Module EscapeFacts.
Import Links RefFacts.

Lemma replaceAll_app (c : ascii) (new a b : string) :
  replaceAll c new (a ++ b) = replaceAll c new a ++ replaceAll c new b.
Proof.
  induction a as [|x a IH]; [reflexivity |].
  rewrite string_app_cons. cbn [replaceAll].
  now rewrite IH, string_app_assoc.
Qed.

Lemma escapeHtml_app (a b : string) :
  escapeHtml (a ++ b) = escapeHtml a ++ escapeHtml b.
Proof. unfold escapeHtml. now rewrite !replaceAll_app. Qed.

Lemma entityOf_cases (c : ascii) :
  (c = "&"%char /\ entityOf c = "&amp;")
  \/ (c = "<"%char /\ entityOf c = "&lt;")
  \/ (c = ">"%char /\ entityOf c = "&gt;")
  \/ (c = "034"%char /\ entityOf c = "&quot;")
  \/ (c = "'"%char /\ entityOf c = "&#39;")
  \/ (entityOf c = String c ""
      /\ Ascii.eqb c "&" = false /\ Ascii.eqb c "<" = false
      /\ Ascii.eqb c ">" = false /\ Ascii.eqb c "034" = false
      /\ Ascii.eqb c "'" = false).
Proof.
  unfold entityOf.
  destruct (Ascii.eqb_spec c "&"); [now left |]. right.
  destruct (Ascii.eqb_spec c "<"); [now left |]. right.
  destruct (Ascii.eqb_spec c ">"); [now left |]. right.
  destruct (Ascii.eqb_spec c "034"); [now left |]. right.
  destruct (Ascii.eqb_spec c "'"); [now left |]. right.
  repeat split.
Qed.

Lemma escapeHtml_char (c : ascii) : escapeHtml (String c "") = entityOf c.
Proof.
  destruct (entityOf_cases c)
    as [[-> ->] | [[-> ->] | [[-> ->] | [[-> ->] | [[-> ->] | H]]]]];
    try reflexivity.
  destruct H as (-> & H1 & H2 & H3 & H4 & H5).
  unfold escapeHtml. cbn [replaceAll]. rewrite H1. cbn [replaceAll String.append].
  rewrite !string_app_nil_r. cbn [replaceAll]. rewrite H2.
  rewrite !string_app_nil_r. cbn [replaceAll]. rewrite H3.
  rewrite !string_app_nil_r. cbn [replaceAll]. rewrite H4.
  rewrite !string_app_nil_r. cbn [replaceAll]. rewrite H5.
  now rewrite !string_app_nil_r.
Qed.

Lemma escapeHtml_cons (c : ascii) (r : string) :
  escapeHtml (String c r) = entityOf c ++ escapeHtml r.
Proof.
  change (String c r) with (String c "" ++ r).
  now rewrite escapeHtml_app, escapeHtml_char.
Qed.

(** X7. The five replacements of [escapeHtml], made one after the
    other, never escape what an earlier one wrote: the result is the
    text with every character replaced once, [&], [<], [>], the double
    and the single quote by their entities and any other character by
    itself; so escaping distributes over concatenation. *)
Theorem escapeHtml_one_pass (text : string) :
  escapeHtml text = escapeChars text
  /\ forall more, escapeHtml (text ++ more) = escapeHtml text ++ escapeHtml more.
Proof.
  split; [| apply escapeHtml_app].
  induction text as [|c r IH]; [reflexivity |].
  rewrite escapeHtml_cons, IH. reflexivity.
Qed.

Lemma count_char_app (c : ascii) (a b : string) :
  Js.count_char c (a ++ b) = Js.count_char c a + Js.count_char c b.
Proof.
  induction a as [|x a IH]; [reflexivity |].
  rewrite string_app_cons. cbn [Js.count_char]. rewrite IH. lia.
Qed.

Lemma count_char_one (c d : ascii) :
  Js.count_char c (String d "") = if Ascii.eqb c d then 1 else 0.
Proof. cbn. now destruct (Ascii.eqb c d). Qed.

Lemma eqb_flip (c d : ascii) : Ascii.eqb c d = Ascii.eqb d c.
Proof. apply Ascii.eqb_sym. Qed.

(** The special characters in one entity. *)
Lemma count_entityOf (d : ascii) :
  Js.count_char "<" (entityOf d) = 0
  /\ Js.count_char ">" (entityOf d) = 0
  /\ Js.count_char "034" (entityOf d) = 0
  /\ Js.count_char "'" (entityOf d) = 0
  /\ Js.count_char "&" (entityOf d)
     = Js.count_char "&" (String d "") + Js.count_char "<" (String d "")
       + Js.count_char ">" (String d "") + Js.count_char "034" (String d "")
       + Js.count_char "'" (String d "").
Proof.
  destruct (entityOf_cases d)
    as [[-> ->] | [[-> ->] | [[-> ->] | [[-> ->] | [[-> ->] | H]]]]];
    try (repeat split; reflexivity).
  destruct H as (-> & H1 & H2 & H3 & H4 & H5).
  rewrite !count_char_one, !(eqb_flip _ d), H1, H2, H3, H4, H5.
  repeat split.
Qed.

Lemma count_escapeHtml (text : string) :
  Js.count_char "<" (escapeHtml text) = 0
  /\ Js.count_char ">" (escapeHtml text) = 0
  /\ Js.count_char "034" (escapeHtml text) = 0
  /\ Js.count_char "'" (escapeHtml text) = 0
  /\ Js.count_char "&" (escapeHtml text)
     = Js.count_char "&" text + Js.count_char "<" text
       + Js.count_char ">" text + Js.count_char "034" text
       + Js.count_char "'" text.
Proof.
  induction text as [|d r IH]; [repeat split |].
  rewrite escapeHtml_cons, !count_char_app.
  destruct IH as (-> & -> & -> & -> & ->).
  destruct (count_entityOf d) as (-> & -> & -> & -> & ->).
  change (String d r) with (String d "" ++ r). rewrite !count_char_app.
  repeat split; lia.
Qed.

(** X8. An escaped text holds no [<], no [>] and no quote of either
    kind, and one [&] for each of the five special characters of the
    text: every [&] of the result starts an entity. *)
Theorem escapeHtml_safe (text : string) :
  Js.count_char "<" (escapeHtml text) = 0
  /\ Js.count_char ">" (escapeHtml text) = 0
  /\ Js.count_char "034" (escapeHtml text) = 0
  /\ Js.count_char "'" (escapeHtml text) = 0
  /\ Js.count_char "&" (escapeHtml text)
     = Js.count_char "&" text + Js.count_char "<" text
       + Js.count_char ">" text + Js.count_char "034" text
       + Js.count_char "'" text.
Proof. apply count_escapeHtml. Qed.

Lemma entityOf_prefix (c d : ascii) (a b : string) :
  entityOf c ++ a = entityOf d ++ b -> c = d /\ a = b.
Proof.
  intros Heq.
  destruct (entityOf_cases c)
    as [[-> Hc] | [[-> Hc] | [[-> Hc] | [[-> Hc] | [[-> Hc] | Hc]]]]];
    destruct (entityOf_cases d)
      as [[-> Hd] | [[-> Hd] | [[-> Hd] | [[-> Hd] | [[-> Hd] | Hd]]]]];
    try destruct Hc as (Hc & Hc1 & Hc2 & Hc3 & Hc4 & Hc5);
    try destruct Hd as (Hd & Hd1 & Hd2 & Hd3 & Hd4 & Hd5);
    rewrite ?Hc, ?Hd in Heq;
    rewrite ?string_app_cons, ?string_app_nil_l in Heq;
    try discriminate Heq;
    try (injection Heq as ->; split; reflexivity);
    try (injection Heq as Hx _; subst; discriminate).
  injection Heq as -> ->. split; reflexivity.
Qed.

(** X9. [escapeHtml] loses nothing: two texts with the same escaped
    form are the same text. *)
Theorem escapeHtml_injective (a b : string) :
  escapeHtml a = escapeHtml b -> a = b.
Proof.
  revert b. induction a as [|c a IH]; intros [|d b] Heq.
  - reflexivity.
  - rewrite escapeHtml_cons in Heq. exfalso.
    destruct (entityOf_cases d)
      as [[_ Hd] | [[_ Hd] | [[_ Hd] | [[_ Hd] | [[_ Hd] | [Hd _]]]]]];
      rewrite Hd in Heq; discriminate Heq.
  - rewrite escapeHtml_cons in Heq. exfalso.
    destruct (entityOf_cases c)
      as [[_ Hc] | [[_ Hc] | [[_ Hc] | [[_ Hc] | [[_ Hc] | [Hc _]]]]]];
      rewrite Hc in Heq; discriminate Heq.
  - rewrite !escapeHtml_cons in Heq.
    apply entityOf_prefix in Heq as [-> Heq]. f_equal. now apply IH.
Qed.

Lemma escapeHtml_injective_witness :
  escapeHtml "a<b" = "a&lt;b" /\ "a<b" = "a<b".
Proof.
  split; [reflexivity |].
  apply (escapeHtml_injective "a<b" "a<b"). reflexivity.
Defined.

(** *** The anchor around the first URL *)

Lemma starts_with_app (p s : string) :
  Num.starts_with p s = true -> exists r, s = p ++ r.
Proof.
  unfold Num.starts_with. intros Heq%String.eqb_eq.
  revert s Heq. induction p as [|x p IH]; intros s Heq.
  - now exists s.
  - destruct s as [|y s]; [discriminate |].
    cbn in Heq. injection Heq as -> Heq.
    destruct (IH s Heq) as [r ->]. now exists r.
Qed.

Lemma includes_char_app_r (c : ascii) (a b : string) :
  Js.includes_char c b = true -> Js.includes_char c (a ++ b) = true.
Proof.
  intros Hb. induction a as [|x a IH]; [exact Hb |].
  rewrite string_app_cons. cbn [Js.includes_char]. rewrite IH.
  now destruct (Ascii.eqb c x).
Qed.

Lemma urlHere_colon (s : string) (n : nat) :
  urlHere s = Some n -> Js.includes_char ":" s = true.
Proof.
  unfold urlHere. intros Hurl.
  destruct (Num.starts_with "https://" s) eqn:H1.
  - apply starts_with_app in H1 as [r ->]. reflexivity.
  - destruct (Num.starts_with "http://" s) eqn:H2; [| discriminate].
    apply starts_with_app in H2 as [r ->]. reflexivity.
Qed.

Lemma findUrl_colon (s : string) (m : nat * nat) :
  findUrl s = Some m -> Js.includes_char ":" s = true.
Proof.
  revert m. induction s as [|x s IH]; intros m Hfind.
  - cbn in Hfind. discriminate.
  - cbn [findUrl] in Hfind.
    destruct (urlHere (String x s)) as [n|] eqn:Hhere.
    + now apply urlHere_colon in Hhere.
    + destruct (findUrl s) as [m'|]; [| discriminate].
      cbn [Js.includes_char]. rewrite (IH m' eq_refl).
      now destruct (Ascii.eqb ":" x).
Qed.

Lemma count_buildHyperlinkHtml (text target : string) :
  let html := buildHyperlinkHtml text target in
  let found := match findUrl text with Some _ => 1 | None => 0 end in
  Js.count_char "<" html = 2 * found
  /\ Js.count_char ">" html = 2 * found
  /\ Js.count_char "034" html = 8 * found
  /\ Js.count_char "'" html = 0.
Proof.
  unfold buildHyperlinkHtml.
  destruct (findUrl text) as [[index len]|].
  - cbv zeta. rewrite !count_char_app.
    set (href := if String.eqb target "" then _ else _).
    destruct (count_escapeHtml (String.substring 0 index text))
      as (-> & -> & -> & -> & _).
    destruct (count_escapeHtml href) as (-> & -> & -> & -> & _).
    destruct (count_escapeHtml (String.substring index len text))
      as (-> & -> & -> & -> & _).
    destruct (count_escapeHtml (dropString (index + len) text))
      as (-> & -> & -> & -> & _).
    repeat split.
  - cbv zeta. destruct (count_escapeHtml text) as (-> & -> & -> & -> & _).
    repeat split.
Qed.

(** X10. The markup [buildHyperlinkHtml] returns holds at most one
    anchor and nothing else that the browser reads as markup: with a
    URL in the text there are exactly two [<], two [>] and the eight
    double quotes of the anchor's four attributes, without one there
    is none of them; a single quote never occurs.  Neither the cell
    text nor the target can open a tag or close an attribute. *)
Theorem buildHyperlinkHtml_markup (text target : string) :
  let html := buildHyperlinkHtml text target in
  let found := match findUrl text with Some _ => 1 | None => 0 end in
  Js.count_char "<" html = 2 * found
  /\ Js.count_char ">" html = 2 * found
  /\ Js.count_char "034" html = 8 * found
  /\ Js.count_char "'" html = 0.
Proof. apply count_buildHyperlinkHtml. Qed.

(** X11. A cell text without a colon holds no URL: whatever target the
    sheet records for the cell, [buildHyperlinkHtml] returns the
    escaped text and no anchor. *)
Theorem buildHyperlinkHtml_plain (text target : string) :
  Js.includes_char ":" text = false ->
  buildHyperlinkHtml text target = escapeHtml text.
Proof.
  intros Hcolon. unfold buildHyperlinkHtml.
  destruct (findUrl text) as [m|] eqn:Hfind; [| reflexivity].
  apply findUrl_colon in Hfind. congruence.
Qed.

Lemma buildHyperlinkHtml_plain_witness :
  buildHyperlinkHtml "Terms & conditions" "https://example.org/terms"
  = "Terms &amp; conditions".
Proof.
  apply (buildHyperlinkHtml_plain "Terms & conditions"
           "https://example.org/terms").
  reflexivity.
Defined.

End EscapeFacts.

(** ** The theme part and colour elements *)

Module ThemeFacts.
Import Style Color Theme.

Lemma DEFAULT_THEME_dom (z : Z) :
  is_Some (DEFAULT_THEME !! z) <-> 0 <= z <= 11.
Proof.
  unfold DEFAULT_THEME. rewrite <- elem_of_dom.
  rewrite dom_list_to_map_L, elem_of_list_to_set. cbn [fmap list_fmap fst].
  rewrite !elem_of_cons, elem_of_nil. lia.
Qed.

Lemma colorMap_indices :
  Forall (fun entry : string * Z => 0 <= entry.2 <= 11) colorMap.
Proof. unfold colorMap. repeat constructor; cbn; lia. Qed.

(** [parseTheme] writes under the indices 0 to 11 only. *)
Lemma parseTheme_outside (colorScheme : option (string -> option schemeColor))
    (z : Z) :
  ~ 0 <= z <= 11 -> parseTheme colorScheme !! z = None.
Proof.
  intros Hout.
  assert ((Some <$> DEFAULT_THEME : gmap Z (option string)) !! z = None)
    as Hstart.
  { rewrite lookup_fmap. destruct (DEFAULT_THEME !! z) eqn:Hz; [| reflexivity].
    exfalso. apply Hout, DEFAULT_THEME_dom. now rewrite Hz. }
  unfold parseTheme. destruct colorScheme as [cs|]; [| exact Hstart].
  revert Hstart. generalize (Some <$> DEFAULT_THEME : gmap Z (option string)).
  pose proof colorMap_indices as Hall. revert Hall.
  generalize colorMap. intros l Hall.
  induction Hall as [|entry l Hentry _ IH]; intros m Hm; [exact Hm |].
  cbn [foldl]. apply IH. unfold setThemeColor.
  destruct (schemeValue cs entry); [| exact Hm].
  rewrite lookup_insert_ne; [exact Hm | lia].
Qed.

Lemma resolveColor_theme_is_Some (themeColors : gmap Z (option string))
    (i : option Z) (tint : float) :
  is_Some (resolveColor themeColors (Some (Theme i tint)))
  <-> is_Some (themeBase themeColors i).
Proof.
  unfold resolveColor. destruct (themeBase themeColors i) as [c|].
  - destruct (Num.truthy tint && negb (tint =? 0)%float); split; eauto.
  - reflexivity.
Qed.

(** X12. After [parseTheme], a theme colour resolves exactly when its
    index is one of 0 to 11, whatever the theme part holds and whatever
    the tint: a scheme that lacks a colour, or gives it no value, falls
    back on the default palette, and no other index can be filled. *)
Theorem parseTheme_resolves
    (colorScheme : option (string -> option schemeColor))
    (i : option Z) (tint : float) :
  is_Some (resolveColor (parseTheme colorScheme) (Some (Theme i tint)))
  <-> exists z, i = Some z /\ 0 <= z <= 11.
Proof.
  rewrite resolveColor_theme_is_Some. unfold themeBase.
  destruct i as [z|]; [| split; [intros [? ?]; discriminate
                                | intros (z & Hz & _); discriminate]].
  split.
  - intros Hsome. exists z. split; [reflexivity |].
    destruct (decide (0 <= z <= 11)) as [Hin | Hout]; [exact Hin |].
    rewrite (parseTheme_outside _ _ Hout) in Hsome. cbn in Hsome.
    now apply DEFAULT_THEME_dom.
  - intros (z' & Hz & Hrange). injection Hz as <-.
    destruct (truthy_string _); [eauto |].
    now apply DEFAULT_THEME_dom.
Qed.

Lemma foldl_setThemeColor (cs : string -> option schemeColor)
    (l : list (string * Z)) (m : gmap Z (option string)) (z : Z) :
  foldl (setThemeColor cs) m l !! z
  = match last (omap (fun entry => if bool_decide (entry.2 = z)
                                   then schemeValue cs entry else None) l) with
    | Some v => Some v
    | None => m !! z
    end.
Proof.
  apply (CascadeFacts.foldl_insert_last snd (schemeValue cs)).
Qed.

(** X13. A colour that the theme's scheme gives as an [srgbClr] with a
    value is the base colour of its index, with [lt1] at index 0 and
    [dk1] at index 1: a reference to that index without tint resolves
    to ['#'] and that value. *)
Theorem parseTheme_scheme_colour (cs : string -> option schemeColor)
    (name : string) (index : Z) (elem : schemeColor) (val : string) :
  (name, index) ∈ colorMap ->
  cs name = Some elem ->
  sc_srgbClr elem = Some (Some val) ->
  val <> "" ->
  resolveColor (parseTheme (Some cs)) (Some (Theme (Some index) 0))
  = Some ("#" ++ val).
Proof.
  intros Hin Hname Hsrgb Hval.
  assert (parseTheme (Some cs) !! index = Some (Some val)) as Hlookup.
  { unfold parseTheme. rewrite foldl_setThemeColor.
    assert (schemeValue cs (name, index) = Some (Some val)) as Hvalue.
    { unfold schemeValue. cbn. now rewrite Hname, Hsrgb. }
    unfold colorMap in *.
    repeat (apply elem_of_cons in Hin as [Hin | Hin];
            [injection Hin as -> ->; cbn; now rewrite Hvalue |]).
    now apply elem_of_nil in Hin. }
  unfold resolveColor, themeBase. rewrite Hlookup. cbn.
  now destruct val.
Qed.

Lemma parseTheme_scheme_colour_witness :
  resolveColor
    (parseTheme
       (Some (fun name =>
                if String.eqb name "lt1"
                then Some {| sc_srgbClr := Some (Some "FAFAFA");
                             sc_sysClr := None |}
                else None)))
    (Some (Theme (Some 0) 0))
  = Some "#FAFAFA".
Proof.
  apply (parseTheme_scheme_colour _ "lt1" 0
           {| sc_srgbClr := Some (Some "FAFAFA"); sc_sysClr := None |}
           "FAFAFA");
    [| reflexivity | reflexivity | discriminate].
  unfold colorMap. apply elem_of_cons. right. apply elem_of_cons. now left.
Defined.

(** X14. The attributes of a colour element are read in the order [rgb],
    [theme], [indexed]: with an [rgb] text the colour is ['#'] and that
    text, less its first two characters when it has eight, whatever the
    other attributes say; and with a [theme] attribute but no [rgb] the
    [indexed] attribute is never read, even when the theme index gives
    no colour. *)
Theorem parseColor_precedence (themeColors : gmap Z (option string))
    (e : colorElem) :
  (forall rgb,
      ce_rgb e = Some rgb -> rgb <> "" ->
      resolveColor themeColors (parseColor (Some e))
      = Some ("#" ++ (if Js.strlen rgb =? 8
                      then Js.substring_from 2 rgb else rgb)))
  /\ (forall indexed,
        truthy_string (ce_rgb e) = None -> is_Some (ce_theme e) ->
        parseColor (Some e)
        = parseColor (Some {| ce_rgb := ce_rgb e; ce_theme := ce_theme e;
                              ce_tint := ce_tint e; ce_indexed := indexed |})).
Proof.
  split.
  - intros rgb Hrgb Hne. unfold parseColor. rewrite Hrgb.
    destruct rgb as [|c r]; [contradiction |]. cbn [truthy_string resolveColor].
    change (String.eqb (String c r) "") with false. cbv iota.
    now destruct (Js.strlen (String c r) =? 8).
  - intros indexed Hrgb [theme Htheme]. unfold parseColor. cbn.
    now rewrite Hrgb, Htheme.
Qed.

Lemma parseColor_precedence_witness :
  resolveColor ∅
    (parseColor (Some {| ce_rgb := Some "FF1F4E79"; ce_theme := Some "4";
                         ce_tint := Some "0.5"; ce_indexed := Some "2" |}))
  = Some "#1F4E79".
Proof.
  pose proof (parseColor_precedence ∅
                {| ce_rgb := Some "FF1F4E79"; ce_theme := Some "4";
                   ce_tint := Some "0.5"; ce_indexed := Some "2" |})
    as [Hrgb _].
  apply (Hrgb "FF1F4E79"); [reflexivity | discriminate].
Defined.

Lemma addNumFmt_lookup (numFmts : gmap string string) (nf : numFmtElem)
    (key : string) :
  addNumFmt numFmts nf !! key
  = match (if bool_decide (truthy_string (nf_numFmtId nf) = Some key)
           then truthy_string (nf_formatCode nf) else None) with
    | Some code => Some code
    | None => numFmts !! key
    end.
Proof.
  unfold addNumFmt.
  destruct (truthy_string (nf_numFmtId nf)) as [id|].
  - destruct (truthy_string (nf_formatCode nf)) as [code|].
    + destruct (decide (id = key)) as [-> | Hne].
      * rewrite bool_decide_eq_true_2 by reflexivity. apply lookup_insert_eq.
      * rewrite bool_decide_eq_false_2 by congruence.
        now apply lookup_insert_ne.
    + now destruct (bool_decide _).
  - rewrite bool_decide_eq_false_2 by discriminate. reflexivity.
Qed.

Lemma parseNumFmts_lookup (elems : list numFmtElem) (fmtId : Z) :
  parseNumFmts elems !! Js.int_to_string fmtId = declaredCode elems fmtId.
Proof.
  unfold parseNumFmts, declaredCode.
  induction elems as [|nf elems IH] using rev_ind; [reflexivity |].
  rewrite foldl_snoc, addNumFmt_lookup, omap_app, last_app. cbn.
  destruct (if bool_decide _ then _ else _); [reflexivity | exact IH].
Qed.

(** X15. With the format table that [parseStyles] builds, the code of a
    format id is the code of the last [numFmt] element whose id text is
    the decimal text of the id and that has a code; only without one is
    it the built-in code of the id, and only without that "General".
    So an element overrides a built-in format, and an id written with
    a leading zero or a space is never found. *)
Theorem formatCode_declared (elems : list numFmtElem) (fmtId : Z) :
  Format.formatCode (parseNumFmts elems) (Some fmtId)
  = match declaredCode elems fmtId with
    | Some code => code
    | None => default "General" (Format.builtIn !! fmtId)
    end.
Proof.
  unfold Format.formatCode. cbn [Format.fmtKey].
  rewrite parseNumFmts_lookup.
  assert (truthy_string (declaredCode elems fmtId) = declaredCode elems fmtId)
    as ->.
  { unfold declaredCode.
    destruct (last _) as [code|] eqn:Hlast; [| reflexivity].
    apply last_Some_elem_of, list_elem_of_omap in Hlast as (nf & _ & Hcode).
    destruct (bool_decide _); [| discriminate].
    destruct (nf_formatCode nf) as [[|c r]|]; cbn in Hcode;
      try discriminate; now injection Hcode as <-. }
  destruct (declaredCode elems fmtId); [reflexivity |].
  cbn. now destruct (Format.builtIn !! fmtId).
Qed.

End ThemeFacts.

(** ** Columns, merged ranges and the rows of the grid *)

Module LayoutFacts.
Import Style Sheet Ref Merge Layout Overflow Grid.

(** *** The measured digit width *)

Lemma float_positive (x : float) :
  (0 <? x)%float = true
  <-> Prim2SF x = S754_infinity false
      \/ exists m e, Prim2SF x = S754_finite false m e.
Proof.
  rewrite (FloatAxioms.ltb_spec 0 x). change (Prim2SF 0) with (S754_zero false).
  unfold SFltb. destruct (Prim2SF x) as [s | s | | s m e]; cbn.
  - split; [discriminate | intros [H | (m & e & H)]; discriminate].
  - destruct s; split; try discriminate; eauto.
    intros [H | (m & e & H)]; discriminate.
  - split; [discriminate | intros [H | (m & e & H)]; discriminate].
  - destruct s; split; try discriminate; eauto.
    intros [H | (m' & e' & H)]; discriminate.
Qed.

Lemma float_positive_lt (x y : float) :
  (0 <? x)%float = true -> (x <? y)%float = true -> (0 <? y)%float = true.
Proof.
  intros Hx Hxy. apply float_positive. apply float_positive in Hx.
  rewrite (FloatAxioms.ltb_spec x y) in Hxy. unfold SFltb in Hxy.
  destruct Hx as [Hx | (m & e & Hx)]; rewrite Hx in Hxy;
    destruct (Prim2SF y) as [s | s | | s m' e']; cbn in Hxy;
    try discriminate; destruct s; try discriminate; eauto.
Qed.

Lemma float_positive_truthy (x : float) :
  (0 <? x)%float = true -> Num.truthy x = true.
Proof.
  intros Hx. apply float_positive in Hx.
  unfold Num.truthy, PrimFloat.is_zero, PrimFloat.is_nan. rewrite !FloatAxioms.eqb_spec.
  change (Prim2SF PrimFloat.zero) with (S754_zero false). unfold SFeqb.
  destruct Hx as [-> | (m & e & ->)]; cbn; [reflexivity |].
  now rewrite Z.compare_refl, Pos.compare_cont_refl.
Qed.

Lemma widest_positive (host : Host) (key : fontKey) (ds : list string)
    (max : float) :
  max = 0%float \/ (0 <? max)%float = true ->
  foldl (fun max d => let w := canvasWidth host key d in
                      if (max <? w)%float then w else max) max ds = 0%float
  \/ (0 <? foldl (fun max d => let w := canvasWidth host key d in
                               if (max <? w)%float then w else max) max ds)%float
     = true.
Proof.
  revert max. induction ds as [|d ds IH]; intros max Hmax; [exact Hmax |].
  cbn [foldl]. apply IH.
  destruct (max <? canvasWidth host key d)%float eqn:Hlt; [| exact Hmax].
  right. destruct Hmax as [-> | Hpos]; [exact Hlt |].
  now apply (float_positive_lt max).
Qed.

(** X16. The digit width that [measureMaxDigitWidth] returns is above
    zero for every canvas, also one that measures every digit as 0, as
    negative or as NaN; so [calcColumnWidthPx] never replaces it by its
    own fallback of 7 and never divides by zero. *)
Theorem measureMaxDigitWidth_positive (host : Host) (T : tables) :
  (0 <? measureMaxDigitWidth host T)%float = true
  /\ ColumnWidth.effective_mdw (measureMaxDigitWidth host T)
     = measureMaxDigitWidth host T.
Proof.
  assert ((0 <? measureMaxDigitWidth host T)%float = true) as Hpos.
  { pose proof (widest_positive host (fontKeyOf T None)
                  ["0"; "1"; "2"; "3"; "4"; "5"; "6"; "7"; "8"; "9"]
                  0%float (or_introl eq_refl)) as Hwidest.
    unfold measureMaxDigitWidth.
    set (widest := foldl _ _ _) in *. clearbody widest. cbv zeta.
    destruct Hwidest as [-> | Hpos]; [reflexivity |].
    unfold Num.or_else. now rewrite (float_positive_truthy _ Hpos). }
  split; [exact Hpos |].
  unfold ColumnWidth.effective_mdw. cbn.
  now rewrite (float_positive_truthy _ Hpos).
Qed.

(** *** Column widths *)

Lemma addCol_widths (acc : gmap Z float * gmap Z Z) (col : colElem) (c : Z) :
  (addCol acc col).1 !! c
  = if covers col c then Some (colWidth col) else acc.1 !! c.
Proof.
  unfold addCol.
  set (range := colRange _ _).
  assert (forall l (a : gmap Z float * gmap Z Z),
            (foldl (fun '(colWidths, colStyles) i =>
                      (<[i := colWidth col]> colWidths,
                       match colStyleIndex col with
                       | Some styleIndex => <[i := styleIndex]> colStyles
                       | None => colStyles
                       end)) a l).1
            = foldl (fun m i => <[i := colWidth col]> m) a.1 l) as Hfst.
  { induction l as [|i l IH]; intros [w s]; cbn; [reflexivity |].
    now rewrite IH. }
  rewrite Hfst, CascadeFacts.foldl_insert_all.
  destruct (covers col c) eqn:Hc.
  - apply CascadeFacts.covers_colRange in Hc. fold range in Hc.
    now rewrite bool_decide_eq_true_2.
  - rewrite bool_decide_eq_false_2; [reflexivity |].
    intros Hin. apply CascadeFacts.covers_colRange in Hin. congruence.
Qed.

Lemma parseCols_widths (cols : list colElem) (c : Z) :
  (parseCols cols).1 !! c = colLevelWidth cols c.
Proof.
  unfold parseCols, colLevelWidth.
  assert (forall l acc,
            (foldl addCol acc l).1 !! c
            = match last (omap (fun col => if covers col c
                                           then Some (colWidth col) else None) l)
              with
              | Some w => Some w
              | None => acc.1 !! c
              end) as Hfold.
  { induction l as [|col l IH] using rev_ind; intros acc; [reflexivity |].
    rewrite foldl_snoc, addCol_widths, omap_app, last_app. cbn.
    destruct (covers col c); cbn; [reflexivity | apply IH]. }
  rewrite Hfold. cbn. rewrite lookup_empty. now destruct (last _).
Qed.

Lemma colWidth_truthy (col : colElem) : Num.truthy (colWidth col) = true.
Proof.
  unfold colWidth, Num.or_else.
  destruct (Num.truthy (Num.parseFloat_attr (col_width col))) eqn:Hw;
    [exact Hw | reflexivity].
Qed.

(** X17. The pixel width of a column is computed from the width of the
    last [col] element that covers the column, and from 8.43 when no
    element covers it; the width of an element is never 0 or NaN, since
    a [width] attribute that is missing, zero or not a number counts
    as 8.43. *)
Theorem column_width_declared (cols : list colElem) (mdw : float)
    (maxCol c : Z) :
  let L := {| currentMaxCol := maxCol;
              currentColWidths := (parseCols cols).1;
              currentMDW := mdw |} in
  columnPx L c
  = ColumnWidth.calcColumnWidthPx mdw (default 8.43%float (colLevelWidth cols c))
  /\ forall w, colLevelWidth cols c = Some w -> Num.truthy w = true.
Proof.
  assert (forall w, colLevelWidth cols c = Some w -> Num.truthy w = true)
    as Htruthy.
  { intros w Hw. unfold colLevelWidth in Hw.
    apply last_Some_elem_of, list_elem_of_omap in Hw as (col & _ & Hcol).
    destruct (covers col c); [| discriminate].
    injection Hcol as <-. apply colWidth_truthy. }
  split; [| exact Htruthy].
  unfold columnPx. cbn [currentColWidths currentMDW].
  rewrite parseCols_widths.
  destruct (colLevelWidth cols c) as [w|] eqn:Hw; [| reflexivity].
  unfold Num.or_else. now rewrite (Htruthy w eq_refl).
Qed.

(** *** Merged ranges *)

Lemma foldl_hide (s : Z * Z) (l : list (Z * Z))
    (m : gmap (Z * Z) mergeInfo) (rc : Z * Z) :
  foldl (fun m rc' => if bool_decide (rc' = s) then m else <[rc' := Hidden]> m)
        m l !! rc
  = if bool_decide (rc ∈ l) && negb (bool_decide (rc = s))
    then Some Hidden else m !! rc.
Proof.
  revert m. induction l as [|x l IH]; intros m; cbn [foldl].
  - rewrite (bool_decide_eq_false_2 (rc ∈ [])) by apply not_elem_of_nil.
    reflexivity.
  - rewrite IH. destruct (decide (rc = s)) as [-> | Hne].
    + rewrite (bool_decide_eq_true_2 (s = s)) by reflexivity.
      rewrite !andb_false_r.
      destruct (decide (x = s)) as [-> | Hx].
      * now rewrite (bool_decide_eq_true_2 (s = s)).
      * rewrite (bool_decide_eq_false_2 (x = s)) by exact Hx.
        now rewrite lookup_insert_ne by exact Hx.
    + rewrite (bool_decide_eq_false_2 (rc = s)) by exact Hne.
      rewrite !andb_true_r.
      destruct (decide (rc ∈ l)) as [Hin | Hout].
      * rewrite (bool_decide_eq_true_2 (rc ∈ l)) by exact Hin.
        now rewrite (bool_decide_eq_true_2 (rc ∈ x :: l)) by now right.
      * rewrite (bool_decide_eq_false_2 (rc ∈ l)) by exact Hout.
        destruct (decide (x = rc)) as [-> | Hx].
        -- rewrite (bool_decide_eq_true_2 (rc ∈ rc :: l)) by now left.
           rewrite (bool_decide_eq_false_2 (rc = s)) by exact Hne.
           apply lookup_insert_eq.
        -- rewrite (bool_decide_eq_false_2 (rc ∈ x :: l)).
           ++ destruct (bool_decide (x = s)); [reflexivity |].
              now apply lookup_insert_ne.
           ++ intros Hin. apply elem_of_cons in Hin as [-> | Hin]; contradiction.
Qed.

Lemma bool_decide_rangeCells (s e rc : Z * Z) :
  bool_decide (rc ∈ rangeCells s e) = inRect s e rc.
Proof.
  destruct (inRect s e rc) eqn:Hin.
  - apply bool_decide_eq_true_2. now apply LinkFacts.rangeCells_elem.
  - apply bool_decide_eq_false_2. intros H%LinkFacts.rangeCells_elem. congruence.
Qed.

Lemma addMerge_lookup (acc : gmap (Z * Z) mergeInfo * gmap (Z * Z) span)
    (ref : option string) (rc : Z * Z) :
  (addMerge acc ref).1 !! rc
  = match roleFrom rc ref with
    | Some role => Some role
    | None => acc.1 !! rc
    end
  /\ (addMerge acc ref).2 !! rc
     = match spanFrom rc ref with
       | Some sp => Some sp
       | None => acc.2 !! rc
       end.
Proof.
  unfold addMerge, roleFrom, spanFrom, corners.
  destruct (Color.truthy_string ref) as [text|]; [| split; reflexivity].
  destruct (splitRange text) as [start end_].
  destruct acc as [merges spans]. cbn [fst snd].
  set (s := cellRef start). set (e := cellRef end_).
  split.
  - rewrite foldl_hide, bool_decide_rangeCells.
    destruct (decide (rc = s)) as [-> | Hne].
    + rewrite (bool_decide_eq_true_2 (s = s)) by reflexivity.
      rewrite andb_false_r. apply lookup_insert_eq.
    + rewrite (bool_decide_eq_false_2 (rc = s)) by exact Hne.
      rewrite andb_true_r. destruct (inRect s e rc); [reflexivity |].
      apply lookup_insert_ne. congruence.
  - rewrite (LinkFacts.foldl_insert_keys _ (rangeCells s e)).
    rewrite bool_decide_rangeCells. now destruct (inRect s e rc).
Qed.

(** X18. After the loop over the [mergeCell] elements every cell has the
    role that the last element concerned with it gives it: the anchor
    of a range, with the range's row and column count, at the first
    corner, and a hidden cell elsewhere in the rectangle; and it has the
    span of the last element whose rectangle holds it. *)
Theorem parseMerges_lookup (refs : list (option string)) (rc : Z * Z) :
  (parseMerges refs).1 !! rc = last (omap (roleFrom rc) refs)
  /\ (parseMerges refs).2 !! rc = last (omap (spanFrom rc) refs).
Proof.
  unfold parseMerges.
  assert (forall l acc,
            (foldl addMerge acc l).1 !! rc
            = match last (omap (roleFrom rc) l) with
              | Some role => Some role
              | None => acc.1 !! rc
              end
            /\ (foldl addMerge acc l).2 !! rc
               = match last (omap (spanFrom rc) l) with
                 | Some sp => Some sp
                 | None => acc.2 !! rc
                 end) as Hfold.
  { induction l as [|ref l IH] using rev_ind; intros acc;
      [split; reflexivity |].
    rewrite foldl_snoc, !omap_app, !last_app.
    destruct (addMerge_lookup (foldl addMerge acc l) ref rc) as [-> ->].
    destruct (IH acc) as [IH1 IH2]. cbn.
    split.
    - destruct (roleFrom rc ref); [reflexivity | exact IH1].
    - destruct (spanFrom rc ref); [reflexivity | exact IH2]. }
  destruct (Hfold refs (∅, ∅)) as [-> ->]. cbn. rewrite !lookup_empty.
  split; now destruct (last _).
Qed.

(** *** The rows of the grid *)

Lemma cellMapOf_lookup (row : rowElem) (c : Z) :
  cellMapOf row !! c = cellOfColumn row c.
Proof.
  unfold cellMapOf, cellOfColumn.
  assert (forall l (m0 : gmap Z cellElem),
            foldl (fun m x => <[(cellRef (c_r x)).2 := x]> m) m0 l !! c
            = match last (filter (fun ce => (cellRef (c_r ce)).2 = c) l) with
              | Some ce => Some ce
              | None => m0 !! c
              end) as Hfold.
  { induction l as [|x l IH] using rev_ind; intros m0; [reflexivity |].
    rewrite foldl_snoc, filter_app, last_app.
    rewrite filter_cons, filter_nil.
    destruct (decide ((cellRef (c_r x)).2 = c)) as [Hx | Hx]; cbn.
    - rewrite Hx. apply lookup_insert_eq.
    - rewrite lookup_insert_ne by exact Hx. apply IH. }
  rewrite Hfold, lookup_empty. now destruct (last _).
Qed.

(** X19. The cell shown in a column of a row is the last cell of the row
    element whose reference names that column; the row number written
    in the reference plays no part, and of two cells that name one
    column the later one is shown. *)
Theorem cellMap_by_column (row : rowElem) (c : Z) :
  cellMapOf row !! c = cellOfColumn row c
  /\ forall ce, cellMapOf row !! c = Some ce ->
               ce ∈ row_cells row /\ (cellRef (c_r ce)).2 = c.
Proof.
  split; [apply cellMapOf_lookup |].
  intros ce Hce. rewrite cellMapOf_lookup in Hce. unfold cellOfColumn in Hce.
  apply last_Some_elem_of, list_elem_of_filter in Hce as [Hcol Hin].
  now split.
Qed.

(** The row of the table body that shows a row element. *)
Lemma renderRow_shows (merges : gmap (Z * Z) mergeInfo) (maxCol : Z)
    (lastRow : option Z) (row : rowElem) :
  Js.gt (rowNumOf row) 1000 = false ->
  {| tr_label := rowNumOf row; tr_row := Some row;
     tr_cells := renderCells merges maxCol row (rowNumOf row) |}
  ∈ (renderRow merges maxCol lastRow row).1.
Proof.
  intros Hgt. unfold renderRow. rewrite Hgt. cbn.
  apply elem_of_app. right. left.
Qed.

Lemma renderRows_shows (merges : gmap (Z * Z) mergeInfo) (maxCol : Z)
    (rows : list rowElem) (row : rowElem) :
  row ∈ rows ->
  Js.gt (rowNumOf row) 1000 = false ->
  {| tr_label := rowNumOf row; tr_row := Some row;
     tr_cells := renderCells merges maxCol row (rowNumOf row) |}
  ∈ renderRows merges maxCol rows.
Proof.
  intros Hin Hgt. unfold renderRows.
  set (step := fun '(trs, lastRow) row =>
                 let '(more, lastRow) := renderRow merges maxCol lastRow row in
                 ((trs ++ more)%list, lastRow)).
  set (tr := {| tr_label := rowNumOf row; tr_row := Some row;
                tr_cells := renderCells merges maxCol row (rowNumOf row) |}).
  assert (forall l acc,
            (tr ∈ acc.1 \/ row ∈ l) -> tr ∈ (foldl step acc l).1) as Hfold.
  { induction l as [|x l IH]; intros [trs lastRow] Hcase; cbn [foldl].
    - destruct Hcase as [Hacc | Hnil]; [exact Hacc |].
      now apply elem_of_nil in Hnil.
    - apply IH. unfold step.
      pose proof (renderRow_shows merges maxCol lastRow x) as Hshow.
      destruct (renderRow merges maxCol lastRow x) as [more lastRow'].
      cbn [fst snd] in *.
      destruct Hcase as [Hacc | Hcons].
      + left. apply elem_of_app. now left.
      + apply elem_of_cons in Hcons as [<- | Hl]; [| now right].
        left. apply elem_of_app. right. now apply Hshow. }
  apply Hfold. now right.
Qed.

Lemma renderCells_columns (merges : gmap (Z * Z) mergeInfo) (maxCol : Z)
    (row : rowElem) (rowNum : option Z) (cols : list Z) :
  let cells :=
    omap (fun c =>
            match at_rc merges rowNum c with
            | Some Hidden => None
            | Some (Master rowspan colspan) =>
                Some {| td_col := c; td_cell := cellMapOf row !! c;
                        td_span := Some (rowspan, colspan) |}
            | None =>
                Some {| td_col := c; td_cell := cellMapOf row !! c;
                        td_span := None |}
            end) cols in
  td_col <$> cells = filter (fun c => hiddenAt merges rowNum c = false) cols
  /\ Forall (fun td => td_cell td = cellOfColumn row (td_col td)
                       /\ td_span td = spanAt merges rowNum (td_col td)) cells.
Proof.
  cbv zeta. induction cols as [|c cols [IHcols IHall]]; [split; constructor |].
  cbn [omap list_omap]. rewrite filter_cons.
  assert (hiddenAt merges rowNum c
          = match at_rc merges rowNum c with Some Hidden => true | _ => false end)
    as Hhidden by reflexivity.
  assert (spanAt merges rowNum c
          = match at_rc merges rowNum c with
            | Some (Master rowspan colspan) => Some (rowspan, colspan)
            | _ => None
            end) as Hspan by reflexivity.
  destruct (at_rc merges rowNum c) as [[rowspan colspan | ] | ]; cbn.
  - rewrite decide_True by exact Hhidden. split; [now rewrite IHcols |].
    constructor; [| exact IHall]. cbn. rewrite Hspan.
    split; [apply cellMapOf_lookup | reflexivity].
  - rewrite decide_False by (rewrite Hhidden; discriminate). now split.
  - rewrite decide_True by exact Hhidden. split; [now rewrite IHcols |].
    constructor; [| exact IHall]. cbn. rewrite Hspan.
    split; [apply cellMapOf_lookup | reflexivity].
Qed.

(** The labels of the rows that the [while] loop appends. *)
Lemma fillEmptyRows_labels (turns : nat) (lastRow rowNum maxCol : Z) :
  1000 - lastRow <= Z.of_nat turns ->
  tr_label <$> (fillEmptyRows turns lastRow rowNum maxCol).1
  = Some <$> seqZ (lastRow + 1) (Z.min (rowNum - 1) 1000 - lastRow).
Proof.
  revert lastRow. induction turns as [|n IH]; intros lastRow Hturns;
    cbn [fillEmptyRows].
  - rewrite seqZ_nil by lia. reflexivity.
  - destruct ((lastRow <? rowNum - 1) && (lastRow <? 1000)) eqn:Hcond.
    + apply andb_true_iff in Hcond as [H1%Z.ltb_lt H2%Z.ltb_lt].
      specialize (IH (lastRow + 1) ltac:(lia)).
      destruct (fillEmptyRows n (lastRow + 1) rowNum maxCol) as [trs final].
      cbn [fst] in *. rewrite fmap_cons, IH.
      rewrite (seqZ_cons (lastRow + 1)) by lia. cbn [tr_label emptyTr].
      rewrite fmap_cons. do 3 f_equal; lia.
    + apply andb_false_iff in Hcond.
      rewrite seqZ_nil; [reflexivity |].
      destruct Hcond as [H%Z.ltb_ge | H%Z.ltb_ge]; lia.
Qed.

Lemma renderRow_labels (merges : gmap (Z * Z) mergeInfo) (maxCol : Z)
    (l n : Z) (row : rowElem) :
  rowNumOf row = Some n -> 0 <= l < n ->
  tr_label <$> (renderRow merges maxCol (Some l) row).1
  = Some <$> seqZ (Z.min l 1000 + 1) (Z.min n 1000 - Z.min l 1000)
  /\ (renderRow merges maxCol (Some l) row).2 = Some n.
Proof.
  intros Hn Hl. unfold renderRow. rewrite Hn. cbn [Js.gt].
  pose proof (fillEmptyRows_labels (Z.to_nat (1000 - l)) l n maxCol
                ltac:(lia)) as Hfill.
  destruct (1000 <? n) eqn:Hbig; cbn [fst snd]; (split; [| reflexivity]).
  - apply Z.ltb_lt in Hbig. rewrite Hfill.
    destruct (Z.le_gt_cases 1000 l) as [Hge | Hlt].
    + rewrite !seqZ_nil by lia. reflexivity.
    + do 2 f_equal; lia.
  - apply Z.ltb_ge in Hbig. rewrite fmap_app, Hfill. cbn [fmap list_fmap tr_label].
    replace (Z.min n 1000 - Z.min l 1000) with ((n - 1 - l) + 1) by lia.
    rewrite seqZ_app by lia. rewrite fmap_app.
    replace (Z.min (n - 1) 1000 - l) with (n - 1 - l) by lia.
    replace (Z.min l 1000 + 1) with (l + 1) by lia.
    f_equal. rewrite seqZ_cons, seqZ_nil by lia. cbn. do 2 f_equal. lia.
Qed.

Lemma last_cons_default {A} (x d : A) (l : list A) :
  List.last (x :: l) d = List.last l x.
Proof.
  revert x d. induction l as [|y l IH]; intros x d; [reflexivity |].
  change (List.last (x :: y :: l) d) with (List.last (y :: l) d).
  now rewrite !IH.
Qed.

Lemma renderRows_labels_from (merges : gmap (Z * Z) mergeInfo) (maxCol : Z)
    (rows : list rowElem) (nums : list Z) (l : Z) (trs : list trOut) :
  rowNumOf <$> rows = Some <$> nums ->
  increasingFrom l nums = true ->
  0 <= l ->
  tr_label <$> trs = Some <$> seqZ 1 (Z.min l 1000) ->
  tr_label
    <$> (foldl (fun '(trs, lastRow) row =>
                  let '(more, lastRow) := renderRow merges maxCol lastRow row in
                  ((trs ++ more)%list, lastRow))
               (trs, Some l) rows).1
  = Some <$> seqZ 1 (Z.min (List.last nums l) 1000).
Proof.
  revert nums l trs. induction rows as [|row rows IH];
    intros nums l trs Hnums Hinc Hl Htrs.
  - destruct nums; [exact Htrs | discriminate].
  - destruct nums as [|n nums]; [discriminate |].
    cbn in Hnums. injection Hnums as Hn Hnums.
    cbn [increasingFrom] in Hinc.
    apply andb_true_iff in Hinc as [Hlt%Z.ltb_lt Hinc].
    cbn [foldl].
    destruct (renderRow_labels merges maxCol l n row Hn ltac:(lia))
      as [Hlabels Hlast].
    destruct (renderRow merges maxCol (Some l) row) as [more lastRow].
    cbn [fst snd] in *. subst lastRow.
    rewrite last_cons_default.
    apply IH; [exact Hnums | exact Hinc | lia |].
    rewrite fmap_app, Htrs, Hlabels, <- fmap_app. f_equal.
    replace (Z.min n 1000) with (Z.min l 1000 + (Z.min n 1000 - Z.min l 1000))
      at 2 by lia.
    rewrite seqZ_app by lia. f_equal. f_equal. lia.
Qed.

Lemma renderRows_labels_all (merges : gmap (Z * Z) mergeInfo) (maxCol : Z)
    (rows : list rowElem) (nums : list Z) :
  rowNumOf <$> rows = Some <$> nums ->
  increasingFrom 0 nums = true ->
  tr_label <$> renderRows merges maxCol rows
  = Some <$> seqZ 1 (Z.min (List.last nums 0) 1000).
Proof.
  intros Hnums Hinc. unfold renderRows.
  apply (renderRows_labels_from merges maxCol rows nums 0 []);
    [exact Hnums | exact Hinc | lia | reflexivity].
Qed.

End LayoutFacts.

(** ** The content of a cell *)

Module RenderFacts.
Import Style Sheet Ref Overflow Render.

Lemma renderCellValue_rawText (host : Host) (T : tables) (ce : cellElem)
    (styleIndex : option Z) :
  renderCellValue host T ce styleIndex
  = let value := rawText T ce in
    if is_numeric_type (c_t ce) then
      let numVal := Num.parseFloat value in
      match Js.arr_get (cellXfs T)
              (Some (resolvedStyleIndex (Some ce) styleIndex)) with
      | Some cellStyle =>
          if negb (Num.isNaN numVal)
          then Format.formatNumber host (numFmts T) numVal
                 (Some (numFmtId cellStyle))
          else Returns value
      | None => Returns value
      end
    else Returns value.
Proof.
  unfold renderCellValue, rawText. cbv zeta.
  destruct (c_t ce) as [t|]; [| reflexivity].
  destruct (decide (t = "s")) as [-> | Hs];
    [now destruct (String.eqb (default "" (c_v ce)) "") |].
  destruct (decide (t = "inlineStr")) as [-> | Hi]; [reflexivity |].
  destruct (decide (t = "b")) as [-> | Hb]; [reflexivity |].
  rewrite !bool_decide_eq_false_2 by congruence. reflexivity.
Qed.

(** X22. The text [renderCell] shows for a cell is the display text
    [getCellDisplayText] computes for it, on which the overflow of its
    neighbours depends, whenever the cell is not numeric or its style
    index is an entry of [cellXfs]; and for a cell that is not numeric
    neither text depends on the style. *)
Theorem renderCell_shows_display_text (host : Host) (T : tables)
    (ce : cellElem) (styleIndex : option Z) :
  (is_numeric_type (c_t ce) = false ->
   forall other,
     renderCellValue host T ce styleIndex = Returns (rawText T ce)
     /\ getCellDisplayText host T ce other = Returns (rawText T ce))
  /\ (is_Some (styleAt T styleIndex) ->
      renderCellValue host T ce styleIndex
      = getCellDisplayText host T ce styleIndex).
Proof.
  rewrite renderCellValue_rawText. unfold getCellDisplayText. cbv zeta.
  split.
  - intros Htext other. now rewrite Htext.
  - intros [style Hstyle].
    destruct styleIndex as [i|]; [| discriminate].
    change (styleAt T (Some i)) with (Js.arr_get (cellXfs T) (Some i)) in *.
    cbn [resolvedStyleIndex]. rewrite Hstyle.
    cbn [fmap option_fmap option_map].
    destruct (is_numeric_type (c_t ce)); [| reflexivity]. cbn [andb].
    destruct (String.eqb_spec (rawText T ce) "") as [Hempty | Hfull];
      cbn [negb]; [| reflexivity].
    rewrite Hempty. reflexivity.
Qed.

(** X23. Whatever the workbook holds, the markup that [renderCell]
    assigns to [innerHTML] is the escaped cell text with at most one
    anchor: two [<] and [>] and eight double quotes when the text holds
    a URL, none without, and never a single quote.  Markup is assigned
    only to a cell with a recorded hyperlink, and it stays only when
    the overlay of an overflowing text does not replace it. *)
Theorem renderCell_markup (host : Host) (T : tables) (L : layout)
    (hyperlinkMap : gmap string string) (ce : cellElem)
    (styleIndex rowNum : option Z) (colNum : Z) (overflowEndCol : option Z)
    (html : string) :
  renderCellContent host T L hyperlinkMap ce styleIndex rowNum colNum
    overflowEndCol = Returns (Html html) ->
  is_Some (hyperlinkMap !! (colName colNum ++ rowText rowNum))
  /\ exists value,
       renderCellValue host T ce styleIndex = Returns value
       /\ let found := match Links.findUrl value with Some _ => 1 | None => 0 end in
          Js.count_char "<" html = 2 * found
          /\ Js.count_char ">" html = 2 * found
          /\ Js.count_char "034" html = 8 * found
          /\ Js.count_char "'" html = 0
          /\ forall endCol,
               overflowEndCol = Some endCol -> endCol <> 0 ->
               colNum < endCol -> value = "".
Proof.
  unfold renderCellContent.
  destruct (renderCellValue host T ce styleIndex) as [value | err];
    cbn [mbind outcome_bind]; [| discriminate].
  destruct (hyperlinkMap !! (colName colNum ++ rowText rowNum))
    as [target|] eqn:Hlink.
  - intros Hhtml.
    assert (html = Links.buildHyperlinkHtml value target
            /\ forall endCol,
                 overflowEndCol = Some endCol -> endCol <> 0 ->
                 colNum < endCol -> value = "") as [-> Hoverlay].
    { destruct overflowEndCol as [endCol|].
      - destruct (negb (endCol =? 0) && (colNum <? endCol)
                  && negb (String.eqb value "")) eqn:Hover;
          [discriminate |].
        split; [congruence |].
        intros endCol' [= <-] Hnonzero Hright.
        apply Z.eqb_neq in Hnonzero. apply Z.ltb_lt in Hright.
        rewrite Hnonzero, Hright in Hover. cbn in Hover.
        destruct (String.eqb_spec value ""); [assumption | discriminate].
      - split; [congruence | discriminate]. }
    split; [eauto |]. exists value. split; [reflexivity |].
    pose proof (EscapeFacts.count_buildHyperlinkHtml value target)
      as (Hlt & Hgt & Hquote & Hapos).
    cbv zeta. auto.
  - intros Hhtml. exfalso.
    destruct overflowEndCol as [endCol|];
      [destruct (negb (endCol =? 0) && (colNum <? endCol)
                 && negb (String.eqb value "")) |];
      discriminate.
Qed.

(** A text with a URL in a cell for which the sheet records a
    hyperlink. *)
Lemma renderCell_markup_witness :
  is_Some (MoreExamples.linked_map !! (colName 1 ++ rowText (Some 1))).
Proof.
  refine (proj1 (renderCell_markup Examples.beijing Examples.plain_tables
                   MoreExamples.no_widths MoreExamples.linked_map
                   MoreExamples.linked_cell None (Some 1) 1 None
                   (Links.buildHyperlinkHtml "see https://example.org/ now"
                      "https://example.org/") _)).
  vm_compute. reflexivity.
Defined.

End RenderFacts.

(** ** Borders of a cell *)

Module CellBorderFacts.
Import Style MergedBorders CellBorders MergedBordersFacts.

Section Sides.
Context (host : Host) (T : tables) (currentMaxCol : Z)
        (resolveStyleIndex : option Z -> Z -> option Z).

Lemma applyBorderSide_other (startCol endCol : Z) (sd sd' : side)
    (bs : borderSide) (td : tdStyle) :
  sd <> sd' ->
  getBorder sd' (applyBorderSide host T currentMaxCol startCol endCol sd bs td)
  = getBorder sd' td.
Proof.
  intros Hne. unfold applyBorderSide, assignBorder.
  repeat case_match; try reflexivity.
  rewrite getBorder_setBorder. now destruct (decide (sd = sd')).
Qed.

Lemma applyBorderSide_left_edge (endCol : Z) (bs : borderSide) (td : tdStyle) :
  applyBorderSide host T currentMaxCol 1 endCol left bs td = td.
Proof. unfold applyBorderSide. now destruct (String.eqb (bs_style bs) ""). Qed.

Lemma applyBorderSide_right_edge (startCol : Z) (bs : borderSide)
    (td : tdStyle) :
  currentMaxCol <> 0 ->
  applyBorderSide host T currentMaxCol startCol currentMaxCol right bs td = td.
Proof.
  intros Hmax. unfold applyBorderSide.
  destruct (String.eqb (bs_style bs) ""); [reflexivity |].
  cbn [bool_decide andb].
  rewrite (bool_decide_eq_false_2 (right = left)) by discriminate.
  rewrite (bool_decide_eq_true_2 (right = right)) by reflexivity.
  rewrite Z.eqb_refl.
  replace (currentMaxCol =? 0) with false by (symmetry; now apply Z.eqb_neq).
  reflexivity.
Qed.

Lemma applyBorderSide_sets (startCol endCol : Z) (sd : side)
    (bs : borderSide) (td : tdStyle) :
  bs_style bs <> "" ->
  inner currentMaxCol startCol endCol sd ->
  cssAccepts host (borderCss T bs) = true ->
  getBorder sd (applyBorderSide host T currentMaxCol startCol endCol sd bs td)
  = borderCss T bs.
Proof.
  intros Hstyle [Hleft Hright] Hcss. unfold applyBorderSide, assignBorder.
  destruct (String.eqb_spec (bs_style bs) ""); [contradiction |].
  destruct (bool_decide (sd = left) && (startCol =? 1)) eqn:H1.
  { apply andb_true_iff in H1 as [Hsd%bool_decide_eq_true Hcol%Z.eqb_eq].
    now destruct Hleft. }
  destruct (bool_decide (sd = right) && negb (currentMaxCol =? 0)
            && (endCol =? currentMaxCol)) eqn:H2.
  { apply andb_true_iff in H2 as [H2 Hcol%Z.eqb_eq].
    apply andb_true_iff in H2 as [Hsd%bool_decide_eq_true Hmax%negb_true_iff].
    apply Z.eqb_neq in Hmax. now destruct Hright. }
  rewrite Hcss, getBorder_setBorder. now destruct (decide (sd = sd)).
Qed.

Lemma borderCss_nonempty (bs : borderSide) : borderCss T bs <> "".
Proof.
  unfold borderCss, lineOf.
  repeat case_match; simplify_eq; discriminate.
Qed.

Lemma inferSide_other (colNum : Z) (sd sd' : side) (extra : bool)
    (r : option Z) (c : Z) (from : side) (td : tdStyle) :
  sd <> sd' ->
  getBorder sd' (inferSide host T currentMaxCol resolveStyleIndex colNum sd
                   extra r c from td)
  = getBorder sd' td.
Proof.
  intros Hne. unfold inferSide.
  repeat case_match; try reflexivity. now apply applyBorderSide_other.
Qed.

Lemma inferSide_set (colNum : Z) (sd : side) (extra : bool)
    (r : option Z) (c : Z) (from : side) (td : tdStyle) :
  getBorder sd td <> "" ->
  inferSide host T currentMaxCol resolveStyleIndex colNum sd extra r c from td
  = td.
Proof.
  intros Hset. unfold inferSide.
  now destruct (String.eqb_spec (getBorder sd td) "").
Qed.

Lemma own_other (colNum : Z) (sd sd' : side) (b : border) (td : tdStyle) :
  sd <> sd' ->
  getBorder sd'
    match sideOf sd b with
    | Some bs => applyBorderSide host T currentMaxCol colNum colNum sd bs td
    | None => td
    end
  = getBorder sd' td.
Proof.
  intros Hne. destruct (sideOf sd b); [| reflexivity].
  now apply applyBorderSide_other.
Qed.

(** X24. [applyCellStyle] never draws the outer edges of the sheet: the
    left border property of a cell of column 1, and the right border
    property of a cell of the last column, are after the call what they
    were before it, whatever the cell's own border and its neighbours'
    borders are. *)
Theorem applyCellBorders_outer (cellStyle : cellXf) (rowNum : option Z)
    (colNum : Z) (td : tdStyle) :
  (colNum = 1 ->
   borderLeft (applyCellBorders host T currentMaxCol resolveStyleIndex
                 cellStyle rowNum colNum td)
   = borderLeft td)
  /\ (currentMaxCol <> 0 -> colNum = currentMaxCol ->
      borderRight (applyCellBorders host T currentMaxCol resolveStyleIndex
                     cellStyle rowNum colNum td)
      = borderRight td).
Proof.
  unfold applyCellBorders. cbv zeta. split.
  - intros ->. change borderLeft with (getBorder left).
    rewrite !inferSide_other by discriminate.
    unfold inferSide at 1. cbn [Z.ltb Z.compare Pos.compare Pos.compare_cont].
    change (1 <? 1) with false. rewrite andb_false_r.
    destruct (Js.arr_get (borders T) (Some (borderId cellStyle))) as [b|];
      [| reflexivity].
    cbn [foldl].
    destruct (sideOf left b) as [bs|].
    + rewrite applyBorderSide_left_edge. now rewrite !own_other by discriminate.
    + now rewrite !own_other by discriminate.
  - intros Hmax ->. change borderRight with (getBorder right).
    rewrite !inferSide_other by discriminate.
    assert (forall td',
              getBorder right
                (inferSide host T currentMaxCol resolveStyleIndex
                   currentMaxCol right true rowNum (currentMaxCol + 1) left td')
              = getBorder right td') as Hinfer.
    { intros td'. unfold inferSide.
      repeat case_match; try reflexivity.
      now rewrite applyBorderSide_right_edge. }
    rewrite Hinfer, inferSide_other by discriminate.
    destruct (Js.arr_get (borders T) (Some (borderId cellStyle))) as [b|];
      [| reflexivity].
    cbn [foldl]. rewrite !own_other by discriminate.
    destruct (sideOf right b) as [bs|]; [| now rewrite own_other by discriminate].
    rewrite applyBorderSide_right_edge by exact Hmax.
    now rewrite own_other by discriminate.
Qed.

Lemma fillSide_other (startCol endCol : Z) (sd sd' : side)
    (cells : list (Z * Z)) (td : tdStyle) :
  sd <> sd' ->
  getBorder sd' (fillSide host T currentMaxCol resolveStyleIndex startCol
                   endCol sd cells td)
  = getBorder sd' td.
Proof.
  intros Hne. unfold fillSide.
  repeat case_match; try reflexivity. now apply applyBorderSide_other.
Qed.

(** X25. [applyMergedBorders] never draws the outer edges either: for a
    range that starts in column 1 the anchor's left border property,
    and for a range that ends in the last column its right border
    property, are left as they were, whatever borders the cells of the
    range declare. *)
Theorem applyMergedBorders_outer (rowNum colNum rowspan colspan : Z)
    (td : tdStyle) :
  (colNum = 1 ->
   borderLeft (applyMergedBorders host T currentMaxCol resolveStyleIndex
                 rowNum colNum rowspan colspan td)
   = borderLeft td)
  /\ (currentMaxCol <> 0 -> colNum + colspan - 1 = currentMaxCol ->
      borderRight (applyMergedBorders host T currentMaxCol resolveStyleIndex
                     rowNum colNum rowspan colspan td)
      = borderRight td).
Proof.
  unfold applyMergedBorders. cbv zeta. split.
  - intros ->. change borderLeft with (getBorder left).
    rewrite fillSide_other by discriminate.
    unfold fillSide at 1.
    assert (forall bs td',
              getBorder left
                (applyBorderSide host T currentMaxCol 1 (1 + colspan - 1)
                   left bs td') = getBorder left td') as Hedge
      by (intros; now rewrite applyBorderSide_left_edge).
    repeat case_match; rewrite ?Hedge, !fillSide_other by discriminate;
      reflexivity.
  - intros Hmax Hend. rewrite Hend. change borderRight with (getBorder right).
    unfold fillSide at 1.
    assert (forall bs td',
              getBorder right
                (applyBorderSide host T currentMaxCol colNum currentMaxCol
                   right bs td') = getBorder right td') as Hedge
      by (intros; now rewrite applyBorderSide_right_edge).
    repeat case_match; rewrite ?Hedge, !fillSide_other by discriminate;
      reflexivity.
Qed.

(** X26. A border that the cell's own style declares for a side is the
    one drawn there, whatever the neighbours declare and whatever the
    property held before: for a side that is not an outer edge of the
    sheet, with a border style and a value the CSS parser accepts, the
    property holds the width, line and colour of the cell's own
    border. *)
Theorem applyCellBorders_own (cellStyle : cellXf) (rowNum : option Z)
    (colNum : Z) (td : tdStyle) (b : border) (sd : side) (bs : borderSide) :
  Js.arr_get (borders T) (Some (borderId cellStyle)) = Some b ->
  sideOf sd b = Some bs ->
  bs_style bs <> "" ->
  inner currentMaxCol colNum colNum sd ->
  cssAccepts host (borderCss T bs) = true ->
  getBorder sd (applyCellBorders host T currentMaxCol resolveStyleIndex
                  cellStyle rowNum colNum td)
  = borderCss T bs.
Proof.
  intros Hb Hside Hstyle Hinner Hcss.
  unfold applyCellBorders. cbv zeta. rewrite Hb. cbn [foldl].
  pose proof (borderCss_nonempty bs) as Hne.
  pose proof (fun td' => applyBorderSide_sets colNum colNum sd bs td'
                           Hstyle Hinner Hcss) as Hsets.
  destruct sd.
  - (* top *)
    rewrite inferSide_other by discriminate.
    rewrite inferSide_set;
      rewrite !inferSide_other by discriminate;
      rewrite !own_other by discriminate; rewrite Hside, Hsets;
      [reflexivity | exact Hne].
  - (* right *)
    rewrite !inferSide_other by discriminate.
    rewrite inferSide_set;
      rewrite ?inferSide_other by discriminate;
      rewrite !own_other by discriminate; rewrite Hside, Hsets;
      [reflexivity | exact Hne].
  - (* bottom *)
    rewrite inferSide_set;
      rewrite !inferSide_other by discriminate;
      rewrite ?own_other by discriminate; rewrite Hside, Hsets;
      [reflexivity | exact Hne].
  - (* left *)
    rewrite !inferSide_other by discriminate.
    rewrite inferSide_set; rewrite Hside, Hsets; [reflexivity | exact Hne].
Qed.

End Sides.

(** A cell of column 2 with thin borders of its own, between
    neighbours without a style. *)
Lemma applyCellBorders_own_witness :
  getBorder top
    (applyCellBorders Examples.beijing Examples.boxed_tables 5
       (fun _ _ => None) MoreExamples.boxed_xf (Some 2) 2 noBorders)
  = "1px solid #000".
Proof.
  apply (applyCellBorders_own Examples.beijing Examples.boxed_tables 5
           (fun _ _ => None) MoreExamples.boxed_xf (Some 2) 2 noBorders
           MoreExamples.boxed_border top Examples.thin).
  - reflexivity.
  - reflexivity.
  - discriminate.
  - split; intros [Hside _]; discriminate.
  - reflexivity.
Defined.

End CellBorderFacts.

(** ** When [formatNumber] raises *)

Module FormatErrorFacts.
Import Format.

Lemma count_char_nonneg (c : ascii) (s : string) : 0 <= Js.count_char c s.
Proof.
  induction s as [|d r IH]; cbn; [lia |]. destruct (Ascii.eqb c d); lia.
Qed.

Lemma zero_run_bounds (s : string) :
  0 <= zero_run s <= Js.count_char "0" s.
Proof.
  induction s as [|d r IH]; [cbn; lia |].
  pose proof (count_char_nonneg "0" r).
  destruct (Ascii.eqb_spec "0"%char d) as [<- | Hne].
  - change (zero_run (String "0" r)) with (1 + zero_run r).
    cbn [Js.count_char]. rewrite Ascii.eqb_refl. lia.
  - assert (zero_run (String d r) = 0) as ->.
    { destruct d as [[][][][][][][][]]; try reflexivity. now destruct Hne. }
    cbn [Js.count_char].
    replace (Ascii.eqb "0" d) with false
      by (symmetry; now apply Ascii.eqb_neq).
    lia.
Qed.

Lemma dot_zeros_bounds (fmt : string) (len : Z) :
  dot_zeros fmt = Some len ->
  2 <= len /\ len - 1 <= Js.count_char "0" fmt.
Proof.
  induction fmt as [|c r IH]; [discriminate |].
  cbn [dot_zeros Js.count_char].
  pose proof (zero_run_bounds r) as Hrun.
  destruct (Ascii.eqb c "." && (0 <? zero_run r)) eqn:Hdot.
  - intros [= <-]. apply andb_true_iff in Hdot as [_ Hpos%Z.ltb_lt].
    destruct (Ascii.eqb "0" c); lia.
  - intros Hrest. specialize (IH Hrest).
    destruct (Ascii.eqb "0" c); lia.
Qed.

Lemma toFixed_returns (x : float) (f : Z) :
  0 <= f <= 100 -> exists text, Num.toFixed x f = Returns text.
Proof.
  intros Hf. unfold Num.toFixed.
  replace ((f <? 0) || (100 <? f)) with false
    by (symmetry; apply orb_false_iff; split; apply Z.ltb_ge; lia).
  destruct (Num.to_Q x); [| eauto].
  destruct (Qle_bool _ _); eauto.
Qed.

Lemma toFixed_raises (x : float) (f : Z) :
  100 < f ->
  Num.toFixed x f
  = Throws "RangeError: toFixed() digits argument must be between 0 and 100".
Proof.
  intros Hf. unfold Num.toFixed.
  replace (100 <? f) with true by (symmetry; apply Z.ltb_lt; lia).
  now rewrite orb_true_r.
Qed.

Lemma toLocaleString_returns (x : float) (d : Z) :
  0 <= d <= 100 -> exists text, toLocaleString x d = Returns text.
Proof.
  intros Hd. unfold toLocaleString.
  replace ((d <? 0) || (100 <? d)) with false
    by (symmetry; apply orb_false_iff; split; apply Z.ltb_ge; lia).
  destruct (Num.to_Q x); eauto.
Qed.

Lemma formatWith_returns (host : Host) (fmt : string) (value : float) :
  Js.count_char "0" fmt <= 100 ->
  exists text, formatWith host fmt value = Returns text.
Proof.
  intros Hzeros. unfold formatWith.
  destruct (dateRule host fmt value) as [r|] eqn:Hdate.
  { unfold dateRule in Hdate.
    destruct (has_ymd fmt && (0 <? value)%float); [| discriminate].
    destruct (timeClip _); [| discriminate]. injection Hdate as <-. eauto. }
  pose proof (count_char_nonneg "0" fmt) as Hnonneg.
  unfold percentRule. destruct (Js.includes_char "%" fmt).
  { destruct (toFixed_returns (value * 100)%float
                (Z.max 0 (Js.count_char "0" fmt - 1)) ltac:(lia)) as [text ->].
    cbn. eauto. }
  unfold thousandsRule. destruct (Js.includes_char "," fmt).
  { apply toLocaleString_returns.
    destruct (dot_zeros fmt) as [len|] eqn:Hlen; cbn [default from_option];
      unfold id; [| lia].
    apply dot_zeros_bounds in Hlen. lia. }
  unfold fixedRule. destruct (dot_zeros fmt) as [len|] eqn:Hlen.
  { apply toFixed_returns. apply dot_zeros_bounds in Hlen. lia. }
  unfold generalRule. destruct (Num.isInteger value); eauto.
Qed.

Lemma builtIn_zeros (fmtId : option Z) :
  Js.count_char "0" (default "General" (fmtId ≫= (fun z => builtIn !! z)))
  <= 100.
Proof.
  destruct fmtId as [z|]; [| cbn; lia]. cbn [mbind option_bind].
  destruct (builtIn !! z) as [code|] eqn:Hcode; [| cbn; lia].
  assert (is_Some (builtIn !! z)) as Hsome by (now rewrite Hcode).
  apply FormatFacts.builtIn_ids in Hsome.
  repeat (apply elem_of_cons in Hsome as [-> | Hsome];
          [vm_compute in Hcode; injection Hcode as <-; vm_compute; discriminate |]).
  now apply elem_of_nil in Hsome.
Qed.

(** X27. [formatNumber] returns a text, and raises nothing, for every
    value under every format code that holds at most 100 characters
    ['0']; that is the case of every format id for which the workbook
    declares no code of its own. *)
Theorem formatNumber_returns (host : Host) (numFmts : gmap string string)
    (value : float) (fmtId : option Z) :
  Js.count_char "0" (formatCode numFmts fmtId) <= 100
  \/ numFmts !! fmtKey fmtId = None ->
  exists text, formatNumber host numFmts value fmtId = Returns text.
Proof.
  intros Hcode. unfold formatNumber. apply formatWith_returns.
  destruct Hcode as [Hzeros | Hnone]; [exact Hzeros |].
  unfold formatCode. rewrite Hnone. cbn [Color.truthy_string].
  pose proof (builtIn_zeros fmtId) as Hbuilt.
  now destruct (fmtId ≫= _).
Qed.

Lemma formatNumber_returns_witness :
  exists text,
    formatNumber Examples.beijing ∅ 1234.5%float (Some 4) = Returns text.
Proof.
  apply (formatNumber_returns Examples.beijing ∅ 1234.5%float (Some 4)).
  right. reflexivity.
Defined.

(** X28. A percent code with more than 101 characters ['0'] and none of
    the letters y, m, d makes [formatNumber] raise the RangeError of
    [toFixed] for every value: the count of zeros less one is handed to
    [toFixed] as the number of decimals. *)
Theorem formatNumber_raises (host : Host) (numFmts : gmap string string)
    (value : float) (fmtId : option Z) :
  has_ymd (formatCode numFmts fmtId) = false ->
  Js.includes_char "%" (formatCode numFmts fmtId) = true ->
  101 < Js.count_char "0" (formatCode numFmts fmtId) ->
  formatNumber host numFmts value fmtId
  = Throws "RangeError: toFixed() digits argument must be between 0 and 100".
Proof.
  intros Hymd Hpercent Hzeros. unfold formatNumber, formatWith, dateRule.
  rewrite Hymd. cbn [andb]. unfold percentRule. rewrite Hpercent.
  rewrite toFixed_raises by lia. reflexivity.
Qed.

Lemma formatNumber_raises_witness :
  formatNumber Examples.beijing
    (<["164" := Js.repeat_char "0" 102 ++ "%"]> ∅) 0.5%float (Some 164)
  = Throws "RangeError: toFixed() digits argument must be between 0 and 100".
Proof.
  apply (formatNumber_raises Examples.beijing
           (<["164" := Js.repeat_char "0" 102 ++ "%"]> ∅) 0.5%float (Some 164));
    vm_compute; reflexivity.
Defined.

End FormatErrorFacts.

(** ** How far a text overflows *)

Module OverflowBoundFacts.
Import Style Sheet Overflow.

Lemma extendSpan_within (host : Host) (T : tables) (maps : styleMaps)
    (cellMap : gmap Z cellElem) (mergeSpanMap : gmap (Z * Z) span)
    (rowNum : option Z) (n : nat) (a endCol e : Z) :
  extendSpan host T maps cellMap mergeSpanMap rowNum (seqZ a (Z.of_nat n)) endCol
  = Returns e ->
  endCol < a ->
  endCol <= e < a + Z.of_nat n
  /\ forall c, a <= c <= e -> at_rc mergeSpanMap rowNum c = None.
Proof.
  revert a endCol. induction n as [|n IH]; intros a endCol Hrun Hlt.
  - cbn in Hrun. injection Hrun as <-. split; [lia |]. intros c Hc. lia.
  - rewrite seqZ_cons in Hrun by lia. cbn [extendSpan] in Hrun.
    destruct (bool_decide (is_Some (at_rc mergeSpanMap rowNum a))) eqn:Hmerged.
    { injection Hrun as <-. split; [lia |]. intros c Hc. lia. }
    apply bool_decide_eq_false in Hmerged.
    assert (at_rc mergeSpanMap rowNum a = None) as Hfree.
    { destruct (at_rc mergeSpanMap rowNum a); [| reflexivity].
      exfalso. apply Hmerged. eauto. }
    replace (Z.pred (Z.of_nat (S n))) with (Z.of_nat n) in Hrun by lia.
    assert (extendSpan host T maps cellMap mergeSpanMap rowNum
              (seqZ (Z.succ a) (Z.of_nat n)) a = Returns e ->
            endCol <= e < a + Z.of_nat (S n)
            /\ forall c, a <= c <= e -> at_rc mergeSpanMap rowNum c = None)
      as Hrest.
    { intros Hgo. destruct (IH (Z.succ a) a Hgo ltac:(lia)) as [Hbounds Hall].
      split; [lia |]. intros c Hc.
      destruct (Z.eq_dec c a) as [-> | Hne]; [exact Hfree | apply Hall; lia]. }
    destruct (cellMap !! a) as [neighbor|]; [| now apply Hrest].
    destruct (getCellDisplayText host T neighbor (resolveStyleIndex maps rowNum a))
      as [text | err]; cbn [mbind outcome_bind] in Hrun; [| discriminate].
    destruct (negb (String.eqb text "")); [| now apply Hrest].
    injection Hrun as <-. split; [lia |]. intros c Hc. lia.
Qed.

(** X29. An overflow never leaves the table and never runs into a merged
    range: when [getOverflowEndCol] returns a column, that column lies
    to the right of the cell and not beyond [currentMaxCol], and no
    column from the cell's own to that one belongs to a merged range
    in the cell's row. *)
Theorem getOverflowEndCol_within (host : Host) (T : tables) (L : layout)
    (maps : styleMaps) (ce : cellElem) (styleIndex rowNum : option Z)
    (colNum : Z) (cellMap : gmap Z cellElem) (mergeSpanMap : gmap (Z * Z) span)
    (e : Z) :
  getOverflowEndCol host T L maps ce styleIndex rowNum colNum cellMap
    mergeSpanMap = Returns (Some e) ->
  colNum < e <= currentMaxCol L
  /\ forall c, colNum <= c <= e -> at_rc mergeSpanMap rowNum c = None.
Proof.
  unfold getOverflowEndCol. cbv zeta.
  destruct (negb (isTextType (c_t ce))); [discriminate |].
  destruct (default false _); [discriminate |].
  destruct (blockedAlign _); [discriminate |].
  destruct (default false _); [discriminate |].
  destruct (negb _); [discriminate |].
  destruct (getCellDisplayText host T ce None) as [text | err];
    cbn [mbind outcome_bind]; [| discriminate].
  destruct (String.eqb text ""); [discriminate |].
  destruct (bool_decide (is_Some (at_rc mergeSpanMap rowNum colNum)))
    eqn:Hmerged; [discriminate |].
  apply bool_decide_eq_false in Hmerged.
  assert (at_rc mergeSpanMap rowNum colNum = None) as Hown.
  { destruct (at_rc mergeSpanMap rowNum colNum); [| reflexivity].
    exfalso. apply Hmerged. eauto. }
  destruct (_ <=? _)%float; [discriminate |].
  destruct (Z.le_gt_cases (currentMaxCol L - colNum) 0) as [Hnone | Hsome].
  { rewrite seqZ_nil by lia. cbn [extendSpan mbind outcome_bind].
    rewrite Z.ltb_irrefl. discriminate. }
  destruct (extendSpan host T maps cellMap mergeSpanMap rowNum
              (seqZ (colNum + 1) (currentMaxCol L - colNum)) colNum)
    as [endCol | err] eqn:Hrun; cbn [mbind outcome_bind]; [| discriminate].
  replace (currentMaxCol L - colNum)
    with (Z.of_nat (Z.to_nat (currentMaxCol L - colNum))) in Hrun by lia.
  apply extendSpan_within in Hrun as [Hbounds Hall]; [| lia].
  destruct (colNum <? endCol) eqn:Hright; [| discriminate].
  apply Z.ltb_lt in Hright. intros [= <-].
  split; [lia |]. intros c Hc.
  destruct (Z.eq_dec c colNum) as [-> | Hne]; [exact Hown | apply Hall; lia].
Qed.

Lemma getOverflowEndCol_within_witness :
  1 < 3 <= Z.min (scanMaxCol [Examples.text_then_gap]) 100.
Proof.
  refine (proj1 (getOverflowEndCol_within Examples.beijing Examples.plain_tables
            {| currentMaxCol := computeMaxCol [Examples.text_then_gap];
               currentColWidths := ∅;
               currentMDW := 7 |}
            (buildStyleMaps (Examples.sheet_of [Examples.text_then_gap]))
            (Examples.cell "A1" (Some "s") (Some "0")) None (Some 1) 1
            (Grid.cellMapOf Examples.text_then_gap) ∅ 3 _)).
  vm_compute. reflexivity.
Defined.

(** *** What can raise *)

Lemma formatCode_zeros (numFmts : gmap string string) (fmtId : option Z) :
  forallb (fun entry : string * string => Js.count_char "0" entry.2 <=? 100)
          (map_to_list numFmts) = true ->
  Js.count_char "0" (Format.formatCode numFmts fmtId) <= 100.
Proof.
  intros Hall. unfold Format.formatCode.
  destruct (numFmts !! Format.fmtKey fmtId) as [code|] eqn:Hcode.
  - assert (Js.count_char "0" code <= 100) as Hzeros.
    { apply elem_of_map_to_list in Hcode.
      rewrite forallb_forall in Hall.
      apply Z.leb_le. apply (Hall (Format.fmtKey fmtId, code)).
      now apply list_elem_of_In. }
    destruct code as [|c r]; cbn [Color.truthy_string]; [| exact Hzeros].
    apply FormatErrorFacts.builtIn_zeros.
  - apply FormatErrorFacts.builtIn_zeros.
Qed.

Lemma getCellDisplayText_returns (host : Host) (T : tables) (ce : cellElem)
    (styleIndex : option Z) :
  forallb (fun entry : string * string => Js.count_char "0" entry.2 <=? 100)
          (map_to_list (numFmts T)) = true ->
  exists text, getCellDisplayText host T ce styleIndex = Returns text.
Proof.
  intros Hall. unfold getCellDisplayText. cbv zeta.
  destruct (is_numeric_type (c_t ce) && negb (String.eqb (rawText T ce) ""));
    [| eauto].
  destruct (negb (Num.isNaN (Num.parseFloat (rawText T ce)))); [| eauto].
  apply FormatErrorFacts.formatWith_returns. now apply formatCode_zeros.
Qed.

Lemma extendSpan_returns (host : Host) (T : tables) (maps : styleMaps)
    (cellMap : gmap Z cellElem) (mergeSpanMap : gmap (Z * Z) span)
    (rowNum : option Z) (cols : list Z) (endCol : Z) :
  forallb (fun entry : string * string => Js.count_char "0" entry.2 <=? 100)
          (map_to_list (numFmts T)) = true ->
  exists e,
    extendSpan host T maps cellMap mergeSpanMap rowNum cols endCol = Returns e.
Proof.
  intros Hall. revert endCol.
  induction cols as [|c cols IH]; intros endCol; cbn [extendSpan]; [eauto |].
  destruct (bool_decide _); [eauto |].
  destruct (cellMap !! c) as [neighbor|]; [| apply IH].
  destruct (getCellDisplayText_returns host T neighbor
              (resolveStyleIndex maps rowNum c) Hall) as [text ->].
  cbn [mbind outcome_bind]. destruct (negb _); [eauto | apply IH].
Qed.

Lemma renderCellValue_returns (host : Host) (T : tables) (ce : cellElem)
    (styleIndex : option Z) :
  forallb (fun entry : string * string => Js.count_char "0" entry.2 <=? 100)
          (map_to_list (numFmts T)) = true ->
  exists text, Render.renderCellValue host T ce styleIndex = Returns text.
Proof.
  intros Hall. rewrite RenderFacts.renderCellValue_rawText. cbv zeta.
  destruct (is_numeric_type (c_t ce)); [| eauto].
  destruct (Js.arr_get _ _) as [style|]; [| eauto].
  destruct (negb _); [| eauto].
  apply FormatErrorFacts.formatWith_returns. now apply formatCode_zeros.
Qed.

Lemma getOverflowEndCol_returns (host : Host) (T : tables) (L : layout)
    (maps : styleMaps) (ce : cellElem) (styleIndex rowNum : option Z)
    (colNum : Z) (cellMap : gmap Z cellElem)
    (mergeSpanMap : gmap (Z * Z) span) :
  forallb (fun entry : string * string => Js.count_char "0" entry.2 <=? 100)
          (map_to_list (numFmts T)) = true ->
  exists endCol,
    getOverflowEndCol host T L maps ce styleIndex rowNum colNum cellMap
      mergeSpanMap = Returns endCol.
Proof.
  intros Hall. unfold getOverflowEndCol. cbv zeta.
  destruct (negb (isTextType (c_t ce))); [eauto |].
  destruct (default false _); [eauto |].
  destruct (blockedAlign _); [eauto |].
  destruct (default false _); [eauto |].
  destruct (negb _); [eauto |].
  destruct (getCellDisplayText_returns host T ce None Hall) as [text ->].
  cbn [mbind outcome_bind].
  destruct (String.eqb text ""); [eauto |].
  destruct (bool_decide _); [eauto |].
  destruct (_ <=? _)%float; [eauto |].
  destruct (extendSpan_returns host T maps cellMap mergeSpanMap rowNum
              (seqZ (colNum + 1) (currentMaxCol L - colNum)) colNum Hall)
    as [endCol ->].
  cbn [mbind outcome_bind]. eauto.
Qed.

(** X30. The only exception that the computation of a cell's text and of
    its overflow can raise is the RangeError that [toFixed] and
    [toLocaleString] raise under a number format: when every code of
    [numFmts] holds at most 100 characters ['0'], then
    [getCellDisplayText], the value of [renderCell] and
    [getOverflowEndCol] return for every cell, style, row and column. *)
Theorem cell_text_returns (host : Host) (T : tables) :
  forallb (fun entry : string * string => Js.count_char "0" entry.2 <=? 100)
          (map_to_list (numFmts T)) = true ->
  (forall ce styleIndex,
      exists text, getCellDisplayText host T ce styleIndex = Returns text)
  /\ (forall ce styleIndex,
        exists text, Render.renderCellValue host T ce styleIndex = Returns text)
  /\ (forall L maps ce styleIndex rowNum colNum cellMap mergeSpanMap,
        exists endCol,
          getOverflowEndCol host T L maps ce styleIndex rowNum colNum cellMap
            mergeSpanMap = Returns endCol).
Proof.
  intros Hall. split; [| split].
  - intros ce styleIndex. now apply getCellDisplayText_returns.
  - intros ce styleIndex. now apply renderCellValue_returns.
  - intros L maps ce styleIndex rowNum colNum cellMap mergeSpanMap.
    now apply getOverflowEndCol_returns.
Qed.

Lemma cell_text_returns_witness :
  exists text,
    getCellDisplayText Examples.beijing Examples.boxed_tables
      (Examples.cell "A1" None (Some "1.50")) (Some 0) = Returns text.
Proof.
  apply (cell_text_returns Examples.beijing Examples.boxed_tables).
  reflexivity.
Defined.

End OverflowBoundFacts.

(** ** The table of a sheet *)

Module TableFacts.
Import Style Sheet Ref Overflow Grid Merge Layout Render Table.

Lemma forEach_returns {A B} (f : A -> outcome B) (l : list A) :
  (forall x, x ∈ l -> exists y, f x = Returns y) ->
  exists ys, forEach f l = Returns ys
             /\ Forall2 (fun x y => f x = Returns y) l ys.
Proof.
  induction l as [|x l IH]; intros Hall; cbn [forEach].
  - exists []. split; [reflexivity | constructor].
  - destruct (Hall x) as [y Hy]; [left |].
    destruct IH as (ys & Hys & Hall2); [intros z Hz; apply Hall; now right |].
    exists (y :: ys). rewrite Hy, Hys. cbn [mbind outcome_bind mret outcome_ret].
    split; [reflexivity | now constructor].
Qed.

Lemma fillCell_returns (host : Host) (T : tables) (doc : sheetDoc)
    (hyperlinkMap : gmap string string) (row : rowElem) (td : tdOut) :
  shortFormats T = true ->
  exists shown, fillCell host T doc hyperlinkMap row td = Returns shown.
Proof.
  intros Hshort. unfold fillCell. destruct (td_cell td) as [ce|]; [| eauto].
  cbv zeta.
  destruct (OverflowBoundFacts.getOverflowEndCol_returns host T
              (layoutOf host T doc) (buildStyleMaps doc) ce
              (resolveStyleIndex (buildStyleMaps doc) (rowNumOf row) (td_col td))
              (rowNumOf row) (td_col td) (cellMapOf row)
              (parseMerges (doc_merges doc)).2 Hshort) as [endCol ->].
  cbn [mbind outcome_bind]. unfold renderCellContent.
  destruct (OverflowBoundFacts.renderCellValue_returns host T ce
              (resolveStyleIndex (buildStyleMaps doc) (rowNumOf row) (td_col td))
              Hshort) as [value ->].
  cbn [mbind outcome_bind].
  destruct endCol as [e|]; [destruct (_ && _) |]; cbn; eauto.
Qed.

Lemma fillRow_returns (host : Host) (T : tables) (doc : sheetDoc)
    (hyperlinkMap : gmap string string) (tr : trOut) :
  shortFormats T = true ->
  exists shown,
    fillRow host T doc hyperlinkMap tr = Returns shown /\ sh_tr shown = tr.
Proof.
  intros Hshort. unfold fillRow. destruct (tr_row tr) as [row|]; [| eauto].
  destruct (forEach_returns (fillCell host T doc hyperlinkMap row) (tr_cells tr))
    as (cells & -> & _); [intros td _; now apply fillCell_returns |].
  cbn. eauto.
Qed.

(** Without a long format code no cell raises, and the table is
    attached with the rows of the grid. *)
Lemma renderTable_returns (host : Host) (T : tables) (doc : sheetDoc)
    (links : list Links.linkElem) (relsDoc : option (list Links.relElem))
    (g : grid) :
  shortFormats T = true ->
  renderSheet doc = Some g ->
  exists rows,
    renderTable host T doc links relsDoc
    = Returns (Some {| sh_columns := g_columns g; sh_rows := rows |})
    /\ sh_tr <$> rows = g_rows g.
Proof.
  intros Hshort Hg. unfold renderTable. rewrite Hg. cbv zeta.
  destruct (forEach_returns
              (fillRow host T doc (Links.parseHyperlinks links relsDoc))
              (g_rows g)) as (rows & -> & Hrows).
  { intros tr _.
    destruct (fillRow_returns host T doc (Links.parseHyperlinks links relsDoc)
                tr Hshort) as (shown & Hshown & _).
    eauto. }
  exists rows. split; [reflexivity |].
  induction Hrows as [|tr shown trs rows Hfill _ IH]; [reflexivity |].
  cbn [fmap list_fmap]. f_equal; [| exact IH].
  destruct (fillRow_returns host T doc (Links.parseHyperlinks links relsDoc)
              tr Hshort) as (shown' & Hshown & Htr).
  congruence.
Qed.

(** X20. In a workbook without a format code of more than 100
    characters ['0'], and for a safe sheet (row, column, merge, frozen
    row and hyperlink numbers below 2^53 in magnitude, hyperlink ranges
    of fewer than 2^32 cells), the table is attached and every row element
    whose number is not above 1000 is shown: the table body has a row
    for it, under its number, with one cell for each column of the
    table that no merged range hides, in the order of the columns; each
    cell shows the row element's cell for its column, if there is one,
    and the anchor of a merged range carries the range's row and column
    count. *)
Theorem renderSheet_complete (host : Host) (T : tables) (doc : sheetDoc)
    (links : list Links.linkElem) (relsDoc : option (list Links.relElem))
    (row : rowElem) :
  shortFormats T = true ->
  safeSheet doc links = true ->
  row ∈ doc_rows doc ->
  Js.gt (rowNumOf row) 1000 = false ->
  let merges := (parseMerges (doc_merges doc)).1 in
  exists table shown,
    renderTable host T doc links relsDoc = Returns (Some table)
    /\ shown ∈ sh_rows table
    /\ tr_row (sh_tr shown) = Some row
    /\ tr_label (sh_tr shown) = rowNumOf row
    /\ td_col <$> tr_cells (sh_tr shown)
       = filter (fun c => hiddenAt merges (rowNumOf row) c = false)
                (sh_columns table)
    /\ Forall (fun td =>
                 td_cell td = cellOfColumn row (td_col td)
                 /\ td_span td = spanAt merges (rowNumOf row) (td_col td))
              (tr_cells (sh_tr shown)).
Proof.
  intros Hshort _ Hin Hgt merges.
  destruct (doc_rows doc) as [|r0 rows] eqn:Hrows;
    [now apply elem_of_nil in Hin |].
  set (maxCol := computeMaxCol (r0 :: rows)).
  set (g := {| g_columns := seqZ 1 maxCol;
               g_rows := renderRows merges maxCol (r0 :: rows) |}).
  assert (renderSheet doc = Some g) as Hg
    by (unfold renderSheet; now rewrite Hrows).
  destruct (renderTable_returns host T doc links relsDoc g Hshort Hg)
    as (shownRows & Htable & Htrs).
  set (tr := {| tr_label := rowNumOf row; tr_row := Some row;
                tr_cells := renderCells merges maxCol row (rowNumOf row) |}).
  assert (tr ∈ sh_tr <$> shownRows) as Htr.
  { rewrite Htrs. now apply LayoutFacts.renderRows_shows. }
  apply list_elem_of_fmap in Htr as (shown & Hshown & Hmem).
  exists {| sh_columns := g_columns g; sh_rows := shownRows |}, shown.
  split; [exact Htable |]. split; [exact Hmem |].
  rewrite <- Hshown. cbn [tr tr_row tr_label tr_cells sh_columns g g_columns].
  split; [reflexivity | split; [reflexivity |]].
  apply (LayoutFacts.renderCells_columns merges maxCol row (rowNumOf row)
           (seqZ 1 maxCol)).
Qed.

(** Row 2 of a sheet whose title is merged over A1:B2: of the three
    columns only column C is shown. *)
Lemma renderSheet_complete_witness :
  exists table shown,
    renderTable Examples.beijing Examples.plain_tables
      MoreExamples.merged_title [] None = Returns (Some table)
    /\ shown ∈ sh_rows table
    /\ tr_row (sh_tr shown) = Some MoreExamples.second_row
    /\ td_col <$> tr_cells (sh_tr shown) = [3].
Proof.
  destruct (renderSheet_complete Examples.beijing Examples.plain_tables
              MoreExamples.merged_title [] None MoreExamples.second_row
              eq_refl eq_refl)
    as (table & shown & Htable & Hshown & Hrow & _ & Hcols & _).
  - apply (list_elem_of_lookup_2 _ 1%nat). reflexivity.
  - reflexivity.
  - exists table, shown. split; [exact Htable |]. split; [exact Hshown |].
    split; [exact Hrow |]. rewrite Hcols.
    assert (sh_columns table = [1; 2; 3]) as ->.
    { vm_compute in Htable. injection Htable as <-. reflexivity. }
    vm_compute. reflexivity.
Defined.

(** X21. In a workbook without a format code of more than 100
    characters ['0'], and for a safe sheet (row, column, merge, frozen
    row and hyperlink numbers below 2^53 in magnitude, hyperlink ranges
    of fewer than 2^32 cells): when the row elements carry row numbers
    that increase from 1 on, the table is attached and its body shows
    the rows 1, 2, 3, ... without a gap and without a repeat, up to the
    last row number or up to 1000, whichever is smaller: rows that the
    sheet leaves out are filled in and rows above 1000 are dropped. *)
Theorem renderSheet_labels (host : Host) (T : tables) (doc : sheetDoc)
    (links : list Links.linkElem) (relsDoc : option (list Links.relElem))
    (nums : list Z) :
  shortFormats T = true ->
  safeSheet doc links = true ->
  doc_rows doc <> [] ->
  rowNumOf <$> doc_rows doc = Some <$> nums ->
  increasingFrom 0 nums = true ->
  exists table,
    renderTable host T doc links relsDoc = Returns (Some table)
    /\ (fun shown => tr_label (sh_tr shown)) <$> sh_rows table
       = Some <$> seqZ 1 (Z.min (List.last nums 0) 1000).
Proof.
  intros Hshort _ Hrows Hnums Hinc.
  destruct (renderSheet doc) as [g|] eqn:Hg.
  2:{ unfold renderSheet in Hg. now destruct (doc_rows doc). }
  destruct (renderTable_returns host T doc links relsDoc g Hshort Hg)
    as (shownRows & Htable & Htrs).
  eexists. split; [exact Htable |]. cbn [sh_rows].
  rewrite (list_fmap_compose sh_tr tr_label), Htrs.
  unfold renderSheet in Hg. destruct (doc_rows doc) as [|r0 rows]; [done |].
  injection Hg as <-. cbn [g_rows].
  now apply LayoutFacts.renderRows_labels_all.
Qed.

(** Rows 1, 2 and 5 give the rows 1 to 5. *)
Lemma renderSheet_labels_witness :
  exists table,
    renderTable Examples.beijing Examples.plain_tables
      MoreExamples.merged_title [] None = Returns (Some table)
    /\ (fun shown => tr_label (sh_tr shown)) <$> sh_rows table
       = [Some 1; Some 2; Some 3; Some 4; Some 5].
Proof.
  apply (renderSheet_labels Examples.beijing Examples.plain_tables
           MoreExamples.merged_title [] None [1; 2; 5]);
    [reflexivity | reflexivity | discriminate | reflexivity | reflexivity].
Defined.

End TableFacts.
